(** * gollmkit: credential store, usage ledger and key rotation

    A shallow embedding of the Go packages [internal/config] and
    [internal/auth] (key store, key encryptor, key rotator, health checker
    write-back), followed by the properties of the rotation engine and of
    the usage / health ledger.

    Conventions of the embedding.
    - [int64] and [int] are [Z]; an increment or addition performed by the
      code is written with its two's-complement wrap-around ([wrap64]).
    - [float64] is the kernel's binary64 type [float]; the comparisons of
      the source ([<], [<=], [==]) are [PrimFloat.ltb], [PrimFloat.leb] and
      [PrimFloat.eqb], the source's [+] is [PrimFloat.add].
    - [time.Time] is a Unix time in seconds, read in UTC.  [time.Now()]
      consumes one reading of the wall clock held by the world.
    - a Go [map[string]V] is a [gmap string V]; a nil inner map is an absent
      outer entry.
    - every method body runs under the receiver's mutex, so a method is one
      atomic transition of the world; a Go run-time panic (index out of
      range, assignment to an entry of a nil map) is the outcome [Panic],
      and what the method had written before panicking stays written.
    - [&key], the address of the variable of a range loop, designates the
      candidate it was taken for or the candidate scanned last, by the
      version of the language; the class [LoopVar] chooses, and the
      properties are stated for both. *)

From Stdlib Require Import ZArith Floats Lia.
From Stdlib Require Import Strings.Byte.
From stdpp Require Import base option list strings gmap fin_maps.

Local Open Scope Z_scope.

(** ** Machine integers and time *)

Definition wrap64 (z : Z) : Z := (z + 2 ^ 63) mod 2 ^ 64 - 2 ^ 63.

Definition MaxInt64 : Z := 2 ^ 63 - 1.

(** Day of the month of a Unix time (proleptic Gregorian calendar, UTC):
    what [time.Time.Day] returns. *)
Definition Day (t : Z) : Z :=
  let z := t / 86400 + 719468 in
  let era := z / 146097 in
  let doe := z - era * 146097 in
  let yoe := (doe - doe / 1460 + doe / 36524 - doe / 146096) / 365 in
  let doy := doe - (365 * yoe + yoe / 4 - yoe / 100) in
  let mp := (5 * doy + 2) / 153 in
  doy - (153 * mp + 2) / 5 + 1.

(** [time.Time.Before]. *)
Definition Before (t u : Z) : bool := t <? u.

(** ** Outcomes *)

Inductive error : Type :=
  | ErrProviderNotFound (provider : string)
  | ErrKeyNotFound (keyName provider : string)
  | ErrNoEnabledKeys (provider : string)
  | ErrNoKeysAvailable
  | ErrAllKeysOverCostLimit
  | ErrNoSuitableKey (provider : string)
  | ErrUnhealthyNoFallback (keyName : string)
  | ErrNoHealthyFallback
  | ErrFallbackSelectionFailed
  | ErrCiphertextTooShort
  | ErrIllegalBase64
  | ErrInvalidKeySize
  | ErrMessageAuthenticationFailed
  | ErrRandomSource
  | ErrWrap (context : string) (cause : error).

Inductive result (A : Type) : Type :=
  | Ok (a : A)
  | Err (e : error)
  | Panic (reason : string).

Arguments Ok {A} a.
Arguments Err {A} e.
Arguments Panic {A} reason.

(** ** Ranging over a map *)

(** A Go [range] over a map visits every entry once, in an order the
    language leaves unspecified; the embedding is parametric in it. *)
Class MapRange : Type := {
  range : forall {V : Type}, gmap string V -> list (string * V)
}.

Class MapRangeLaws `{MapRange} : Prop := {
  range_Permutation : forall (V : Type) (m : gmap string V), range m ≡ₚ map_to_list m
}.

(** ** Package config *)

Module config.

Inductive RotationStrategy : Type :=
  | RotationRoundRobin
  | RotationLeastUsed
  | RotationCostOptimized
  | RotationRandom
  | RotationSingle
  | RotationOther (name : string).

Record APIKey : Type := {
  Key : string;
  Name : string;
  RateLimit : Z;
  CostLimit : float;
  Enabled : bool;
  LastUsed : Z;
  UsageCount : Z;
  CostUsed : float
}.

Record RotationConfig : Type := {
  Strategy : RotationStrategy;
  HealthCheck : bool;
  FallbackEnabled : bool
}.

(** The model list of a provider plays no part in key selection and is
    left out. *)
Record ProviderConfig : Type := {
  APIKeys : list APIKey;
  Rotation : RotationConfig
}.

Record Config : Type := {
  Providers : gmap string ProviderConfig
}.

Definition IsValid (k : APIKey) : bool :=
  Enabled k && negb (String.eqb (Key k) "") && negb (String.eqb (Name k) "").

Definition CanUse (k : APIKey) : bool :=
  if negb (IsValid k) then false
  else if PrimFloat.ltb 0 (CostLimit k) && PrimFloat.leb (CostLimit k) (CostUsed k)
       then false
       else true.

Definition GetEnabledKeys (p : ProviderConfig) : list APIKey :=
  List.filter (fun key => IsValid key && CanUse key) (APIKeys p).

Definition GetProvider (c : Config) (name : string) : result ProviderConfig :=
  match Providers c !! name with
  | None => Err (ErrProviderNotFound name)
  | Some provider => Ok provider
  end.


(** *** Models, validation and the environment

    [ProviderConfig] above carries the fields that key selection reads.
    Its [Models] field travels beside it: a method that reads nothing but
    [p.Models] takes that list, and a function of the whole configuration
    takes [Models], the model list of the provider of each name. *)

Record ModelConfig : Type := {
  ModelName : string;
  InputCostPer1KTokens : float;
  OutputCostPer1KTokens : float;
  MaxTokens : Z;
  ModelEnabled : bool
}.

(** [None] is the error "model %s not found or not enabled". *)
Fixpoint GetModelByName (models : list ModelConfig) (name : string) : option ModelConfig :=
  match models with
  | [] => None
  | model :: rest =>
    if String.eqb (ModelName model) name && ModelEnabled model
    then Some model
    else GetModelByName rest name
  end.

Definition GetEnabledModels (models : list ModelConfig) : list ModelConfig :=
  List.filter (fun model => ModelEnabled model) models.

(** The errors of [validateConfig], one per message. *)
Inductive validation_error : Type :=
  | ErrNoProviders
  | ErrNoAPIKeys (providerName : string)
  | ErrNoModels (providerName : string)
  | ErrEmptyKey (providerName : string) (i : Z)
  | ErrEmptyKeyName (providerName : string) (i : Z)
  | ErrNoEnabledKey (providerName : string)
  | ErrEmptyModelName (providerName : string) (i : Z)
  | ErrNoEnabledModel (providerName : string).

(** The loop over [provider.APIKeys]; [i] is the index of the range. *)
Fixpoint validateKeys (providerName : string) (i : Z) (keys : list APIKey)
    (enabledKeyCount : Z) : validation_error + Z :=
  match keys with
  | [] => inr enabledKeyCount
  | key :: rest =>
    if String.eqb (Key key) "" then inl (ErrEmptyKey providerName i)
    else if String.eqb (Name key) "" then inl (ErrEmptyKeyName providerName i)
    else validateKeys providerName (i + 1) rest
           (if Enabled key then wrap64 (enabledKeyCount + 1) else enabledKeyCount)
  end.

(** The loop over [provider.Models]. *)
Fixpoint validateModels (providerName : string) (i : Z) (models : list ModelConfig)
    (enabledModelCount : Z) : validation_error + Z :=
  match models with
  | [] => inr enabledModelCount
  | model :: rest =>
    if String.eqb (ModelName model) "" then inl (ErrEmptyModelName providerName i)
    else validateModels providerName (i + 1) rest
           (if ModelEnabled model then wrap64 (enabledModelCount + 1)
            else enabledModelCount)
  end.

(** The body of the loop over the providers; [None] is no error. *)
Definition validateProvider (providerName : string) (provider : ProviderConfig)
    (models : list ModelConfig) : option validation_error :=
  if Z.of_nat (length (APIKeys provider)) =? 0 then Some (ErrNoAPIKeys providerName)
  else if Z.of_nat (length models) =? 0 then Some (ErrNoModels providerName)
  else
    match validateKeys providerName 0 (APIKeys provider) 0 with
    | inl err => Some err
    | inr enabledKeyCount =>
      if enabledKeyCount =? 0 then Some (ErrNoEnabledKey providerName)
      else
        match validateModels providerName 0 models 0 with
        | inl err => Some err
        | inr enabledModelCount =>
          if enabledModelCount =? 0 then Some (ErrNoEnabledModel providerName)
          else None
        end
    end.

Fixpoint validateProviders (Models : string -> list ModelConfig)
    (providers : list (string * ProviderConfig)) : option validation_error :=
  match providers with
  | [] => None
  | (providerName, provider) :: rest =>
    match validateProvider providerName provider (Models providerName) with
    | Some err => Some err
    | None => validateProviders Models rest
    end
  end.

Definition validateConfig `{MapRange} (Models : string -> list ModelConfig)
    (config : Config) : option validation_error :=
  if Z.of_nat (size (Providers config)) =? 0 then Some ErrNoProviders
  else validateProviders Models (range (Providers config)).

(** [LoadFromEnvironment]; [Getenv] is [os.Getenv], which returns the empty
    string for a variable that is not set.  The loop over the keys writes
    [provider.APIKeys[i].Key] and nothing else. *)
Definition loadKey (Getenv : string -> string) (providerName : string) (key : APIKey)
  : APIKey :=
  let envKey := ("GOLLM_" ++ providerName ++ "_API_KEY_" ++ Name key)%string in
  let envValue := Getenv envKey in
  if negb (String.eqb envValue "")
  then {| Key := envValue; Name := Name key; RateLimit := RateLimit key;
          CostLimit := CostLimit key; Enabled := Enabled key; LastUsed := LastUsed key;
          UsageCount := UsageCount key; CostUsed := CostUsed key |}
  else key.

Fixpoint loadProviders (Getenv : string -> string)
    (providers : list (string * ProviderConfig)) (c : gmap string ProviderConfig)
  : gmap string ProviderConfig :=
  match providers with
  | [] => c
  | (providerName, provider) :: rest =>
    let provider' := {| APIKeys := List.map (loadKey Getenv providerName) (APIKeys provider);
                        Rotation := Rotation provider |} in
    loadProviders Getenv rest (<[providerName := provider']> c)
  end.

Definition LoadFromEnvironment `{MapRange} (Getenv : string -> string) (c : Config)
  : Config :=
  {| Providers := loadProviders Getenv (range (Providers c)) (Providers c) |}.

End config.

(** ** Package auth *)

Module auth.

(** *** The Go standard library used by the key encryptor

    [crypto/sha256], [crypto/aes], [crypto/cipher] (GCM) and
    [encoding/base64] are not part of the repository; the embedding is
    parametric in them. *)
Class CryptoLib : Type := {
  Block : Type;
  AEAD : Type;
  sha256_Sum256 : list byte -> list byte;
  aes_NewCipher : list byte -> result Block;
  cipher_NewGCM : Block -> result AEAD;
  NonceSize : AEAD -> nat;
  (** [Seal g nonce plaintext]: ciphertext followed by the tag, the part
      that [gcm.Seal] appends to its [dst] argument. *)
  Seal : AEAD -> list byte -> list byte -> list byte;
  Open : AEAD -> list byte -> list byte -> result (list byte);
  base64_EncodeToString : list byte -> string;
  base64_DecodeString : string -> result (list byte)
}.

(** What the documentation of those packages promises: opening undoes
    sealing, decoding undoes encoding, and a sealed message that was
    tampered with is not opened. *)
Class CryptoLaws `{CryptoLib} : Prop := {
  Open_Seal : forall g nonce plaintext,
    length nonce = NonceSize g -> Open g nonce (Seal g nonce plaintext) = Ok plaintext;
  Decode_Encode : forall data,
    base64_DecodeString (base64_EncodeToString data) = Ok data;
  (** Ciphertext integrity, read ideally: [Open] accepts nothing but what
      [Seal] produced under that nonce. *)
  Open_genuine : forall g nonce sealed plaintext,
    Open g nonce sealed = Ok plaintext -> sealed = Seal g nonce plaintext
}.

Record KeyUsage : Type := {
  LastUsed : Z;
  UsageCount : Z;
  TokensUsed : Z;
  CostUsed : float;
  DailyCost : float;
  ErrorCount : Z;
  LastError : string
}.

Record KeyEncryptor : Type := { key : list byte }.

Record MemoryKeyStore : Type := {
  keys : gmap string (gmap string string);
  usage : gmap string (gmap string KeyUsage);
  health : gmap string (gmap string bool);
  encryptor : option KeyEncryptor
}.

Record KeyRotator : Type := {
  config : config.Config;
  lastUsed : gmap string (gmap string Z);
  rotationIdx : gmap string Z;
  (** [rand]: the values the pseudo-random source will produce, and how
      many were consumed. *)
  rand_src : nat -> Z;
  rand_pos : nat
}.

Record KeySelection : Type := {
  SelProvider : string;
  SelKeyName : string;
  SelKey : string;
  SelRateLimit : Z;
  SelCostLimit : float;
  SelUsageCount : Z;
  SelLastUsed : Z;
  SelStrategy : config.RotationStrategy
}.

(** *** The world: store, rotator, wall clock and entropy source *)

Record World : Type := {
  store : MemoryKeyStore;
  rotator : KeyRotator;
  clock : nat -> Z;
  ticks : nat;
  entropy : nat -> option (list byte);
  draws : nat
}.

Definition M (A : Type) : Type := World -> result A * World.

Definition ret {A} (a : A) : M A := fun w => (Ok a, w).

Definition fail {A} (e : error) : M A := fun w => (Err e, w).

Definition panic {A} (reason : string) : M A := fun w => (Panic reason, w).

Definition bind {A B} (m : M A) (k : A -> M B) : M B :=
  fun w =>
    match m w with
    | (Ok a, w') => k a w'
    | (Err e, w') => (Err e, w')
    | (Panic r, w') => (Panic r, w')
    end.

(** [attempt m]: call [m] and hand its error to the caller as a value
    ([v, err := m()]); a panic still unwinds. *)
Definition attempt {A} (m : M A) : M (error + A) :=
  fun w =>
    match m w with
    | (Ok a, w') => (Ok (inr a), w')
    | (Err e, w') => (Ok (inl e), w')
    | (Panic r, w') => (Panic r, w')
    end.

(** [wrapping ctx m]: [if err != nil { return fmt.Errorf("ctx: %w", err) }]. *)
Definition wrapping {A} (context : string) (m : M A) : M A :=
  fun w =>
    match m w with
    | (Err e, w') => (Err (ErrWrap context e), w')
    | r => r
    end.

Definition lift {A} (r : result A) : M A := fun w => (r, w).

Declare Scope go_scope.
Delimit Scope go_scope with go.
Notation "'let*' x ':=' m 'in' k" := (bind m (fun x => k))
  (at level 10, x pattern, m at level 100, k at level 200) : go_scope.
Notation "m ';;' k" := (bind m (fun _ => k))
  (at level 100, k at level 200, right associativity) : go_scope.
Local Open Scope go_scope.

Definition get_store : M MemoryKeyStore := fun w => (Ok (store w), w).

Definition put_store (m : MemoryKeyStore) : M unit :=
  fun w => (Ok tt, {| store := m; rotator := rotator w; clock := clock w;
                      ticks := ticks w; entropy := entropy w; draws := draws w |}).

Definition get_rotator : M KeyRotator := fun w => (Ok (rotator w), w).

Definition put_rotator (kr : KeyRotator) : M unit :=
  fun w => (Ok tt, {| store := store w; rotator := kr; clock := clock w;
                      ticks := ticks w; entropy := entropy w; draws := draws w |}).

(** [time.Now()]. *)
Definition Now : M Z :=
  fun w => (Ok (clock w (ticks w)),
            {| store := store w; rotator := rotator w; clock := clock w;
               ticks := S (ticks w); entropy := entropy w; draws := draws w |}).

(** [io.ReadFull(rand.Reader, buf)] for a buffer of [n] bytes. *)
Definition ReadFull (n : nat) : M (list byte) :=
  fun w =>
    let w' := {| store := store w; rotator := rotator w; clock := clock w;
                 ticks := ticks w; entropy := entropy w; draws := S (draws w) |} in
    match entropy w (draws w) with
    | Some bs => if (length bs =? n)%nat then (Ok bs, w') else (Err ErrRandomSource, w')
    | None => (Err ErrRandomSource, w')
    end.

(** [outer[p][k] = v]: assignment to an entry of a nil inner map panics. *)
Definition assign {V} (outer : gmap string (gmap string V)) (p k : string) (v : V)
  : option (gmap string (gmap string V)) :=
  match outer !! p with
  | None => None
  | Some inner => Some (<[p := <[k := v]> inner]> outer)
  end.

(** [delete(outer[p], k)]: a no-op on a nil inner map. *)
Definition remove {V} (outer : gmap string (gmap string V)) (p k : string)
  : gmap string (gmap string V) :=
  match outer !! p with
  | None => outer
  | Some inner => <[p := delete k inner]> outer
  end.

Definition nil_map_panic : string := "assignment to entry in nil map".
Definition index_panic : string := "index out of range".

(** *** keystore.go: MemoryKeyStore and KeyEncryptor *)

Definition NewKeyEncryptor `{CryptoLib} (password : string) : KeyEncryptor :=
  {| key := sha256_Sum256 (String.list_byte_of_string password) |}.

Definition NewMemoryKeyStore `{CryptoLib} (encryptionKey : string) : MemoryKeyStore :=
  {| keys := ∅; usage := ∅; health := ∅;
     encryptor := if String.eqb encryptionKey "" then None
                  else Some (NewKeyEncryptor encryptionKey) |}.

Definition Encrypt `{CryptoLib} (e : KeyEncryptor) (plaintext : string) : M string :=
  let* block := lift (aes_NewCipher (key e)) in
  let* gcm := lift (cipher_NewGCM block) in
  let* nonce := ReadFull (NonceSize gcm) in
  let ciphertext := nonce ++ Seal gcm nonce (String.list_byte_of_string plaintext) in
  ret (base64_EncodeToString ciphertext).

Definition Decrypt `{CryptoLib} (e : KeyEncryptor) (ciphertext : string) : result string :=
  match base64_DecodeString ciphertext with
  | Err err => Err err
  | Panic r => Panic r
  | Ok data =>
    match aes_NewCipher (key e) with
    | Err err => Err err
    | Panic r => Panic r
    | Ok block =>
      match cipher_NewGCM block with
      | Err err => Err err
      | Panic r => Panic r
      | Ok gcm =>
        let nonceSize := NonceSize gcm in
        if (length data <? nonceSize)%nat then Err ErrCiphertextTooShort
        else
          let nonce := take nonceSize data in
          let ciphertext_bytes := drop nonceSize data in
          match Open gcm nonce ciphertext_bytes with
          | Err err => Err err
          | Panic r => Panic r
          | Ok plaintext => Ok (String.string_of_list_byte plaintext)
          end
      end
    end
  end.

Definition StoreKey `{CryptoLib} (provider keyName key : string) : M unit :=
  let* m := get_store in
  (if keys m !! provider is None
   then put_store {| keys := <[provider := ∅]> (keys m);
                     usage := <[provider := ∅]> (usage m);
                     health := <[provider := ∅]> (health m);
                     encryptor := encryptor m |}
   else ret tt) ;;
  let* storedKey :=
    match encryptor m with
    | Some e => wrapping "failed to encrypt key" (Encrypt e key)
    | None => ret key
    end in
  let* m := get_store in
  match assign (keys m) provider keyName storedKey with
  | None => panic nil_map_panic
  | Some keys' =>
    put_store {| keys := keys'; usage := usage m; health := health m;
                 encryptor := encryptor m |} ;;
    let* now := Now in
    match assign (usage m) provider keyName
            {| LastUsed := now; UsageCount := 0; TokensUsed := 0; CostUsed := 0%float;
               DailyCost := 0%float; ErrorCount := 0; LastError := "" |} with
    | None => panic nil_map_panic
    | Some usage' =>
      put_store {| keys := keys'; usage := usage'; health := health m;
                   encryptor := encryptor m |} ;;
      match assign (health m) provider keyName true with
      | None => panic nil_map_panic
      | Some health' =>
        put_store {| keys := keys'; usage := usage'; health := health';
                     encryptor := encryptor m |}
      end
    end
  end.

Definition GetKey `{CryptoLib} (provider keyName : string) : M string :=
  let* m := get_store in
  match keys m !! provider with
  | None => fail (ErrProviderNotFound provider)
  | Some providerKeys =>
    match providerKeys !! keyName with
    | None => fail (ErrKeyNotFound keyName provider)
    | Some encryptedKey =>
      match encryptor m with
      | Some e => lift (Decrypt e encryptedKey)
      | None => ret encryptedKey
      end
    end
  end.

Definition DeleteKey (provider keyName : string) : M unit :=
  let* m := get_store in
  if keys m !! provider is Some _
  then put_store {| keys := remove (keys m) provider keyName;
                    usage := remove (usage m) provider keyName;
                    health := remove (health m) provider keyName;
                    encryptor := encryptor m |}
  else ret tt.

Definition IsHealthy (provider keyName : string) : M bool :=
  let* m := get_store in
  match health m !! provider with
  | None => fail (ErrProviderNotFound provider)
  | Some providerHealth =>
    match providerHealth !! keyName with
    | None => fail (ErrKeyNotFound keyName provider)
    | Some healthy => ret healthy
    end
  end.

(** The record is updated in place through the pointer held by the map:
    [LastUsed] is overwritten first, and the day comparison further down
    reads the field it has just written. *)
Definition UpdateUsage (provider keyName : string) (tokens : Z) (cost : float) : M unit :=
  let* m := get_store in
  match usage m !! provider with
  | None => fail (ErrProviderNotFound provider)
  | Some providerUsage =>
    match providerUsage !! keyName with
    | None => fail (ErrKeyNotFound keyName provider)
    | Some u =>
      let* t := Now in
      let u1 := {| LastUsed := t;
                   UsageCount := wrap64 (UsageCount u + 1);
                   TokensUsed := wrap64 (TokensUsed u + tokens);
                   CostUsed := (CostUsed u + cost)%float;
                   DailyCost := DailyCost u;
                   ErrorCount := ErrorCount u;
                   LastError := LastError u |} in
      let* now := Now in
      let u2 := {| LastUsed := LastUsed u1;
                   UsageCount := UsageCount u1;
                   TokensUsed := TokensUsed u1;
                   CostUsed := CostUsed u1;
                   DailyCost := if negb (Day (LastUsed u1) =? Day now)
                                then cost
                                else (DailyCost u1 + cost)%float;
                   ErrorCount := ErrorCount u1;
                   LastError := LastError u1 |} in
      put_store {| keys := keys m;
                   usage := <[provider := <[keyName := u2]> providerUsage]> (usage m);
                   health := health m;
                   encryptor := encryptor m |}
    end
  end.

Definition GetUsage (provider keyName : string) : M KeyUsage :=
  let* m := get_store in
  match usage m !! provider with
  | None => fail (ErrProviderNotFound provider)
  | Some providerUsage =>
    match providerUsage !! keyName with
    | None => fail (ErrKeyNotFound keyName provider)
    | Some u =>
      ret {| LastUsed := LastUsed u; UsageCount := UsageCount u;
             TokensUsed := TokensUsed u; CostUsed := CostUsed u;
             DailyCost := DailyCost u; ErrorCount := ErrorCount u;
             LastError := LastError u |}
    end
  end.

Definition SetHealth (provider keyName : string) (healthy : bool) : M unit :=
  let* m := get_store in
  match health m !! provider with
  | None => fail (ErrProviderNotFound provider)
  | Some providerHealth =>
    put_store {| keys := keys m; usage := usage m;
                 health := <[provider := <[keyName := healthy]> providerHealth]> (health m);
                 encryptor := encryptor m |}
  end.

Definition RecordError (provider keyName errorMsg : string) : M unit :=
  let* m := get_store in
  match usage m !! provider with
  | None => fail (ErrProviderNotFound provider)
  | Some providerUsage =>
    match providerUsage !! keyName with
    | None => fail (ErrKeyNotFound keyName provider)
    | Some u =>
      let u' := {| LastUsed := LastUsed u; UsageCount := UsageCount u;
                   TokensUsed := TokensUsed u; CostUsed := CostUsed u;
                   DailyCost := DailyCost u;
                   ErrorCount := wrap64 (ErrorCount u + 1);
                   LastError := errorMsg |} in
      let usage' := <[provider := <[keyName := u']> providerUsage]> (usage m) in
      put_store {| keys := keys m; usage := usage'; health := health m;
                   encryptor := encryptor m |} ;;
      if 5 <? ErrorCount u'
      then match assign (health m) provider keyName false with
           | None => panic nil_map_panic
           | Some health' =>
             put_store {| keys := keys m; usage := usage'; health := health';
                          encryptor := encryptor m |}
           end
      else ret tt
    end
  end.

(** *** validator.go: what the health checker writes back for one probe
    result ([performHealthCheck], body of the inner loop; the errors of
    the two calls are dropped by the source). *)
Definition writeBack (provider keyName : string) (valid : bool) (message : string) : M unit :=
  let* _ := attempt (SetHealth provider keyName valid) in
  if negb valid
  then let* _ := attempt (RecordError provider keyName message) in ret tt
  else ret tt.

(** *** The key rotator

    [bestKey = &key] in [selectLeastUsed] and [selectCostOptimized] takes
    the address of the variable of a range loop.  From Go 1.22 each
    iteration has a variable of its own, and the pointer keeps designating
    the candidate it was taken for; before Go 1.22 the iterations share one
    variable, and the pointer designates the candidate the loop has scanned
    last.  The repository asks for Go 1.19 or higher and fixes no version,
    so the embedding is parametric in the two.  The name travels
    separately, by value, in [bestKeyName]. *)

Import config.

Class LoopVar : Type := { per_iteration : bool }.

(** What [bestKey] designates once the loop variable holds [key]. *)
Definition designate `{LoopVar} (key : APIKey) (bestKey : option APIKey)
  : option APIKey :=
  if per_iteration then bestKey
  else match bestKey with
       | Some _ => Some key
       | None => None
       end.

Definition len {A} (l : list A) : Z := Z.of_nat (length l).

(** [keys[idx]], with the bounds check of the run time. *)
Definition index {A} (l : list A) (idx : Z) : M A :=
  if (0 <=? idx) && (idx <? len l)
  then match l !! Z.to_nat idx with
       | Some a => ret a
       | None => panic index_panic
       end
  else panic index_panic.

Definition set_rotationIdx (provider : string) (idx : Z) : M unit :=
  let* kr := get_rotator in
  put_rotator {| config := config kr; lastUsed := lastUsed kr;
                 rotationIdx := <[provider := idx]> (rotationIdx kr);
                 rand_src := rand_src kr; rand_pos := rand_pos kr |}.

Definition selectRoundRobin (provider : string) (keys : list APIKey)
  : M (option APIKey * string) :=
  if len keys =? 0 then ret (None, "")
  else
    let* kr := get_rotator in
    (if rotationIdx kr !! provider is None then set_rotationIdx provider 0 else ret tt) ;;
    let* kr := get_rotator in
    let idx := default 0 (rotationIdx kr !! provider) in
    set_rotationIdx provider (Z.rem (wrap64 (idx + 1)) (len keys)) ;;
    let* selectedKey := index keys idx in
    ret (Some selectedKey, Name selectedKey).

Fixpoint leastUsedLoop `{LoopVar} (provider : string) (keys : list APIKey)
    (bestKey : option APIKey) (bestKeyName : string)
    (minUsage : Z) (oldestLastUsed : Z) : M (option APIKey * string) :=
  match keys with
  | [] => ret (bestKey, bestKeyName)
  | key :: rest =>
    let bestKey := designate key bestKey in
    let* r := attempt (GetUsage provider (Name key)) in
    match r with
    | inl _ => ret (Some key, Name key)
    | inr usage =>
      if (minUsage =? -1) || (auth.UsageCount usage <? minUsage) ||
         ((auth.UsageCount usage =? minUsage) && Before (auth.LastUsed usage) oldestLastUsed)
      then leastUsedLoop provider rest (Some key) (Name key)
                         (auth.UsageCount usage) (auth.LastUsed usage)
      else leastUsedLoop provider rest bestKey bestKeyName minUsage oldestLastUsed
    end
  end.

Definition selectLeastUsed `{LoopVar} (provider : string) (keys : list APIKey)
  : M (option APIKey * string) :=
  if len keys =? 0 then fail ErrNoKeysAvailable
  else
    let* now := Now in
    leastUsedLoop provider keys None "" (-1) now.

Fixpoint costOptimizedLoop `{LoopVar} (provider : string) (keys : list APIKey)
    (bestKey : option APIKey) (bestKeyName : string)
    (lowestCost : float) : M (option APIKey * string) :=
  match keys with
  | [] => ret (bestKey, bestKeyName)
  | key :: rest =>
    let bestKey := designate key bestKey in
    let* r := attempt (GetUsage provider (Name key)) in
    match r with
    | inl _ => costOptimizedLoop provider rest (Some key) (Name key) lowestCost
    | inr usage =>
      if (PrimFloat.eqb lowestCost (-1)%float || PrimFloat.ltb (DailyCost usage) lowestCost) &&
         (PrimFloat.leb (CostLimit key) 0 || PrimFloat.ltb (DailyCost usage) (CostLimit key))
      then costOptimizedLoop provider rest (Some key) (Name key) (DailyCost usage)
      else costOptimizedLoop provider rest bestKey bestKeyName lowestCost
    end
  end.

Definition selectCostOptimized `{LoopVar} (provider : string) (keys : list APIKey)
  : M (option APIKey * string) :=
  if len keys =? 0 then fail ErrNoKeysAvailable
  else
    let* r := costOptimizedLoop provider keys None "" (-1)%float in
    match r with
    | (None, _) => fail ErrAllKeysOverCostLimit
    | (Some bestKey, bestKeyName) => ret (Some bestKey, bestKeyName)
    end.

(** [kr.rand.Intn(n)]. *)
Definition Intn (n : Z) : M Z :=
  if n <=? 0 then panic "invalid argument to Intn"
  else
    let* kr := get_rotator in
    put_rotator {| config := config kr; lastUsed := lastUsed kr;
                   rotationIdx := rotationIdx kr;
                   rand_src := rand_src kr; rand_pos := S (rand_pos kr) |} ;;
    ret (rand_src kr (rand_pos kr) mod n).

Definition selectRandom (keys : list APIKey) : M (option APIKey * string) :=
  if len keys =? 0 then ret (None, "")
  else
    let* idx := Intn (len keys) in
    let* selectedKey := index keys idx in
    ret (Some selectedKey, Name selectedKey).

Definition selectSingle (keys : list APIKey) : M (option APIKey * string) :=
  if len keys =? 0 then ret (None, "")
  else
    let* selectedKey := index keys 0 in
    ret (Some selectedKey, Name selectedKey).

Definition updateLastUsed (provider keyName : string) : M unit :=
  let* kr := get_rotator in
  let inner := default ∅ (lastUsed kr !! provider) in
  let* now := Now in
  put_rotator {| config := config kr;
                 lastUsed := <[provider := <[keyName := now]> inner]> (lastUsed kr);
                 rotationIdx := rotationIdx kr;
                 rand_src := rand_src kr; rand_pos := rand_pos kr |}.

(** The loop that builds [fallbackKeys]. *)
Fixpoint fallbackKeys (provider excludeKey : string) (keys : list APIKey)
  : M (list APIKey) :=
  match keys with
  | [] => ret []
  | key :: rest =>
    if negb (String.eqb (Name key) excludeKey)
    then
      let* r := attempt (IsHealthy provider (Name key)) in
      let* tl := fallbackKeys provider excludeKey rest in
      ret (match r with inr true => key :: tl | _ => tl end)
    else fallbackKeys provider excludeKey rest
  end.

Definition getFallbackKey `{CryptoLib} (provider excludeKey : string) (keys : list APIKey)
  : M KeySelection :=
  let* fallback := fallbackKeys provider excludeKey keys in
  if len fallback =? 0 then fail ErrNoHealthyFallback
  else
    let* sel := selectRoundRobin provider fallback in
    match sel with
    | (None, _) => fail ErrFallbackSelectionFailed
    | (Some selectedKey, keyName) =>
      let* keyValue := wrapping "failed to retrieve fallback key" (GetKey provider keyName) in
      let* r := attempt (GetUsage provider keyName) in
      let* usage :=
        match r with
        | inr usage => ret usage
        | inl _ =>
          let* now := Now in
          ret {| auth.LastUsed := now; auth.UsageCount := 0; TokensUsed := 0;
                 auth.CostUsed := 0%float; DailyCost := 0%float;
                 ErrorCount := 0; LastError := "" |}
        end in
      updateLastUsed provider keyName ;;
      ret {| SelProvider := provider; SelKeyName := keyName; SelKey := keyValue;
             SelRateLimit := RateLimit selectedKey;
             SelCostLimit := CostLimit selectedKey;
             SelUsageCount := auth.UsageCount usage;
             SelLastUsed := auth.LastUsed usage;
             SelStrategy := RotationRoundRobin |}
    end.

Definition GetNextKey `{CryptoLib} `{LoopVar} (provider : string) : M KeySelection :=
  let* kr := get_rotator in
  let* providerConfig := wrapping "provider not found" (lift (GetProvider (config kr) provider)) in
  let enabledKeys := GetEnabledKeys providerConfig in
  if len enabledKeys =? 0 then fail (ErrNoEnabledKeys provider)
  else
    let* sel :=
      wrapping "key selection failed"
        match Strategy (Rotation providerConfig) with
        | RotationRoundRobin => selectRoundRobin provider enabledKeys
        | RotationLeastUsed => selectLeastUsed provider enabledKeys
        | RotationCostOptimized => selectCostOptimized provider enabledKeys
        | RotationRandom => selectRandom enabledKeys
        | RotationSingle => selectSingle enabledKeys
        | RotationOther _ => selectRoundRobin provider enabledKeys
        end in
    match sel with
    | (None, _) => fail (ErrNoSuitableKey provider)
    | (Some selectedKey, keyName) =>
      let proceed : M KeySelection :=
        let* keyValue := wrapping "failed to retrieve key" (GetKey provider keyName) in
        let* r := attempt (GetUsage provider keyName) in
        let* usage :=
          match r with
          | inr usage => ret usage
          | inl _ =>
            let* now := Now in
            ret {| auth.LastUsed := now; auth.UsageCount := 0; TokensUsed := 0;
                   auth.CostUsed := 0%float; DailyCost := 0%float;
                   ErrorCount := 0; LastError := "" |}
          end in
        updateLastUsed provider keyName ;;
        ret {| SelProvider := provider; SelKeyName := keyName; SelKey := keyValue;
               SelRateLimit := RateLimit selectedKey;
               SelCostLimit := CostLimit selectedKey;
               SelUsageCount := auth.UsageCount usage;
               SelLastUsed := auth.LastUsed usage;
               SelStrategy := Strategy (Rotation providerConfig) |} in
      if HealthCheck (Rotation providerConfig)
      then
        let* healthy := wrapping "health check failed" (IsHealthy provider keyName) in
        if negb healthy
        then
          if FallbackEnabled (Rotation providerConfig) && (1 <? len enabledKeys)
          then getFallbackKey provider keyName enabledKeys
          else fail (ErrUnhealthyNoFallback keyName)
        else proceed
      else proceed
    end.

Definition RotatorRecordUsage (provider keyName : string) (tokens : Z) (cost : float) : M unit :=
  UpdateUsage provider keyName tokens cost.

Definition NewKeyRotator (cfg : Config) (seed : nat -> Z) : KeyRotator :=
  {| config := cfg; lastUsed := ∅; rotationIdx := ∅; rand_src := seed; rand_pos := 0 |}.


(** *** keystore.go: listing the keys and filling the store from the
    configuration *)

Definition ListKeys `{MapRange} (provider : string) : M (list string) :=
  let* m := get_store in
  match keys m !! provider with
  | None => ret []
  | Some providerKeys => ret ((range providerKeys).*1)
  end.

(** The inner loop of [NewKeyStoreFromConfig]. *)
Fixpoint storeKeys `{CryptoLib} (providerName : string) (apiKeys : list config.APIKey)
  : M unit :=
  match apiKeys with
  | [] => ret tt
  | apiKey :: rest =>
    wrapping ("failed to store key " ++ config.Name apiKey ++
              " for provider " ++ providerName)
      (StoreKey providerName (config.Name apiKey) (config.Key apiKey)) ;;
    storeKeys providerName rest
  end.

(** The outer loop, over the providers in the order the range visits them. *)
Fixpoint storeProviders `{CryptoLib} (providers : list (string * config.ProviderConfig))
  : M unit :=
  match providers with
  | [] => ret tt
  | (providerName, provider) :: rest =>
    storeKeys providerName (config.APIKeys provider) ;;
    storeProviders rest
  end.

Definition default_encryption_key : string :=
  "default-encryption-key-change-in-production".

(** [encryptKeys] is [cfg.Global.EncryptKeys]; the store the function
    returns is the store of the world after it has run. *)
Definition NewKeyStoreFromConfig `{CryptoLib} `{MapRange}
    (cfg : config.Config) (encryptKeys : bool) : M unit :=
  let encryptionKey := if encryptKeys then default_encryption_key else "" in
  put_store (NewMemoryKeyStore encryptionKey) ;;
  storeProviders (range (config.Providers cfg)).


(** *** The rotator's statistics and status *)

(** [KeyRotator.RecordError]: the key store is the memory store. *)
Definition RotatorRecordError (provider keyName errorMsg : string) : M unit :=
  RecordError provider keyName errorMsg.

(** The loop of [GetKeyStatistics]; a name whose usage cannot be read is
    skipped. *)
Fixpoint keyStatisticsLoop (provider : string) (keyNames : list string)
    (stats : gmap string KeyUsage) : M (gmap string KeyUsage) :=
  match keyNames with
  | [] => ret stats
  | keyName :: rest =>
    let* r := attempt (GetUsage provider keyName) in
    match r with
    | inl _ => keyStatisticsLoop provider rest stats
    | inr usage => keyStatisticsLoop provider rest (<[keyName := usage]> stats)
    end
  end.

Definition GetKeyStatistics `{MapRange} (provider : string) : M (gmap string KeyUsage) :=
  let* keyNames := ListKeys provider in
  keyStatisticsLoop provider keyNames ∅.

Record KeyStats : Type := {
  StatName : string;
  StatHealthy : bool;
  StatUsage : KeyUsage;
  StatLastUsed : Z
}.

Record ProviderStats : Type := {
  Provider : string;
  TotalKeys : Z;
  HealthyKeys : Z;
  TotalCost : float;
  TotalTokens : Z;
  TotalRequests : Z;
  PerKeyStats : gmap string KeyStats
}.

(** The loop of [GetProviderStatistics] over the entries of [keyStats];
    the error of [IsHealthy] is dropped and its [false] kept. *)
Fixpoint providerStatisticsLoop (provider : string) (entries : list (string * KeyUsage))
    (stats : ProviderStats) : M ProviderStats :=
  match entries with
  | [] => ret stats
  | (keyName, usage) :: rest =>
    let* r := attempt (IsHealthy provider keyName) in
    let healthy := match r with inr healthy => healthy | inl _ => false end in
    providerStatisticsLoop provider rest
      {| Provider := Provider stats;
         TotalKeys := TotalKeys stats;
         HealthyKeys := if healthy then wrap64 (HealthyKeys stats + 1)
                        else HealthyKeys stats;
         TotalCost := (TotalCost stats + auth.CostUsed usage)%float;
         TotalTokens := wrap64 (TotalTokens stats + TokensUsed usage);
         TotalRequests := wrap64 (TotalRequests stats + auth.UsageCount usage);
         PerKeyStats :=
           <[keyName := {| StatName := keyName; StatHealthy := healthy;
                           StatUsage := usage;
                           StatLastUsed := auth.LastUsed usage |}]>
             (PerKeyStats stats) |}
  end.

Definition GetProviderStatistics `{MapRange} (provider : string) : M ProviderStats :=
  let* keyStats := GetKeyStatistics provider in
  providerStatisticsLoop provider (range keyStats)
    {| Provider := provider;
       TotalKeys := Z.of_nat (size keyStats);
       HealthyKeys := 0;
       TotalCost := 0%float;
       TotalTokens := 0;
       TotalRequests := 0;
       PerKeyStats := ∅ |}.

Record RotationStatus : Type := {
  StatusProvider : string;
  StatusStrategy : RotationStrategy;
  CurrentIndex : Z;
  AvailableKeys : list string;
  LastRotation : Z
}.

(** The zero [time.Time], 1 January of year 1, and [time.Time.After]. *)
Definition zero_time : Z := -62135596800.

Definition After (t u : Z) : bool := u <? t.

Definition GetRotationStatus `{MapRange} (provider : string) : M RotationStatus :=
  let* kr := get_rotator in
  let* providerConfig := lift (GetProvider (config kr) provider) in
  let* keyNames := ListKeys provider in
  let currentIndex := default 0 (rotationIdx kr !! provider) in
  let lastRotation :=
    match lastUsed kr !! provider with
    | Some providerLastUsed =>
      foldl (fun last entry => if After entry.2 last then entry.2 else last)
            zero_time (range providerLastUsed)
    | None => zero_time
    end in
  ret {| StatusProvider := provider;
         StatusStrategy := Strategy (Rotation providerConfig);
         CurrentIndex := currentIndex;
         AvailableKeys := keyNames;
         LastRotation := lastRotation |}.

(** *** validator.go: the health checker's report *)

(** The inner loop of [GetHealthStatus]: [status[provider][keyName]] is
    [false] when [IsHealthy] fails. *)
Fixpoint healthStatusKeys (provider : string) (keyNames : list string)
    (status : gmap string (gmap string bool)) : M (gmap string (gmap string bool)) :=
  match keyNames with
  | [] => ret status
  | keyName :: rest =>
    let* r := attempt (IsHealthy provider keyName) in
    let healthy := match r with inr healthy => healthy | inl _ => false end in
    match assign status provider keyName healthy with
    | None => panic nil_map_panic
    | Some status' => healthStatusKeys provider rest status'
    end
  end.

Fixpoint healthStatusProviders (providers : list (string * list string))
    (status : gmap string (gmap string bool)) : M (gmap string (gmap string bool)) :=
  match providers with
  | [] => ret status
  | (provider, keyNames) :: rest =>
    let* status' := healthStatusKeys provider keyNames (<[provider := ∅]> status) in
    healthStatusProviders rest status'
  end.

Definition GetHealthStatus `{MapRange} (providers : gmap string (list string))
  : M (gmap string (gmap string bool)) :=
  healthStatusProviders (range providers) ∅.

End auth.

(** ** Package providers

    The part of [provider.go] that runs before a request leaves the
    process: defaults, the merge of the request options with the
    configuration, the model check and the key selection.  The three
    functions that perform the HTTP exchange are parameters.  The [float32]
    fields of [RequestOptions] hold the binary64 float of the same value:
    the code copies them and compares them with zero. *)

Module providers.

Import auth.

Definition ProviderType : Type := string.

Definition OpenAI : ProviderType := "openai".
Definition Anthropic : ProviderType := "anthropic".
Definition Gemini : ProviderType := "gemini".

Record Message : Type := {
  Role : string;
  Content : string
}.

Record RequestOptions : Type := {
  Provider : ProviderType;
  Model : string;
  MaxTokens : Z;
  Temperature : float;
  TopP : float;
  Stop : list string;
  Stream : bool
}.

(** The errors of the provider layer, one per message; [cause] is the
    error that the message wraps or prints. *)
Inductive provider_error : Type :=
  | ErrModelNameEmpty
  | ErrProviderNotConfigured (provider : ProviderType)
  | ErrInvalidModel (model : string)
  | ErrKeyRotation (cause : error)
  | ErrInvalidConfig (cause : error)
  | ErrUnsupportedProvider (provider : ProviderType)
  | ErrRequest (message : string).

Inductive reply (A : Type) : Type :=
  | Done (a : A)
  | Failed (e : provider_error)
  | Panicked (reason : string).

Arguments Done {A} a.
Arguments Failed {A} e.
Arguments Panicked {A} reason.

(** [float32(0.7)]. *)
Definition temperature_0_7 : float := 0x1.666666p-1%float.

Definition DefaultOptions (provider : ProviderType) : RequestOptions :=
  if String.eqb provider OpenAI then
    {| Provider := OpenAI; Model := "gpt-3.5-turbo"; MaxTokens := 2000;
       Temperature := temperature_0_7; TopP := 0%float; Stop := []; Stream := false |}
  else if String.eqb provider Anthropic then
    {| Provider := Anthropic; Model := "claude-3-sonnet-20240229"; MaxTokens := 4000;
       Temperature := temperature_0_7; TopP := 0%float; Stop := []; Stream := false |}
  else if String.eqb provider Gemini then
    {| Provider := Gemini; Model := "gemini-2.0-flash"; MaxTokens := 2000;
       Temperature := temperature_0_7; TopP := 0%float; Stop := []; Stream := false |}
  else
    {| Provider := OpenAI; Model := "gpt-3.5-turbo"; MaxTokens := 2000;
       Temperature := temperature_0_7; TopP := 0%float; Stop := []; Stream := false |}.

Section BaseProvider.

(** [p.config], with the model lists of its providers. *)
Variable cfg : config.Config.
Variable Models : string -> list config.ModelConfig.

Definition validateModel (provider : ProviderType) (model : string) : reply unit :=
  if String.eqb model "" then Failed ErrModelNameEmpty
  else
    match config.GetProvider cfg provider with
    | Ok providerCfg =>
      match config.GetModelByName (Models provider) model with
      | None => Failed (ErrInvalidModel model)
      | Some _ => Done tt
      end
    | Err _ => Failed (ErrProviderNotConfigured provider)
    | Panic reason => Panicked reason
    end.

Definition getNextKey `{CryptoLib} `{LoopVar} (provider : ProviderType)
  : World -> reply KeySelection * World :=
  fun w =>
    match GetNextKey provider w with
    | (Ok key, w') => (Done key, w')
    | (Err err, w') => (Failed (ErrKeyRotation err), w')
    | (Panic reason, w') => (Panicked reason, w')
    end.

(** [result.Model = v] and the three other assignments of the merge. *)
Definition withModel (result : RequestOptions) (v : string) : RequestOptions :=
  {| Provider := Provider result; Model := v; MaxTokens := MaxTokens result;
     Temperature := Temperature result; TopP := TopP result; Stop := Stop result;
     Stream := Stream result |}.

Definition withMaxTokens (result : RequestOptions) (v : Z) : RequestOptions :=
  {| Provider := Provider result; Model := Model result; MaxTokens := v;
     Temperature := Temperature result; TopP := TopP result; Stop := Stop result;
     Stream := Stream result |}.

Definition withTemperature (result : RequestOptions) (v : float) : RequestOptions :=
  {| Provider := Provider result; Model := Model result; MaxTokens := MaxTokens result;
     Temperature := v; TopP := TopP result; Stop := Stop result;
     Stream := Stream result |}.

Definition withTopP (result : RequestOptions) (v : float) : RequestOptions :=
  {| Provider := Provider result; Model := Model result; MaxTokens := MaxTokens result;
     Temperature := Temperature result; TopP := v; Stop := Stop result;
     Stream := Stream result |}.

(** [if result.Model == "" { result.Model = v }], and the same statement
    for the three other fields. *)
Definition unsetModel (v : string) (result : RequestOptions) : RequestOptions :=
  if String.eqb (Model result) "" then withModel result v else result.

Definition unsetMaxTokens (v : Z) (result : RequestOptions) : RequestOptions :=
  if MaxTokens result =? 0 then withMaxTokens result v else result.

Definition unsetTemperature (v : float) (result : RequestOptions) : RequestOptions :=
  if PrimFloat.eqb (Temperature result) 0 then withTemperature result v else result.

Definition unsetTopP (v : float) (result : RequestOptions) : RequestOptions :=
  if PrimFloat.eqb (TopP result) 0 then withTopP result v else result.

Definition mergeOptions (provider : ProviderType) (opts : RequestOptions)
  : reply RequestOptions :=
  match config.GetProvider cfg provider with
  | Err err => Failed (ErrInvalidConfig err)
  | Panic reason => Panicked reason
  | Ok providerCfg =>
    let result := {| Provider := provider; Model := Model opts;
                     MaxTokens := MaxTokens opts; Temperature := Temperature opts;
                     TopP := TopP opts; Stop := Stop opts; Stream := Stream opts |} in
    let modelCfg : option config.ModelConfig :=
      (* the assignment [result.Model = opts.Model] of the source, made when
         the model is not found, writes the value the field already has *)
      if negb (String.eqb (Model opts) "")
      then config.GetModelByName (Models provider) (Model opts)
      else None in
    let modelCfg :=
      if bool_decide (modelCfg = None) && String.eqb (Model opts) ""
      then match config.GetEnabledModels (Models provider) with
           | first :: _ => Some first
           | [] => modelCfg
           end
      else modelCfg in
    let result :=
      match modelCfg with
      | Some modelCfg =>
        unsetMaxTokens (config.MaxTokens modelCfg)
          (unsetModel (config.ModelName modelCfg) result)
      | None => result
      end in
    let defaults := DefaultOptions provider in
    Done (unsetTopP (TopP defaults)
           (unsetTemperature (Temperature defaults)
             (unsetMaxTokens (MaxTokens defaults)
               (unsetModel (Model defaults) result))))
  end.

(** The exchange with the provider's HTTP interface, which also records
    usage and errors in the ledger. *)
Class Transport : Type := {
  CompletionResponse : Type;
  callOpenAI : list Message -> RequestOptions -> KeySelection ->
               World -> reply CompletionResponse * World;
  callAnthropic : list Message -> RequestOptions -> KeySelection ->
                  World -> reply CompletionResponse * World;
  callGemini : list Message -> RequestOptions -> KeySelection ->
               World -> reply CompletionResponse * World
}.

Definition Chat `{CryptoLib} `{LoopVar} `{Transport} (messages : list Message) (opts : RequestOptions)
  : World -> reply CompletionResponse * World :=
  fun w =>
    let opts :=
      if String.eqb (Provider opts) ""
      then {| Provider := OpenAI; Model := Model opts; MaxTokens := MaxTokens opts;
              Temperature := Temperature opts; TopP := TopP opts; Stop := Stop opts;
              Stream := Stream opts |}
      else opts in
    match mergeOptions (Provider opts) opts with
    | Failed err => (Failed err, w)
    | Panicked reason => (Panicked reason, w)
    | Done opts =>
      match validateModel (Provider opts) (Model opts) with
      | Failed err => (Failed err, w)
      | Panicked reason => (Panicked reason, w)
      | Done _ =>
        match getNextKey (Provider opts) w with
        | (Failed err, w') => (Failed err, w')
        | (Panicked reason, w') => (Panicked reason, w')
        | (Done key, w') =>
          if String.eqb (Provider opts) OpenAI then callOpenAI messages opts key w'
          else if String.eqb (Provider opts) Anthropic then callAnthropic messages opts key w'
          else if String.eqb (Provider opts) Gemini then callGemini messages opts key w'
          else (Failed (ErrUnsupportedProvider (Provider opts)), w')
        end
      end
    end.

Definition Invoke `{CryptoLib} `{LoopVar} `{Transport} (prompt : string) (opts : RequestOptions)
  : World -> reply CompletionResponse * World :=
  let opts :=
    if String.eqb (Provider opts) ""
    then {| Provider := OpenAI; Model := Model opts; MaxTokens := MaxTokens opts;
            Temperature := Temperature opts; TopP := TopP opts; Stop := Stop opts;
            Stream := Stream opts |}
    else opts in
  let messages := [{| Role := "user"; Content := prompt |}] in
  Chat messages opts.

End BaseProvider.

End providers.

(** ** Vocabulary of the statements *)

Import auth.
Local Open Scope go_scope.

(** The ledger entries of a credential, as the store holds them. *)
Definition usage_of (m : MemoryKeyStore) (provider keyName : string) : option KeyUsage :=
  usage m !! provider ≫= (.!! keyName).

Definition health_of (m : MemoryKeyStore) (provider keyName : string) : option bool :=
  health m !! provider ≫= (.!! keyName).

Definition secret_of (m : MemoryKeyStore) (provider keyName : string) : option string :=
  keys m !! provider ≫= (.!! keyName).

(** The world after [m] has run, and the outcome of [m]. *)
Definition after {A} (m : M A) (w : World) : World := snd (m w).
Definition outcome {A} (m : M A) (w : World) : result A := fst (m w).

(** [m] leaves the key store as it found it, whatever its outcome. *)
Definition preserves_store {A} (m : M A) : Prop :=
  forall w, store (after m w) = store w.

(** [m] is a read: it returns without touching the world. *)
Definition pure_read {A} (m : M A) : Prop :=
  forall w, after m w = w.

(** The strategy switch of [GetNextKey]. *)
Definition select_with `{CryptoLib} `{LoopVar} (s : config.RotationStrategy) (provider : string)
    (ks : list config.APIKey) : M (option config.APIKey * string) :=
  match s with
  | config.RotationRoundRobin => selectRoundRobin provider ks
  | config.RotationLeastUsed => selectLeastUsed provider ks
  | config.RotationCostOptimized => selectCostOptimized provider ks
  | config.RotationRandom => selectRandom ks
  | config.RotationSingle => selectSingle ks
  | config.RotationOther _ => selectRoundRobin provider ks
  end.

(** What [GetKey] reads, as a function of the store. *)
Definition read_key `{CryptoLib} (m : MemoryKeyStore) (provider keyName : string)
  : result string :=
  match keys m !! provider with
  | None => Err (ErrProviderNotFound provider)
  | Some providerKeys =>
    match providerKeys !! keyName with
    | None => Err (ErrKeyNotFound keyName provider)
    | Some encryptedKey =>
      match encryptor m with
      | Some e => Decrypt e encryptedKey
      | None => Ok encryptedKey
      end
    end
  end.

(** The cursor of a provider: an absent entry reads as 0. *)
Definition cursor (w : World) (provider : string) : Z :=
  default 0 (rotationIdx (rotator w) !! provider).

(** Store, cursors and configuration agree in both worlds: what the
    bookkeeping at the end of a selection leaves alone. *)
Definition steady (w w' : World) : Prop :=
  store w' = store w /\
  rotationIdx (rotator w') = rotationIdx (rotator w) /\
  config (rotator w') = config (rotator w).

(** [calls n provider]: [n] consecutive calls of [GetNextKey], with their
    outcomes in call order. *)
Fixpoint calls `{CryptoLib} `{LoopVar} (n : nat) (provider : string) (w : World)
  : list (result KeySelection) * World :=
  match n with
  | O => ([], w)
  | S n' =>
    let (r, w1) := GetNextKey provider w in
    let (rs, w2) := calls n' provider w1 in
    (r :: rs, w2)
  end.

(** The credential name an outcome carries, if it is a selection. *)
Definition selected_name (r : result KeySelection) : option string :=
  match r with
  | Ok sel => Some (SelKeyName sel)
  | _ => None
  end.

(** What a provider needs for every round-robin call to go through:
    the cursor designates a candidate, the candidates pass the health check
    and their secrets can be read. *)
Definition rr_ready `{CryptoLib} (provider : string) (pc : config.ProviderConfig)
    (w : World) : Prop :=
  config.Providers (config (rotator w)) !! provider = Some pc /\
  config.Strategy (config.Rotation pc) = config.RotationRoundRobin /\
  config.GetEnabledKeys pc <> [] /\
  len (config.GetEnabledKeys pc) <= MaxInt64 /\
  0 <= cursor w provider < len (config.GetEnabledKeys pc) /\
  (config.HealthCheck (config.Rotation pc) = false \/
   forall k, k ∈ config.GetEnabledKeys pc ->
     health_of (store w) provider (config.Name k) = Some true) /\
  (forall k, k ∈ config.GetEnabledKeys pc ->
     exists v, read_key (store w) provider (config.Name k) = Ok v).

(** The candidate that is [j] places after position [c], cyclically. *)
Definition pick {A} (l : list A) (c : Z) (j : nat) : option A :=
  l !! Z.to_nat ((c + Z.of_nat j) mod len l).

(** The world after [RecordError] was called once for each message, in order. *)
Definition after_errors (provider keyName : string) (messages : list string) (w : World)
  : World :=
  foldl (fun w message => after (RecordError provider keyName message) w) w messages.

(** *** Sequences of store and delete operations *)

Inductive StoreOp : Type :=
  | OpStore (provider keyName key : string)
  | OpDelete (provider keyName : string).

Definition run_op `{CryptoLib} (op : StoreOp) : M unit :=
  match op with
  | OpStore provider keyName key => StoreKey provider keyName key
  | OpDelete provider keyName => DeleteKey provider keyName
  end.

Definition run_ops `{CryptoLib} (ops : list StoreOp) (w : World) : World :=
  foldl (fun w op => after (run_op op) w) w ops.

(** The credential names under which a two-level map holds entries for a
    provider; [None] when the provider has no inner map. *)
Definition names {V} (outer : gmap string (gmap string V)) (provider : string)
  : option (gset string) :=
  dom <$> (outer !! provider).

(** Key map, usage map and health map are keyed alike. *)
Definition aligned (m : MemoryKeyStore) : Prop :=
  forall provider,
    names (keys m) provider = names (usage m) provider /\
    names (usage m) provider = names (health m) provider.

(** The first statement of [StoreKey]: the three inner maps are created
    together when the provider has no key map yet. *)
Definition ensure (provider : string) (m : MemoryKeyStore) : MemoryKeyStore :=
  if keys m !! provider is None
  then {| keys := <[provider := ∅]> (keys m);
          usage := <[provider := ∅]> (usage m);
          health := <[provider := ∅]> (health m);
          encryptor := encryptor m |}
  else m.

(** A usage record with every counter at zero, last used at [now]. *)
Definition zeroUsage (now : Z) : KeyUsage :=
  {| LastUsed := now; UsageCount := 0; TokensUsed := 0; CostUsed := 0%float;
     DailyCost := 0%float; ErrorCount := 0; LastError := "" |}.

(** The three assignments that end [StoreKey]. *)
Definition write_entries (provider keyName storedKey : string) : M unit :=
  let* m := get_store in
  match assign (keys m) provider keyName storedKey with
  | None => panic nil_map_panic
  | Some keys' =>
    put_store {| keys := keys'; usage := usage m; health := health m;
                 encryptor := encryptor m |} ;;
    let* now := Now in
    match assign (usage m) provider keyName (zeroUsage now) with
    | None => panic nil_map_panic
    | Some usage' =>
      put_store {| keys := keys'; usage := usage'; health := health m;
                   encryptor := encryptor m |} ;;
      match assign (health m) provider keyName true with
      | None => panic nil_map_panic
      | Some health' =>
        put_store {| keys := keys'; usage := usage'; health := health';
                     encryptor := encryptor m |}
      end
    end
  end.

(** *** LeastUsed: the order on (request count, last used) *)

(** [(m, o)] is no later than [(c, l)] in the order the scan minimises:
    fewer requests first, the older last use on equal counts. *)
Definition lexle (m o c l : Z) : Prop := m < c \/ (m = c /\ o <= l).

(** *** The pointer to the loop variable *)

(** What [bestKey] designates at the end of an iteration, when it was taken
    for the candidate [best] and the loop variable holds [scanned]: [best]
    itself when every iteration has its own variable, the candidate scanned
    last when the iterations share one. *)
Definition pointee `{LoopVar} (scanned best : option config.APIKey)
  : option config.APIKey :=
  if per_iteration then best else best ≫= (fun _ => scanned).

(** The candidate the loop variable holds after a scan of [ks] that ran to
    the end of the list. *)
Definition scanned_after (scanned : option config.APIKey) (ks : list config.APIKey)
  : option config.APIKey :=
  match last ks with
  | Some k => Some k
  | None => scanned
  end.

(** The strategies that scan the candidates with [bestKey = &key]. *)
Definition scans (s : config.RotationStrategy) : bool :=
  match s with
  | config.RotationLeastUsed | config.RotationCostOptimized => true
  | _ => false
  end.


(** [m] does not read the time. *)
Definition keeps_time {A} (m : M A) : Prop :=
  forall w, clock (after m w) = clock w /\ ticks (after m w) = ticks w.

(** The accumulators of the LeastUsed scan describe the best candidate
    among those satisfying [S]. *)
Definition best_so_far (m : MemoryKeyStore) (provider : string)
    (S : config.APIKey -> Prop)
    (bestKey : option config.APIKey) (bestKeyName : string)
    (minUsage oldestLastUsed : Z) : Prop :=
  match bestKey with
  | None => minUsage = -1 /\ forall k, ~ S k
  | Some best =>
    bestKeyName = config.Name best /\ S best /\
    exists ub, usage_of m provider (config.Name best) = Some ub /\
               UsageCount ub = minUsage /\ LastUsed ub = oldestLastUsed /\
               0 <= minUsage /\
               forall k u, S k -> usage_of m provider (config.Name k) = Some u ->
                           lexle minUsage oldestLastUsed (UsageCount u) (LastUsed u)
  end.

(** *** Candidate resolution *)

(** [m] never fails with the error [e]. *)
Definition avoids {A} (e : error) (m : M A) : Prop :=
  forall w, outcome m w <> Err e.

(** The candidate list in the words of the specification: enabled, and the
    daily cost recorded in the ledger not at or over a positive cost limit. *)
Definition ledger_over_limit (m : MemoryKeyStore) (provider : string)
    (k : config.APIKey) : bool :=
  match usage_of m provider (config.Name k) with
  | Some u => PrimFloat.ltb 0 (config.CostLimit k) &&
              PrimFloat.leb (config.CostLimit k) (DailyCost u)
  | None => false
  end.

Definition ledger_candidates (m : MemoryKeyStore) (provider : string)
    (pc : config.ProviderConfig) : list config.APIKey :=
  List.filter (fun k => config.Enabled k && negb (ledger_over_limit m provider k))
              (config.APIKeys pc).

(** *** CostOptimized: the budget test of the scan *)

(** The candidate's recorded daily cost is under its cost limit, or the
    candidate has no limit. *)
Definition within_budget (k : config.APIKey) (u : KeyUsage) : bool :=
  PrimFloat.leb (config.CostLimit k) 0 || PrimFloat.ltb (DailyCost u) (config.CostLimit k).

(** *** The end of a selection *)

(** What [GetNextKey] and [getFallbackKey] both do once a credential is
    chosen: read the secret, take the usage snapshot, stamp the rotator's
    last-used map and build the selection.  [context] is the text the
    error of [GetKey] is wrapped in. *)
Definition finish_selection `{CryptoLib} (context provider keyName : string)
    (selectedKey : config.APIKey) (strategy : config.RotationStrategy) : M KeySelection :=
  let* keyValue := wrapping context (GetKey provider keyName) in
  let* r := attempt (GetUsage provider keyName) in
  let* usage :=
    match r with
    | inr usage => ret usage
    | inl _ =>
      let* now := Now in
      ret {| LastUsed := now; UsageCount := 0; TokensUsed := 0;
             CostUsed := 0%float; DailyCost := 0%float;
             ErrorCount := 0; LastError := "" |}
    end in
  updateLastUsed provider keyName ;;
  ret {| SelProvider := provider; SelKeyName := keyName; SelKey := keyValue;
         SelRateLimit := config.RateLimit selectedKey;
         SelCostLimit := config.CostLimit selectedKey;
         SelUsageCount := UsageCount usage;
         SelLastUsed := LastUsed usage;
         SelStrategy := strategy |}.

(** The candidates that survive the filter of [getFallbackKey]: another
    name than the excluded one, and a health flag that reads true. *)
Definition survivors (m : MemoryKeyStore) (provider excludeKey : string)
    (ks : list config.APIKey) : list config.APIKey :=
  List.filter
    (fun k => negb (String.eqb (config.Name k) excludeKey) &&
              bool_decide (health_of m provider (config.Name k) = Some true))
    ks.

(** *** Missing credentials *)

(** The error of a lookup that found no entry for the credential: the
    provider is unknown, or the provider is known and the name is not. *)
Definition not_found {V} (outer : gmap string (gmap string V)) (provider keyName : string)
  : error :=
  if outer !! provider is None
  then ErrProviderNotFound provider
  else ErrKeyNotFound keyName provider.

(** *** Entries of the store *)

(** A credential the store holds as the configuration has it: its secret
    reads back, its usage record is zeroed and its health flag is true. *)
Definition fresh_entry `{CryptoLib} (m : MemoryKeyStore) (provider : string) (k : config.APIKey) : Prop :=
  read_key m provider (config.Name k) = Ok (config.Key k) /\
  health_of m provider (config.Name k) = Some true /\
  exists now, usage_of m provider (config.Name k) = Some (zeroUsage now).

(** The entries of [(p', k')] are the same in both stores. *)
Definition same_entries (m m' : MemoryKeyStore) (p' k' : string) : Prop :=
  secret_of m' p' k' = secret_of m p' k' /\
  usage_of m' p' k' = usage_of m p' k' /\
  health_of m' p' k' = health_of m p' k'.

(** *** Totals over a usage map *)

(** The sum of [f] over the records of [stats], and the number of its
    names whose health flag reads true. *)
Definition total (f : KeyUsage -> Z) (stats : gmap string KeyUsage) : Z :=
  foldr (fun entry acc => f entry.2 + acc) 0 (map_to_list stats).

Definition healthy_in (m : MemoryKeyStore) (provider : string) (keyName : string) : bool :=
  bool_decide (health_of m provider keyName = Some true).

Definition healthy_count (m : MemoryKeyStore) (provider : string)
    (stats : gmap string KeyUsage) : nat :=
  length (List.filter (fun entry => healthy_in m provider entry.1) (map_to_list stats)).

(** *** Well-formed configurations *)

(** What [validateConfig] asks of a provider: no credential with an empty
    key or name, no model without a name, at least one credential and one
    model enabled. *)
Definition well_formed_provider (pc : config.ProviderConfig)
    (models : list config.ModelConfig) : Prop :=
  (forall k, k ∈ config.APIKeys pc -> config.Key k <> "" /\ config.Name k <> "") /\
  (exists k, k ∈ config.APIKeys pc /\ config.Enabled k = true) /\
  (forall m, m ∈ models -> config.ModelName m <> "") /\
  (exists m, m ∈ models /\ config.ModelEnabled m = true).

(** The lists are slices: their lengths fit an [int]. *)
Definition slices_fit (Models : string -> list config.ModelConfig) (cfg : config.Config)
  : Prop :=
  forall p pc, config.Providers cfg !! p = Some pc ->
    len (config.APIKeys pc) <= MaxInt64 /\ len (Models p) <= MaxInt64.

(** The name of the environment variable that overrides a credential. *)
Definition env_name (providerName keyName : string) : string :=
  "GOLLM_" ++ providerName ++ "_API_KEY_" ++ keyName.

(** *** Requests *)

(** The provider a request is made to: OpenAI when the request names
    none. *)
Definition target (opts : providers.RequestOptions) : string :=
  if String.eqb (providers.Provider opts) "" then providers.OpenAI
  else providers.Provider opts.

(** ** Concrete data

    A provider with two credentials, a store filled from it, and a stand-in
    for the cryptographic library, used to evaluate the embedding on
    concrete inputs. *)

Module Demo.


(** A stand-in AEAD and encoding that satisfy [CryptoLaws]: the tag is a
    16-byte digest of plaintext, nonce and key, and the encoding is the
    identity on bytes. *)
Definition tag (g nonce plaintext : list byte) : list byte :=
  resize 16 x00 (rev plaintext ++ nonce ++ g).

#[export] Instance byte_eq_decision : EqDecision byte := Byte.byte_eq_dec.

Definition bytes_eqb (a b : list byte) : bool := bool_decide (a = b).

Definition toy_Open (g nonce sealed : list byte) : result (list byte) :=
  let n := (length sealed - 16)%nat in
  let plaintext := take n sealed in
  if bytes_eqb sealed (plaintext ++ tag g nonce plaintext)
  then Ok plaintext
  else Err ErrMessageAuthenticationFailed.

#[export] Instance toy : CryptoLib := {|
  Block := list byte;
  AEAD := list byte;
  sha256_Sum256 := fun data => resize 32 x00 data;
  aes_NewCipher := fun k =>
    if (length k =? 16)%nat || (length k =? 24)%nat || (length k =? 32)%nat
    then Ok k else Err ErrInvalidKeySize;
  cipher_NewGCM := fun b => Ok b;
  NonceSize := fun _ => 12%nat;
  Seal := fun g nonce plaintext => plaintext ++ tag g nonce plaintext;
  Open := toy_Open;
  base64_EncodeToString := String.string_of_list_byte;
  base64_DecodeString := fun s => Ok (String.list_byte_of_string s)
|}.

(** The two semantics of a loop variable.  The worlds below, and the
    statements evaluated on them, take the per-iteration one unless they
    say otherwise. *)
Definition shared_variable : LoopVar := {| per_iteration := false |}.

#[export] Instance own_variable : LoopVar := {| per_iteration := true |}.

Definition mkKey (name secret : string) (limit : float) : config.APIKey :=
  {| config.Key := secret; config.Name := name; config.RateLimit := 60;
     config.CostLimit := limit; config.Enabled := true;
     config.LastUsed := 0; config.UsageCount := 0; config.CostUsed := 0%float |}.

Definition keyA : config.APIKey := mkKey "A" "sk-a" 0%float.
Definition keyB : config.APIKey := mkKey "B" "sk-b" 0%float.

Definition provider (s : config.RotationStrategy) (healthCheck fallback : bool)
    (ks : list config.APIKey) : config.ProviderConfig :=
  {| config.APIKeys := ks;
     config.Rotation := {| config.Strategy := s; config.HealthCheck := healthCheck;
                           config.FallbackEnabled := fallback |} |}.

Definition cfg (pc : config.ProviderConfig) : config.Config :=
  {| config.Providers := <["openai" := pc]> ∅ |}.

(** 2024-01-01 12:00:00 UTC and 2024-01-02 12:00:00 UTC. *)
Definition jan1 : Z := 1704110400.
Definition jan2 : Z := 1704196800.

Definition world0 (pc : config.ProviderConfig) (clk : nat -> Z) : World :=
  {| store := NewMemoryKeyStore "";
     rotator := NewKeyRotator (cfg pc) (fun _ => 0);
     clock := clk; ticks := 0;
     entropy := fun _ => Some (replicate 12 x00); draws := 0 |}.

(** Both credentials stored, as [NewKeyStoreFromConfig] does. *)
Definition loaded (pc : config.ProviderConfig) (clk : nat -> Z) : World :=
  after (StoreKey "openai" "A" "sk-a" ;; StoreKey "openai" "B" "sk-b") (world0 pc clk).

(** Two enabled credentials, health checking and fallback on, the first
    credential marked unhealthy, the rotator fresh. *)
Definition primary_unhealthy (s : config.RotationStrategy) : World :=
  after (SetHealth "openai" "A" false)
        (loaded (provider s true true [keyA; keyB]) (fun _ => jan1)).

(** The clock reads 1 January for the first four readings (two stores, one
    usage update) and 2 January afterwards. *)
Definition rollover_clock (n : nat) : Z := if (n <? 4)%nat then jan1 else jan2.

(** Credential A used on 1 January at a cost of 10. *)
Definition used_yesterday : World :=
  after (UpdateUsage "openai" "A" 100 10%float)
        (loaded (provider config.RotationRoundRobin false false [keyA; keyB]) rollover_clock).

(** Only B is in the store, with a daily cost of 5; A has no usage record. *)
Definition only_B_recorded : World :=
  after (StoreKey "openai" "B" "sk-b" ;; UpdateUsage "openai" "B" 100 5%float)
        (world0 (provider config.RotationCostOptimized false false [keyA; keyB])
                (fun _ => jan1)).

(** One credential with a daily cost limit of 10 whose ledger shows a
    daily cost of 20. *)
Definition keyA10 : config.APIKey := mkKey "A" "sk-a" 10%float.

Definition over_budget_provider : config.ProviderConfig :=
  provider config.RotationSingle false false [keyA10].

Definition over_budget : World :=
  after (UpdateUsage "openai" "A" 100 20%float)
        (loaded over_budget_provider (fun _ => jan1)).

(** The same credential and ledger under the strategy [s]. *)
Definition over_budget_under (s : config.RotationStrategy) : World :=
  after (UpdateUsage "openai" "A" 100 20%float)
        (loaded (provider s false false [keyA10]) (fun _ => jan1)).

(** Credential A used three times and B once, as in the scenario of the
    specification. *)
Definition A3_B1 : World :=
  after (UpdateUsage "openai" "A" 10 1%float ;; UpdateUsage "openai" "A" 10 1%float ;;
         UpdateUsage "openai" "A" 10 1%float ;; UpdateUsage "openai" "B" 10 1%float)
        (loaded (provider config.RotationLeastUsed false false [keyA; keyB])
                (fun n => jan1 + Z.of_nat n)).

(** Health checking on, both credentials healthy. *)
Definition all_healthy : World :=
  loaded (provider config.RotationRoundRobin true false [keyA; keyB]) (fun _ => jan1).

(** A store with encryption configured. *)
Definition sealed_world : World :=
  {| store := NewMemoryKeyStore "passphrase";
     rotator := NewKeyRotator (cfg (provider config.RotationSingle false false [keyA]))
                              (fun _ => 0);
     clock := fun _ => jan1; ticks := 0;
     entropy := fun _ => Some (replicate 12 x00); draws := 0 |}.


(** A range that visits the entries in the order of their keys: one of the
    orders a Go range may take. *)
#[export] Instance by_key : MapRange := {| range := fun V m => map_to_list m |}.

(** The provider with two credentials and health checking that the worlds
    above are built on, and one enabled model for it. *)
Definition two_keys : config.ProviderConfig :=
  provider config.RotationRoundRobin true false [keyA; keyB].

Definition gpt35 : config.ModelConfig :=
  {| config.ModelName := "gpt-3.5-turbo"; config.InputCostPer1KTokens := 1%float;
     config.OutputCostPer1KTokens := 2%float; config.MaxTokens := 4096;
     config.ModelEnabled := true |}.

Definition models (p : string) : list config.ModelConfig :=
  if String.eqb p "openai" then [gpt35] else [].

(** The round-robin cursor left at 5 by an earlier, larger candidate list. *)
Definition stale_cursor : World :=
  after (set_rotationIdx "openai" 5) all_healthy.

(** Health checking on, no fallback, credential A marked unhealthy. *)
Definition A_unhealthy : World :=
  after (SetHealth "openai" "A" false) all_healthy.

(** Two credentials under the Single strategy. *)
Definition single_world : World :=
  loaded (provider config.RotationSingle false false [keyA; keyB]) (fun _ => jan1).

(** Six errors recorded against credential A. *)
Definition A_failing : World :=
  after_errors "openai" "A" (replicate 6 "timeout") all_healthy.

(** A transport that is offline, and a request that names a model but no
    provider. *)
Definition offline : providers.Transport :=
  {| providers.CompletionResponse := string;
     providers.callOpenAI := fun _ _ _ w => (providers.Failed (providers.ErrRequest "offline"), w);
     providers.callAnthropic := fun _ _ _ w => (providers.Failed (providers.ErrRequest "offline"), w);
     providers.callGemini := fun _ _ _ w => (providers.Failed (providers.ErrRequest "offline"), w) |}.

Definition ask : providers.RequestOptions :=
  {| providers.Provider := ""; providers.Model := "gpt-3.5-turbo";
     providers.MaxTokens := 0; providers.Temperature := 0%float;
     providers.TopP := 0%float; providers.Stop := []; providers.Stream := false |}.

(** The environment sets the key of credential A of provider openai. *)
Definition env (name : string) : string :=
  if String.eqb name "GOLLM_openai_API_KEY_A" then "sk-env" else "".


(** Credential A used once; the usage map of provider openai in that
    world; the world the rotator leaves after one selection; and the names
    a health report is asked for. *)
Definition used_once : World :=
  after (UpdateUsage "openai" "A" 100 1%float) all_healthy.

Definition used_once_stats : gmap string KeyUsage :=
  default ∅ (usage (store used_once) !! "openai").

Definition after_selection : World := after (GetNextKey "openai") all_healthy.

(** Credential B used once and A never: A is the least used and the
    cheapest, B the last candidate. *)
Definition B_used_once : World :=
  after (UpdateUsage "openai" "B" 100 1%float) all_healthy.


Definition asked : gmap string (list string) := <["openai" := ["A"; "C"]]> ∅.

End Demo.

(** ** The monad and the reads of the store *)

Section Frame.

Context `{CryptoLib} `{LoopVar}.

Lemma ps_ret {A} (a : A) : preserves_store (ret a).
Proof. done. Qed.

Lemma ps_fail {A} (e : error) : preserves_store (@fail A e).
Proof. done. Qed.

Lemma ps_panic {A} (r : string) : preserves_store (@panic A r).
Proof. done. Qed.

Lemma ps_lift {A} (r : result A) : preserves_store (lift r).
Proof. done. Qed.

Lemma ps_bind {A B} (m : M A) (k : A -> M B) :
  preserves_store m -> (forall a, preserves_store (k a)) -> preserves_store (bind m k).
Proof.
  intros Hm Hk w. unfold after, bind. specialize (Hm w). unfold after in Hm.
  destruct (m w) as [[a | e | r] w']; simpl in *; try done.
  rewrite <- Hm. apply Hk.
Qed.

Lemma ps_attempt {A} (m : M A) : preserves_store m -> preserves_store (attempt m).
Proof.
  intros Hm w. specialize (Hm w). unfold after, attempt in *.
  by destruct (m w) as [[a | e | r] w'].
Qed.

Lemma ps_wrapping {A} ctx (m : M A) : preserves_store m -> preserves_store (wrapping ctx m).
Proof.
  intros Hm w. specialize (Hm w). unfold after, wrapping in *.
  by destruct (m w) as [[a | e | r] w'].
Qed.

Lemma ps_get_store : preserves_store get_store.
Proof. done. Qed.

Lemma ps_get_rotator : preserves_store get_rotator.
Proof. done. Qed.

Lemma ps_put_rotator kr : preserves_store (put_rotator kr).
Proof. done. Qed.

Lemma ps_Now : preserves_store Now.
Proof. done. Qed.

Lemma ps_pure_read {A} (m : M A) : pure_read m -> preserves_store m.
Proof. intros Hm w. by rewrite Hm. Qed.

(** The three reads of the store, as functions of the store. *)
Lemma GetUsage_run provider keyName w :
  GetUsage provider keyName w =
    (match usage (store w) !! provider with
     | None => Err (ErrProviderNotFound provider)
     | Some providerUsage =>
       match providerUsage !! keyName with
       | None => Err (ErrKeyNotFound keyName provider)
       | Some u => Ok u
       end
     end, w).
Proof.
  unfold GetUsage, bind, get_store, fail, ret. simpl.
  destruct (usage (store w) !! provider) as [pu|]; [|done].
  destruct (pu !! keyName) as [[]|]; done.
Qed.

Lemma IsHealthy_run provider keyName w :
  IsHealthy provider keyName w =
    (match health (store w) !! provider with
     | None => Err (ErrProviderNotFound provider)
     | Some providerHealth =>
       match providerHealth !! keyName with
       | None => Err (ErrKeyNotFound keyName provider)
       | Some h => Ok h
       end
     end, w).
Proof.
  unfold IsHealthy, bind, get_store, fail, ret. simpl.
  destruct (health (store w) !! provider) as [ph|]; [|done].
  destruct (ph !! keyName); done.
Qed.

Lemma GetKey_pure provider keyName : pure_read (GetKey provider keyName).
Proof.
  intros w. unfold after, GetKey, bind, get_store, fail, ret, lift. simpl.
  destruct (keys (store w) !! provider) as [pk|]; [|done].
  destruct (pk !! keyName); [|done].
  destruct (encryptor (store w)); done.
Qed.

Lemma GetUsage_pure provider keyName : pure_read (GetUsage provider keyName).
Proof. intros w. unfold after. by rewrite GetUsage_run. Qed.

Lemma IsHealthy_pure provider keyName : pure_read (IsHealthy provider keyName).
Proof. intros w. unfold after. by rewrite IsHealthy_run. Qed.

Lemma ps_GetKey provider keyName : preserves_store (GetKey provider keyName).
Proof. apply ps_pure_read, GetKey_pure. Qed.

Lemma ps_GetUsage provider keyName : preserves_store (GetUsage provider keyName).
Proof. apply ps_pure_read, GetUsage_pure. Qed.

Lemma ps_IsHealthy provider keyName : preserves_store (IsHealthy provider keyName).
Proof. apply ps_pure_read, IsHealthy_pure. Qed.

(** The leaves of a method body: the monad's own operations and the reads
    of the store. *)
Ltac frame_leaf :=
  first [ apply ps_ret | apply ps_fail | apply ps_panic | apply ps_lift
        | apply ps_get_store | apply ps_get_rotator | apply ps_put_rotator
        | apply ps_Now | apply ps_GetKey | apply ps_GetUsage | apply ps_IsHealthy ].

(** One step through a method body: a bind, a branch, a leaf, or a call
    of a method whose frame lemma [callee] applies. *)
Ltac frame_step callee :=
  match goal with
  | |- preserves_store (bind _ _) => apply ps_bind; [| intros ?]
  | |- preserves_store (wrapping _ _) => apply ps_wrapping
  | |- preserves_store (attempt _) => apply ps_attempt
  | |- preserves_store (match ?x with _ => _ end) => destruct x
  | |- preserves_store (if ?b then _ else _) => destruct b
  | |- preserves_store _ => first [ frame_leaf | callee ]
  end.

Ltac frame_with callee := repeat (frame_step callee).

Ltac frame := frame_with fail.

Lemma ps_index {A} (l : list A) idx : preserves_store (index l idx).
Proof. unfold index. frame. Qed.

Lemma ps_set_rotationIdx provider idx : preserves_store (set_rotationIdx provider idx).
Proof. unfold set_rotationIdx. frame. Qed.

Lemma ps_selectRoundRobin provider ks : preserves_store (selectRoundRobin provider ks).
Proof.
  unfold selectRoundRobin.
  frame_with ltac:(first [apply ps_index | apply ps_set_rotationIdx]).
Qed.

Lemma ps_leastUsedLoop provider ks best name minUsage oldest :
  preserves_store (leastUsedLoop provider ks best name minUsage oldest).
Proof.
  revert best name minUsage oldest.
  induction ks as [|key rest IH]; intros; simpl; frame_with ltac:(apply IH).
Qed.

Lemma ps_costOptimizedLoop provider ks best name lowest :
  preserves_store (costOptimizedLoop provider ks best name lowest).
Proof.
  revert best name lowest.
  induction ks as [|key rest IH]; intros; simpl; frame_with ltac:(apply IH).
Qed.

Lemma ps_selectLeastUsed provider ks : preserves_store (selectLeastUsed provider ks).
Proof. unfold selectLeastUsed. frame_with ltac:(apply ps_leastUsedLoop). Qed.

Lemma ps_selectCostOptimized provider ks : preserves_store (selectCostOptimized provider ks).
Proof. unfold selectCostOptimized. frame_with ltac:(apply ps_costOptimizedLoop). Qed.

Lemma ps_Intn n : preserves_store (Intn n).
Proof. unfold Intn. frame. Qed.

Lemma ps_selectRandom ks : preserves_store (selectRandom ks).
Proof. unfold selectRandom. frame_with ltac:(first [apply ps_Intn | apply ps_index]). Qed.

Lemma ps_selectSingle ks : preserves_store (selectSingle ks).
Proof. unfold selectSingle. frame_with ltac:(apply ps_index). Qed.

Lemma ps_updateLastUsed provider keyName : preserves_store (updateLastUsed provider keyName).
Proof. unfold updateLastUsed. frame. Qed.

Lemma ps_fallbackKeys provider excludeKey ks :
  preserves_store (fallbackKeys provider excludeKey ks).
Proof. induction ks as [|key rest IH]; simpl; frame_with ltac:(apply IH). Qed.

Lemma ps_getFallbackKey provider excludeKey ks :
  preserves_store (getFallbackKey provider excludeKey ks).
Proof.
  unfold getFallbackKey.
  frame_with ltac:(first [ apply ps_fallbackKeys | apply ps_selectRoundRobin
                         | apply ps_updateLastUsed ]).
Qed.

Lemma ps_GetNextKey provider : preserves_store (GetNextKey provider).
Proof.
  unfold GetNextKey.
  frame_with ltac:(first [ apply ps_selectRoundRobin | apply ps_selectLeastUsed
                         | apply ps_selectCostOptimized | apply ps_selectRandom
                         | apply ps_selectSingle | apply ps_getFallbackKey
                         | apply ps_updateLastUsed ]).
Qed.

End Frame.

(** ** Running the rotator on a symbolic world *)

Section Run.

Context `{CryptoLib} `{LoopVar}.

Lemma GetKey_run provider keyName w :
  GetKey provider keyName w = (read_key (store w) provider keyName, w).
Proof.
  unfold GetKey, read_key, bind, get_store, fail, ret, lift. simpl.
  destruct (keys (store w) !! provider) as [pk|]; [|done].
  destruct (pk !! keyName); [|done].
  destruct (encryptor (store w)); done.
Qed.

Lemma bind_Ok {A B} (m : M A) (k : A -> M B) w a w1 :
  m w = (Ok a, w1) -> bind m k w = k a w1.
Proof. intros E. unfold bind. by rewrite E. Qed.

Lemma wrapping_Ok {A} ctx (m : M A) w a w1 :
  m w = (Ok a, w1) -> wrapping ctx m w = (Ok a, w1).
Proof. intros E. unfold wrapping. by rewrite E. Qed.

Lemma len_cons {A} (x : A) l : len (x :: l) = len l + 1.
Proof. unfold len. simpl length. lia. Qed.

Lemma len_nonneg {A} (l : list A) : 0 <= len l.
Proof. unfold len. lia. Qed.

Lemma len_zero {A} (l : list A) : (len l =? 0) = true <-> l = [].
Proof.
  unfold len. rewrite Z.eqb_eq. destruct l; simpl; split; try done; lia.
Qed.

Lemma wrap64_small z : - 2 ^ 63 <= z < 2 ^ 63 -> wrap64 z = z.
Proof. intros Hz. unfold wrap64. rewrite Z.mod_small; lia. Qed.

Lemma steady_refl w : steady w w.
Proof. done. Qed.

Lemma steady_trans w1 w2 w3 : steady w1 w2 -> steady w2 w3 -> steady w1 w3.
Proof. unfold steady. intros (-> & -> & ->) (-> & -> & ->). done. Qed.

Lemma attempt_GetUsage_run provider keyName w :
  exists r, attempt (GetUsage provider keyName) w = (Ok r, w).
Proof.
  unfold attempt. rewrite GetUsage_run.
  destruct (usage (store w) !! provider) as [pu|]; [|by eexists].
  destruct (pu !! keyName); by eexists.
Qed.

Lemma attempt_IsHealthy_run provider keyName w :
  attempt (IsHealthy provider keyName) w =
    (Ok (match health (store w) !! provider with
         | None => inl (ErrProviderNotFound provider)
         | Some providerHealth =>
           match providerHealth !! keyName with
           | None => inl (ErrKeyNotFound keyName provider)
           | Some h => inr h
           end
         end), w).
Proof.
  unfold attempt. rewrite IsHealthy_run.
  destruct (health (store w) !! provider) as [ph|]; [|done].
  destruct (ph !! keyName); done.
Qed.

Lemma updateLastUsed_run provider keyName w :
  exists w', updateLastUsed provider keyName w = (Ok tt, w') /\ steady w w'.
Proof. unfold updateLastUsed, bind, get_rotator, Now, put_rotator. simpl. by eexists. Qed.

Lemma health_of_IsHealthy provider keyName w h :
  health_of (store w) provider keyName = Some h ->
  IsHealthy provider keyName w = (Ok h, w).
Proof.
  unfold health_of. rewrite IsHealthy_run.
  destruct (health (store w) !! provider) as [ph|]; simpl; [|done].
  by intros ->.
Qed.

(** The part of [GetNextKey] after a healthy (or unchecked) selection:
    the secret is read, the usage snapshot taken, and only the rotator's
    last-used map and the clock move. *)
Lemma GetNextKey_selected provider w pc k w1 v :
  config.Providers (config (rotator w)) !! provider = Some pc ->
  config.GetEnabledKeys pc <> [] ->
  select_with (config.Strategy (config.Rotation pc)) provider (config.GetEnabledKeys pc) w
    = (Ok (Some k, config.Name k), w1) ->
  config.HealthCheck (config.Rotation pc) = false \/
    health_of (store w) provider (config.Name k) = Some true ->
  read_key (store w) provider (config.Name k) = Ok v ->
  exists sel w',
    GetNextKey provider w = (Ok sel, w') /\
    SelKeyName sel = config.Name k /\ SelKey sel = v /\
    SelRateLimit sel = config.RateLimit k /\ SelCostLimit sel = config.CostLimit k /\
    SelStrategy sel = config.Strategy (config.Rotation pc) /\
    store w' = store w /\ steady w1 w'.
Proof.
  intros Hpc Hne Hsel Hhealth Hkey.
  assert (Hst : store w1 = store w).
  { assert (Hp : preserves_store
      (select_with (config.Strategy (config.Rotation pc)) provider (config.GetEnabledKeys pc))).
    { unfold select_with. destruct (config.Strategy _);
        auto using ps_selectRoundRobin, ps_selectLeastUsed, ps_selectCostOptimized,
          ps_selectRandom, ps_selectSingle. }
    specialize (Hp w). unfold after in Hp. by rewrite Hsel in Hp. }
  unfold GetNextKey.
  rewrite (bind_Ok _ _ w (rotator w) w) by done.
  unfold config.GetProvider. rewrite Hpc.
  rewrite (bind_Ok _ _ w pc w) by done.
  destruct (len (config.GetEnabledKeys pc) =? 0) eqn:Hlen.
  { apply len_zero in Hlen. done. }
  rewrite (bind_Ok _ _ w (Some k, config.Name k) w1).
  2:{ apply wrapping_Ok. exact Hsel. }
  match goal with |- context [if _ then _ else ?T] => set (proceed := T) end.
  assert (Hproceed : exists sel w',
    proceed w1 = (Ok sel, w') /\
    SelKeyName sel = config.Name k /\ SelKey sel = v /\
    SelRateLimit sel = config.RateLimit k /\ SelCostLimit sel = config.CostLimit k /\
    SelStrategy sel = config.Strategy (config.Rotation pc) /\
    store w' = store w /\ steady w1 w').
  { unfold proceed.
    rewrite (bind_Ok _ _ w1 v w1).
    2:{ apply wrapping_Ok. by rewrite GetKey_run, Hst, Hkey. }
    destruct (attempt_GetUsage_run provider (config.Name k) w1) as [r Hr].
    rewrite (bind_Ok _ _ _ _ _ Hr).
    destruct r as [e | u].
    - erewrite (bind_Ok _ _ w1) by (unfold bind, Now, ret; reflexivity).
      match goal with |- context [bind (updateLastUsed ?p ?n) _ ?w2] =>
        destruct (updateLastUsed_run p n w2) as (w3 & Hu & Hs);
        rewrite (bind_Ok _ _ _ _ _ Hu)
      end.
      eexists _, w3. destruct Hs as (Hs1 & Hs2 & Hs3). unfold steady, ret.
      simpl in *. repeat split; congruence.
    - erewrite (bind_Ok _ _ w1) by (unfold ret; reflexivity).
      match goal with |- context [bind (updateLastUsed ?p ?n) _ ?w2] =>
        destruct (updateLastUsed_run p n w2) as (w3 & Hu & Hs);
        rewrite (bind_Ok _ _ _ _ _ Hu)
      end.
      eexists _, w3. destruct Hs as (Hs1 & Hs2 & Hs3). unfold steady, ret.
      simpl in *. repeat split; congruence. }
  destruct Hhealth as [Hoff | Hon].
  - rewrite Hoff. exact Hproceed.
  - destruct (config.HealthCheck (config.Rotation pc)); [|exact Hproceed].
    rewrite (bind_Ok _ _ w1 true w1).
    2:{ apply wrapping_Ok, health_of_IsHealthy. by rewrite Hst. }
    simpl. exact Hproceed.
Qed.

Lemma index_run {A} (l : list A) idx w :
  index l idx w =
    (match (if (0 <=? idx) && (idx <? len l) then l !! Z.to_nat idx else None) with
     | Some a => Ok a
     | None => Panic index_panic
     end, w).
Proof.
  unfold index. destruct ((0 <=? idx) && (idx <? len l)); [|done].
  by destruct (l !! Z.to_nat idx).
Qed.

(** Round-robin on a non-empty list: the cursor is advanced first, the
    list is indexed afterwards. *)
Lemma selectRoundRobin_run provider ks w :
  ks <> [] ->
  exists w1,
    selectRoundRobin provider ks w =
      (match (if (0 <=? cursor w provider) && (cursor w provider <? len ks)
              then ks !! Z.to_nat (cursor w provider) else None) with
       | Some k => Ok (Some k, config.Name k)
       | None => Panic index_panic
       end, w1) /\
    store w1 = store w /\
    config (rotator w1) = config (rotator w) /\
    rotationIdx (rotator w1) =
      <[provider := Z.rem (wrap64 (cursor w provider + 1)) (len ks)]> (rotationIdx (rotator w)).
Proof.
  intros Hne. unfold selectRoundRobin, cursor.
  destruct (len ks =? 0) eqn:Hlen; [by apply len_zero in Hlen|].
  unfold bind at 1. unfold get_rotator at 1.
  destruct (rotationIdx (rotator w) !! provider) as [c|] eqn:Hc.
  - unfold bind at 1. unfold ret at 1.
    unfold bind at 1. unfold get_rotator at 1. rewrite Hc. simpl default.
    unfold bind at 1. unfold set_rotationIdx, bind, get_rotator, put_rotator.
    rewrite index_run.
    eexists. split.
    + destruct (if (0 <=? c) && (c <? len ks) then ks !! Z.to_nat c else None); reflexivity.
    + by simpl.
  - unfold bind at 1. unfold set_rotationIdx at 1. unfold bind at 1, get_rotator at 1.
    unfold put_rotator at 1.
    unfold bind at 1. unfold get_rotator at 1. simpl rotator. simpl rotationIdx.
    rewrite lookup_insert_eq. simpl default.
    unfold bind at 1. unfold set_rotationIdx, bind, get_rotator, put_rotator.
    rewrite index_run.
    eexists. split.
    + destruct (if (0 <=? 0) && (0 <? len ks) then ks !! Z.to_nat 0 else None); reflexivity.
    + simpl. by rewrite insert_insert_eq.
Qed.

End Run.

(** ** Reads of the time *)

Section Clock.

Context `{CryptoLib} `{LoopVar}.

Lemma kt_ret {A} (a : A) : keeps_time (ret a).
Proof. done. Qed.



Lemma kt_lift {A} (r : result A) : keeps_time (lift r).
Proof. done. Qed.

Lemma kt_bind {A B} (m : M A) (k : A -> M B) :
  keeps_time m -> (forall a, keeps_time (k a)) -> keeps_time (bind m k).
Proof.
  intros Hm Hk w. unfold after, bind. specialize (Hm w). unfold after in Hm.
  destruct (m w) as [[a | e | r] w']; simpl in *; try done.
  destruct Hm as [Hc Ht]. rewrite <- Hc, <- Ht. apply Hk.
Qed.


Lemma kt_wrapping {A} ctx (m : M A) : keeps_time m -> keeps_time (wrapping ctx m).
Proof.
  intros Hm w. specialize (Hm w). unfold after, wrapping in *.
  by destruct (m w) as [[a | e | r] w'].
Qed.

Lemma kt_get_store : keeps_time get_store.
Proof. done. Qed.

Lemma kt_put_store m : keeps_time (put_store m).
Proof. done. Qed.

Lemma kt_ReadFull n : keeps_time (ReadFull n).
Proof.
  intros w. unfold after, ReadFull.
  destruct (entropy w (draws w)) as [bs|]; [|done].
  by destruct (length bs =? n)%nat.
Qed.

Lemma kt_Encrypt e plaintext : keeps_time (Encrypt e plaintext).
Proof.
  unfold Encrypt.
  apply kt_bind; [apply kt_lift|intros block].
  apply kt_bind; [apply kt_lift|intros gcm].
  apply kt_bind; [apply kt_ReadFull|intros nonce]. apply kt_ret.
Qed.

















End Clock.

(** ** Round-robin rotation *)

Section RoundRobin.

Context `{CryptoLib} `{LoopVar}.

(** One round-robin call from a ready world: the candidate under the
    cursor is returned and the cursor moves to the next index modulo the
    number of candidates. *)
Lemma round_robin_step provider pc w :
  rr_ready provider pc w ->
  exists k sel w',
    config.GetEnabledKeys pc !! Z.to_nat (cursor w provider) = Some k /\
    GetNextKey provider w = (Ok sel, w') /\
    SelKeyName sel = config.Name k /\
    cursor w' provider = (cursor w provider + 1) mod len (config.GetEnabledKeys pc) /\
    rr_ready provider pc w'.
Proof.
  intros (Hpc & Hrr & Hne & Hmax & Hc & Hhealth & Hkeys).
  set (ks := config.GetEnabledKeys pc) in *.
  destruct (lookup_lt_is_Some_2 ks (Z.to_nat (cursor w provider))) as [k Hk].
  { unfold len in Hc. lia. }
  destruct (selectRoundRobin_run provider ks w Hne) as (w1 & Hrun & Hst1 & Hcfg1 & Hidx1).
  assert (Hin : k ∈ ks) by (eapply list_elem_of_lookup_2; exact Hk).
  destruct (Hkeys k Hin) as [v Hv].
  destruct (GetNextKey_selected provider w pc k w1 v) as
    (sel & w' & Hnext & Hname & _ & _ & _ & _ & Hst & Hs1 & Hs2 & Hs3); try done.
  - rewrite Hrr. simpl. fold ks. rewrite Hrun.
    destruct ((0 <=? cursor w provider) && (cursor w provider <? len ks)) eqn:Hb.
    + by rewrite Hk.
    + apply andb_false_iff in Hb. destruct Hb as [Hb | Hb]; lia.
  - destruct Hhealth as [? | Hall]; [by left | right; by apply Hall].
  - assert (Hcur : cursor w' provider = (cursor w provider + 1) mod len ks).
    { unfold cursor at 1. rewrite Hs2, Hidx1, lookup_insert_eq.
      cbn [default from_option id]. unfold MaxInt64 in Hmax.
      rewrite wrap64_small by lia.
      apply Z.rem_mod_nonneg; lia. }
    assert (Hlen : 0 < len ks) by lia.
    pose proof (Z.mod_pos_bound (cursor w provider + 1) (len ks) Hlen) as Hbound.
    exists k, sel, w'. split; [done|]. split; [done|]. split; [done|]. split; [done|].
    unfold rr_ready. fold ks. rewrite Hcur, Hs3, Hcfg1.
    split; [done|]. split; [done|]. split; [done|]. split; [done|]. split; [done|].
    split.
    + destruct Hhealth as [? | Hall]; [by left | right].
      intros k' Hk'. rewrite Hst. by apply Hall.
    + intros k' Hk'. rewrite Hst. by apply Hkeys.
Qed.

Lemma calls_S n provider w :
  calls (S n) provider w =
    (fst (GetNextKey provider w) :: fst (calls n provider (snd (GetNextKey provider w))),
     snd (calls n provider (snd (GetNextKey provider w)))).
Proof.
  simpl. destruct (GetNextKey provider w) as [r w1]. simpl.
  by destruct (calls n provider w1).
Qed.

(** [n] consecutive calls walk the candidate list cyclically from the
    cursor, and the world stays ready. *)
Lemma round_robin_calls provider pc n : forall w,
  rr_ready provider pc w ->
  selected_name <$> fst (calls n provider w) =
    (fun j => config.Name <$> pick (config.GetEnabledKeys pc) (cursor w provider) j) <$> seq 0 n /\
  rr_ready provider pc (snd (calls n provider w)) /\
  cursor (snd (calls n provider w)) provider =
    (cursor w provider + Z.of_nat n) mod len (config.GetEnabledKeys pc).
Proof.
  induction n as [|n IH]; intros w Hready.
  - simpl. split; [done|]. split; [done|].
    destruct Hready as (_ & _ & _ & _ & Hc & _).
    rewrite Z.add_0_r, Z.mod_small; done.
  - destruct (round_robin_step provider pc w Hready) as (k & sel & w' & Hk & Hnext & Hname & Hcur & Hready').
    destruct (IH w' Hready') as (IHnames & IHready & IHcur).
    pose proof Hready as (_ & _ & _ & _ & Hc & _).
    set (N := len (config.GetEnabledKeys pc)) in *.
    rewrite calls_S, Hnext. simpl fst. simpl snd.
    split; [|split; [done|]].
    + rewrite fmap_cons, IHnames. simpl seq. rewrite fmap_cons. f_equal.
      * simpl. rewrite Hname. unfold pick. fold N.
        rewrite Z.add_0_r, Z.mod_small by done. by rewrite Hk.
      * rewrite <- fmap_S_seq, <- list_fmap_compose.
        apply list_fmap_ext. intros _ j _. simpl. unfold pick. fold N.
        rewrite Hcur. do 3 f_equal.
        rewrite Z.add_mod_idemp_l by lia. f_equal. lia.
    + rewrite IHcur, Hcur. rewrite Z.add_mod_idemp_l by lia. f_equal. lia.
Qed.

Lemma rotate_Permutation {A} (l : list A) n : rotate n l ≡ₚ l.
Proof.
  unfold rotate. rewrite Permutation_app_comm. by rewrite take_drop.
Qed.

Lemma pick_rotate {A} (l : list A) c i :
  0 <= c -> (i < length l)%nat -> pick l c i = rotate (Z.to_nat c) l !! i.
Proof.
  intros Hc Hi. rewrite lookup_rotate_r by done.
  unfold pick, rotate_nat_add, len. by rewrite Z2Nat.id.
Qed.

(** C3.  Under the RoundRobin strategy, with N enabled credentials, the
    cursor designating one of them, the health check passing (health
    checking off, or every candidate healthy) and the secrets readable:
    N consecutive calls of GetNextKey return the candidates in
    configuration order starting from the cursor, cyclically, hence each
    of them exactly once; the (N+1)th call returns what the first
    returned; and every call moves the cursor to (cursor + 1) mod N. *)
Theorem round_robin_cycle provider pc w :
  config.Providers (config (rotator w)) !! provider = Some pc ->
  config.Strategy (config.Rotation pc) = config.RotationRoundRobin ->
  config.GetEnabledKeys pc <> [] ->
  len (config.GetEnabledKeys pc) <= MaxInt64 ->
  0 <= cursor w provider < len (config.GetEnabledKeys pc) ->
  (config.HealthCheck (config.Rotation pc) = false \/
   forall k, k ∈ config.GetEnabledKeys pc ->
     health_of (store w) provider (config.Name k) = Some true) ->
  (forall k, k ∈ config.GetEnabledKeys pc ->
     exists v, read_key (store w) provider (config.Name k) = Ok v) ->
  selected_name <$> fst (calls (length (config.GetEnabledKeys pc)) provider w) =
    (fun k => Some (config.Name k)) <$>
      rotate (Z.to_nat (cursor w provider)) (config.GetEnabledKeys pc) /\
  selected_name <$> fst (calls (length (config.GetEnabledKeys pc)) provider w) ≡ₚ
    (fun k => Some (config.Name k)) <$> config.GetEnabledKeys pc /\
  (selected_name <$> fst (calls (S (length (config.GetEnabledKeys pc))) provider w))
      !! length (config.GetEnabledKeys pc) =
    (selected_name <$> fst (calls (S (length (config.GetEnabledKeys pc))) provider w))
      !! 0%nat /\
  forall i, cursor (snd (calls (S i) provider w)) provider =
    (cursor (snd (calls i provider w)) provider + 1) mod len (config.GetEnabledKeys pc).
Proof.
  intros Hpc Hrr Hne Hmax Hc Hhealth Hkeys.
  assert (Hready : rr_ready provider pc w) by done.
  set (ks := config.GetEnabledKeys pc) in *.
  assert (Hlen : 0 < len ks) by lia.
  assert (Hrot : selected_name <$> fst (calls (length ks) provider w) =
    (fun k => Some (config.Name k)) <$> rotate (Z.to_nat (cursor w provider)) ks).
  { destruct (round_robin_calls provider pc (length ks) w Hready) as (-> & _ & _).
    fold ks. apply list_eq. intros i. rewrite !list_lookup_fmap.
    destruct (decide (i < length ks)%nat) as [Hi | Hi].
    - rewrite lookup_seq_lt by done. simpl.
      rewrite pick_rotate by (done || lia).
      destruct (lookup_lt_is_Some_2 (rotate (Z.to_nat (cursor w provider)) ks) i)
        as [x Hx]; [by rewrite length_rotate|].
      by rewrite Hx.
    - rewrite (lookup_ge_None_2 (seq 0 (length ks))) by (rewrite length_seq; lia).
      rewrite (lookup_ge_None_2 (rotate _ ks)) by (rewrite length_rotate; lia).
      done. }
  split; [exact Hrot|]. split; [|split].
  - rewrite Hrot. apply fmap_Permutation, rotate_Permutation.
  - destruct (round_robin_calls provider pc (S (length ks)) w Hready) as (-> & _ & _).
    fold ks. rewrite !list_lookup_fmap.
    rewrite !lookup_seq_lt by lia. simpl. do 2 f_equal.
    unfold pick. f_equal. f_equal. unfold len.
    rewrite Z.add_0_r. rewrite <- (Z.mul_1_l (Z.of_nat (length ks))) at 1.
    apply Z.mod_add. unfold len in Hlen. lia.
  - intros i.
    destruct (round_robin_calls provider pc (S i) w Hready) as (_ & _ & ->).
    destruct (round_robin_calls provider pc i w Hready) as (_ & _ & ->).
    fold ks. rewrite Z.add_mod_idemp_l by lia. f_equal. lia.
Qed.

End RoundRobin.

(** ** The frame of a selection *)

Section SelectionFrame.

Context `{CryptoLib} `{LoopVar}.

(** C10.  GetNextKey never writes to the key store: whatever its outcome
    (in particular when it returns a selection), the store afterwards is
    the store before, so every usage record (request count, tokens,
    cumulative and daily cost, error count, last-used time) and every
    health flag reads the same before and after the call. *)
Theorem GetNextKey_leaves_ledger provider w :
  store (after (GetNextKey provider) w) = store w /\
  (forall p name,
     usage_of (store (after (GetNextKey provider) w)) p name = usage_of (store w) p name) /\
  (forall p name,
     health_of (store (after (GetNextKey provider) w)) p name = health_of (store w) p name).
Proof.
  pose proof (ps_GetNextKey provider w) as Hst.
  split; [done|]. split; intros; by rewrite Hst.
Qed.

End SelectionFrame.

(** ** Error counting and health *)

Section Health.

Lemma health_of_Some m provider keyName h :
  health_of m provider keyName = Some h ->
  exists ph, health m !! provider = Some ph /\ ph !! keyName = Some h.
Proof.
  unfold health_of. destruct (health m !! provider) as [ph|]; simpl; [|done].
  intros Hh. by exists ph.
Qed.

Lemma usage_of_Some m provider keyName u :
  usage_of m provider keyName = Some u ->
  exists pu, usage m !! provider = Some pu /\ pu !! keyName = Some u.
Proof.
  unfold usage_of. destruct (usage m !! provider) as [pu|]; simpl; [|done].
  intros Hu. by exists pu.
Qed.

(** One recorded error on a stored credential. *)
Lemma RecordError_entry provider keyName message w u h :
  usage_of (store w) provider keyName = Some u ->
  health_of (store w) provider keyName = Some h ->
  outcome (RecordError provider keyName message) w = Ok tt /\
  (exists u', usage_of (store (after (RecordError provider keyName message) w))
                provider keyName = Some u' /\
              ErrorCount u' = wrap64 (ErrorCount u + 1) /\ LastError u' = message) /\
  health_of (store (after (RecordError provider keyName message) w)) provider keyName =
    Some (if 5 <? wrap64 (ErrorCount u + 1) then false else h).
Proof.
  intros Hu Hh.
  destruct (usage_of_Some _ _ _ _ Hu) as (pu & Hpu & Hk).
  destruct (health_of_Some _ _ _ _ Hh) as (ph & Hph & Hkh).
  unfold outcome, after, RecordError, bind, get_store, put_store, assign, ret. simpl.
  rewrite Hpu, Hk. simpl. rewrite Hph.
  destruct (5 <? wrap64 (ErrorCount u + 1)) eqn:Hgt; simpl.
  - split; [done|]. split.
    + eexists. unfold usage_of. simpl. rewrite lookup_insert_eq. simpl.
      rewrite lookup_insert_eq. done.
    + unfold health_of. simpl. rewrite lookup_insert_eq. simpl.
      by rewrite lookup_insert_eq.
  - split; [done|]. split.
    + eexists. unfold usage_of. simpl. rewrite lookup_insert_eq. simpl.
      rewrite lookup_insert_eq. done.
    + unfold health_of. simpl. rewrite Hph. simpl. done.
Qed.

(** Any number of recorded errors, as long as the counter does not wrap. *)
Lemma after_errors_entry provider keyName messages : forall w u h,
  usage_of (store w) provider keyName = Some u ->
  health_of (store w) provider keyName = Some h ->
  0 <= ErrorCount u ->
  ErrorCount u + Z.of_nat (length messages) < 2 ^ 63 ->
  (exists u', usage_of (store (after_errors provider keyName messages w))
                provider keyName = Some u' /\
              ErrorCount u' = ErrorCount u + Z.of_nat (length messages)) /\
  health_of (store (after_errors provider keyName messages w)) provider keyName =
    Some (if (length messages =? 0)%nat then h
          else if 5 <? ErrorCount u + Z.of_nat (length messages) then false else h).
Proof.
  induction messages as [|message rest IH]; intros w u h Hu Hh Hnn Hmax.
  - simpl. split; [|done]. exists u. split; [done|lia].
  - simpl length in *. simpl foldl. unfold after_errors. simpl foldl.
    destruct (RecordError_entry provider keyName message w u h Hu Hh)
      as (_ & (u1 & Hu1 & Hc1 & _) & Hh1).
    rewrite wrap64_small in Hc1, Hh1 by lia.
    destruct (IH _ u1 _ Hu1 Hh1) as ((u' & Hu' & Hc') & Hh'); [lia | lia |].
    unfold after_errors in Hu', Hh'. split.
    + exists u'. split; [done|lia].
    + rewrite Hh', Hc1. f_equal.
      destruct (length rest) as [|n] eqn:Hn; simpl Nat.eqb.
      * by rewrite Z.add_0_r.
      * replace (ErrorCount u + 1 + Z.of_nat (S n))
          with (ErrorCount u + Z.of_nat (S (S n))) by lia.
        destruct (5 <? ErrorCount u + Z.of_nat (S (S n))) eqn:Hgt; [done|].
        destruct (5 <? ErrorCount u + 1) eqn:Hgt1; [|done].
        apply Z.ltb_lt in Hgt1. apply Z.ltb_ge in Hgt. lia.
Qed.

Lemma SetHealth_entry provider keyName healthy w h :
  health_of (store w) provider keyName = Some h ->
  outcome (SetHealth provider keyName healthy) w = Ok tt /\
  health_of (store (after (SetHealth provider keyName healthy) w)) provider keyName =
    Some healthy /\
  usage (store (after (SetHealth provider keyName healthy) w)) = usage (store w).
Proof.
  intros Hh. destruct (health_of_Some _ _ _ _ Hh) as (ph & Hph & _).
  unfold outcome, after, SetHealth, bind, get_store, put_store. simpl.
  rewrite Hph. simpl. split; [done|]. split; [|done].
  unfold health_of. simpl. rewrite lookup_insert_eq. simpl.
  by rewrite lookup_insert_eq.
Qed.

(** A probe that found the credential valid. *)
Lemma writeBack_valid provider keyName message w h :
  health_of (store w) provider keyName = Some h ->
  health_of (store (after (writeBack provider keyName true message) w)) provider keyName =
    Some true.
Proof.
  intros Hh.
  destruct (SetHealth_entry provider keyName true w h Hh) as (Hout & Hafter & _).
  unfold outcome, after in *. unfold writeBack, bind, attempt. simpl.
  destruct (SetHealth provider keyName true w) as [[[] | e | r] w']; simpl in *; done.
Qed.

(** C6.  A stored credential with error count 0 and health true: after n
    calls of RecordError its health is false exactly when n exceeds 5, so
    it is still true after 5 or fewer calls and false after exactly 6;
    a successful probe after that (SetHealth with a valid result, as the
    health checker writes it back) makes it true again. *)
Theorem six_errors_flip_health provider keyName w u :
  usage_of (store w) provider keyName = Some u ->
  ErrorCount u = 0 ->
  health_of (store w) provider keyName = Some true ->
  (forall messages, Z.of_nat (length messages) < 2 ^ 63 ->
     health_of (store (after_errors provider keyName messages w)) provider keyName =
       Some (negb (5 <? Z.of_nat (length messages)))) /\
  (forall messages, (length messages <= 5)%nat ->
     health_of (store (after_errors provider keyName messages w)) provider keyName =
       Some true) /\
  (forall messages, length messages = 6%nat ->
     health_of (store (after_errors provider keyName messages w)) provider keyName =
       Some false /\
     health_of (store (after (SetHealth provider keyName true)
                             (after_errors provider keyName messages w)))
               provider keyName = Some true /\
     forall message,
       health_of (store (after (writeBack provider keyName true message)
                               (after_errors provider keyName messages w)))
                 provider keyName = Some true).
Proof.
  intros Hu Hzero Hh.
  assert (Hgen : forall messages, Z.of_nat (length messages) < 2 ^ 63 ->
     health_of (store (after_errors provider keyName messages w)) provider keyName =
       Some (negb (5 <? Z.of_nat (length messages)))).
  { intros messages Hlen.
    destruct (after_errors_entry provider keyName messages w u true Hu Hh) as (_ & ->);
      [lia | lia |].
    rewrite Hzero, Z.add_0_l. f_equal.
    destruct (length messages); simpl Nat.eqb; [done|].
    by destruct (5 <? Z.of_nat (S n)). }
  split; [exact Hgen|]. split.
  - intros messages Hlen. rewrite Hgen by lia.
    f_equal. apply negb_true_iff, Z.ltb_ge. lia.
  - intros messages Hlen.
    assert (Hfalse : health_of (store (after_errors provider keyName messages w))
                       provider keyName = Some false).
    { rewrite Hgen by lia. by rewrite Hlen. }
    split; [exact Hfalse|]. split.
    + by destruct (SetHealth_entry provider keyName true _ _ Hfalse) as (_ & ? & _).
    + intros message. by apply (writeBack_valid _ _ _ _ false).
Qed.

End Health.

(** ** The three maps of the store stay keyed alike *)

Section Alignment.

Context `{CryptoLib} `{LoopVar}.

Lemma StoreKey_unfold provider keyName key w :
  StoreKey provider keyName key w =
    (let* m := get_store in
     (if keys m !! provider is None then put_store (ensure provider m) else ret tt) ;;
     let* storedKey :=
       match encryptor m with
       | Some e => wrapping "failed to encrypt key" (Encrypt e key)
       | None => ret key
       end in
     write_entries provider keyName storedKey) w.
Proof.
  unfold StoreKey, write_entries, ensure, bind, get_store. simpl.
  destruct (keys (store w) !! provider); reflexivity.
Qed.

Lemma names_insert {V} (outer : gmap string (gmap string V)) p inner q :
  names (<[p := inner]> outer) q =
    if decide (p = q) then Some (dom inner) else names outer q.
Proof.
  unfold names. case_decide as Hpq.
  - subst. by rewrite lookup_insert_eq.
  - by rewrite lookup_insert_ne.
Qed.

Lemma names_Some {V} (outer : gmap string (gmap string V)) p inner :
  outer !! p = Some inner -> names outer p = Some (dom inner).
Proof. unfold names. by intros ->. Qed.

Lemma names_None {V} (outer : gmap string (gmap string V)) p :
  names outer p = None <-> outer !! p = None.
Proof. unfold names. destruct (outer !! p); simpl; split; done. Qed.

Lemma names_is_Some {V} (outer : gmap string (gmap string V)) p d :
  names outer p = Some d -> exists inner, outer !! p = Some inner /\ dom inner = d.
Proof.
  unfold names. destruct (outer !! p) as [inner|]; simpl; [|done].
  intros [= <-]. by exists inner.
Qed.

(** An aligned store has the three inner maps of a provider together or
    not at all. *)
Lemma aligned_inner m p ki :
  aligned m -> keys m !! p = Some ki ->
  exists ui hi, usage m !! p = Some ui /\ health m !! p = Some hi /\
                dom ki = dom ui /\ dom ui = dom hi.
Proof.
  intros Hal Hk. destruct (Hal p) as [Hku Huh].
  rewrite (names_Some _ _ _ Hk) in Hku. symmetry in Hku.
  destruct (names_is_Some _ _ _ Hku) as (ui & Hu & Hdu).
  rewrite (names_Some _ _ _ Hu) in Huh. symmetry in Huh.
  destruct (names_is_Some _ _ _ Huh) as (hi & Hh & Hdh).
  exists ui, hi. repeat split; done.
Qed.

Lemma ensure_aligned m p :
  aligned m -> aligned (ensure p m) /\ is_Some (keys (ensure p m) !! p).
Proof.
  intros Hal. unfold ensure. destruct (keys m !! p) as [ki|] eqn:Hk.
  - split; [done|]. by rewrite Hk.
  - split; [|simpl; by rewrite lookup_insert_eq].
    intros q. simpl. rewrite !names_insert. case_decide; [done|]. apply Hal.
Qed.

Lemma write_entries_run provider keyName storedKey w ki ui hi :
  keys (store w) !! provider = Some ki ->
  usage (store w) !! provider = Some ui ->
  health (store w) !! provider = Some hi ->
  outcome (write_entries provider keyName storedKey) w = Ok tt /\
  store (after (write_entries provider keyName storedKey) w) =
    {| keys := <[provider := <[keyName := storedKey]> ki]> (keys (store w));
       usage := <[provider := <[keyName := zeroUsage (clock w (ticks w))]> ui]>
                  (usage (store w));
       health := <[provider := <[keyName := true]> hi]> (health (store w));
       encryptor := encryptor (store w) |}.
Proof.
  intros Hk Hu Hh.
  unfold outcome, after, write_entries, bind, get_store, put_store, Now, assign. simpl.
  rewrite Hk. simpl. rewrite Hu. simpl. rewrite Hh. simpl. done.
Qed.

Lemma write_entries_aligned provider keyName storedKey w :
  aligned (store w) -> is_Some (keys (store w) !! provider) ->
  outcome (write_entries provider keyName storedKey) w = Ok tt /\
  aligned (store (after (write_entries provider keyName storedKey) w)) /\
  secret_of (store (after (write_entries provider keyName storedKey) w))
    provider keyName = Some storedKey /\
  usage_of (store (after (write_entries provider keyName storedKey) w))
    provider keyName = Some (zeroUsage (clock w (ticks w))) /\
  health_of (store (after (write_entries provider keyName storedKey) w))
    provider keyName = Some true.
Proof.
  intros Hal [ki Hk].
  destruct (aligned_inner _ _ _ Hal Hk) as (ui & hi & Hu & Hh & Hd1 & Hd2).
  destruct (write_entries_run provider keyName storedKey w ki ui hi Hk Hu Hh) as [Hout ->].
  split; [done|]. split; [|split; [|split]].
  - intros q. simpl. rewrite !names_insert. case_decide; [|apply Hal].
    rewrite !dom_insert_L. by rewrite Hd1, Hd2.
  - unfold secret_of. simpl. rewrite lookup_insert_eq. simpl. by rewrite lookup_insert_eq.
  - unfold usage_of. simpl. rewrite lookup_insert_eq. simpl. by rewrite lookup_insert_eq.
  - unfold health_of. simpl. rewrite lookup_insert_eq. simpl. by rewrite lookup_insert_eq.
Qed.

Lemma ps_ReadFull n : preserves_store (ReadFull n).
Proof.
  intros w. unfold after, ReadFull.
  destruct (entropy w (draws w)) as [bs|]; [|done].
  by destruct (length bs =? n)%nat.
Qed.

Lemma ps_Encrypt e plaintext : preserves_store (Encrypt e plaintext).
Proof.
  unfold Encrypt.
  apply ps_bind; [apply ps_lift|intros block].
  apply ps_bind; [apply ps_lift|intros gcm].
  apply ps_bind; [apply ps_ReadFull|intros nonce]. apply ps_ret.
Qed.

Lemma StoreKey_spec provider keyName key w :
  aligned (store w) ->
  aligned (store (after (StoreKey provider keyName key) w)) /\
  (outcome (StoreKey provider keyName key) w = Ok tt ->
   exists storedKey,
     secret_of (store (after (StoreKey provider keyName key) w)) provider keyName
       = Some storedKey /\
     usage_of (store (after (StoreKey provider keyName key) w)) provider keyName
       = Some (zeroUsage (clock w (ticks w))) /\
     health_of (store (after (StoreKey provider keyName key) w)) provider keyName
       = Some true) /\
  (encryptor (store w) = None ->
   outcome (StoreKey provider keyName key) w = Ok tt /\
   secret_of (store (after (StoreKey provider keyName key) w)) provider keyName
     = Some key).
Proof.
  intros Hal.
  assert (Hrun : exists r w',
    StoreKey provider keyName key w = (r, w') /\ aligned (store w') /\
    (r = Ok tt -> exists storedKey,
       secret_of (store w') provider keyName = Some storedKey /\
       usage_of (store w') provider keyName = Some (zeroUsage (clock w (ticks w))) /\
       health_of (store w') provider keyName = Some true) /\
    (encryptor (store w) = None ->
       r = Ok tt /\ secret_of (store w') provider keyName = Some key)).
  { rewrite StoreKey_unfold.
    unfold bind at 1. unfold get_store at 1.
    destruct (ensure_aligned (store w) provider Hal) as [Hal1 Hpres].
    assert (HB : exists w1,
      (if keys (store w) !! provider is None
       then put_store (ensure provider (store w)) else ret tt) w = (Ok tt, w1) /\
      store w1 = ensure provider (store w) /\
      clock w1 = clock w /\ ticks w1 = ticks w).
    { destruct (keys (store w) !! provider) eqn:Hk.
      - exists w. split; [done|]. unfold ensure. by rewrite Hk.
      - eexists. split; [reflexivity|done]. }
    destruct HB as (w1 & HB & Hst1 & Hc1 & Ht1). rewrite (bind_Ok _ _ _ _ _ HB).
    rewrite <- Hst1 in Hal1, Hpres.
    destruct (encryptor (store w)) as [e|] eqn:Henc.
    - pose proof (ps_wrapping "failed to encrypt key" _ (ps_Encrypt e key) w1) as Hps.
      pose proof (kt_wrapping "failed to encrypt key" _ (kt_Encrypt e key) w1) as [Hc2 Ht2].
      unfold after in Hps, Hc2, Ht2. unfold bind at 1.
      destruct (wrapping "failed to encrypt key" (Encrypt e key) w1)
        as [[c | err | r] w2]; simpl in Hps, Hc2, Ht2.
      + rewrite <- Hps in Hal1, Hpres.
        destruct (write_entries_aligned provider keyName c w2 Hal1 Hpres)
          as (Ho & Ha & Hs & Hu & Hh).
        rewrite Hc2, Ht2, Hc1, Ht1 in Hu.
        unfold after, outcome in *.
        destruct (write_entries provider keyName c w2) as [r' w3]. simpl in *.
        exists r', w3. split; [done|]. split; [done|]. split; [|done].
        intros _. by eexists.
      + exists (Err err), w2. rewrite Hps. split; [done|]. split; [done|]. split; done.
      + exists (Panic r), w2. rewrite Hps. split; [done|]. split; [done|]. split; done.
    - rewrite (bind_Ok _ _ w1 key w1) by done.
      destruct (write_entries_aligned provider keyName key w1 Hal1 Hpres)
        as (Ho & Ha & Hs & Hu & Hh).
      rewrite Hc1, Ht1 in Hu.
      unfold after, outcome in *.
      destruct (write_entries provider keyName key w1) as [r' w3]. simpl in *.
      exists r', w3. split; [done|]. split; [done|]. split; [|done].
      intros _. by eexists. }
  destruct Hrun as (r & w' & Hrun & Ha & Hok & Hnone).
  unfold outcome, after. rewrite Hrun. simpl. done.
Qed.

Lemma names_remove {V} (outer : gmap string (gmap string V)) p k q :
  names (remove outer p k) q =
    if decide (p = q) then (fun d => d ∖ {[k]}) <$> names outer p else names outer q.
Proof.
  unfold remove. destruct (outer !! p) as [inner|] eqn:Hp.
  - rewrite names_insert. case_decide; [|done].
    rewrite (names_Some _ _ _ Hp). simpl. by rewrite dom_delete_L.
  - case_decide; [|done]. subst. unfold names. by rewrite Hp.
Qed.

Lemma remove_lookup {V} (outer : gmap string (gmap string V)) p k :
  remove outer p k !! p ≫= (.!! k) = None.
Proof.
  unfold remove. destruct (outer !! p) as [inner|] eqn:Hp.
  - rewrite lookup_insert_eq. simpl. apply lookup_delete_eq.
  - by rewrite Hp.
Qed.

Lemma DeleteKey_spec provider keyName w :
  aligned (store w) ->
  outcome (DeleteKey provider keyName) w = Ok tt /\
  aligned (store (after (DeleteKey provider keyName) w)) /\
  secret_of (store (after (DeleteKey provider keyName) w)) provider keyName = None /\
  usage_of (store (after (DeleteKey provider keyName) w)) provider keyName = None /\
  health_of (store (after (DeleteKey provider keyName) w)) provider keyName = None.
Proof.
  intros Hal. unfold outcome, after, DeleteKey, bind, get_store, put_store.
  cbn -[remove].
  destruct (keys (store w) !! provider) as [ki|] eqn:Hk; cbn -[remove].
  - split; [done|]. split; [|split; [|split]].
    + intros q. cbn [keys usage health]. rewrite !names_remove.
      case_decide; [|apply Hal].
      destruct (Hal provider) as [-> ->]. done.
    + apply remove_lookup.
    + apply remove_lookup.
    + apply remove_lookup.
  - split; [done|]. split; [done|].
    destruct (Hal provider) as [Hku Huh].
    assert (Hu : usage (store w) !! provider = None).
    { apply names_None. rewrite <- Hku. by apply names_None. }
    assert (Hh : health (store w) !! provider = None).
    { apply names_None. rewrite <- Huh. by apply names_None. }
    unfold secret_of, usage_of, health_of. by rewrite Hk, Hu, Hh.
Qed.

Lemma run_ops_aligned ops : forall w,
  aligned (store w) -> aligned (store (run_ops ops w)).
Proof.
  induction ops as [|op ops IH]; intros w Hal; [done|].
  unfold run_ops. simpl. apply IH. destruct op as [p k v | p k]; simpl.
  - by apply StoreKey_spec.
  - by apply DeleteKey_spec.
Qed.

Lemma aligned_empty encryptionKey : aligned (NewMemoryKeyStore encryptionKey).
Proof. intros p. unfold names. simpl. by rewrite !lookup_empty. Qed.

Lemma aligned_entries m provider keyName :
  aligned m ->
  (is_Some (secret_of m provider keyName) <-> is_Some (usage_of m provider keyName)) /\
  (is_Some (usage_of m provider keyName) <-> is_Some (health_of m provider keyName)).
Proof.
  intros Hal. unfold secret_of, usage_of, health_of.
  destruct (keys m !! provider) as [ki|] eqn:Hk.
  - destruct (aligned_inner _ _ _ Hal Hk) as (ui & hi & -> & -> & Hd1 & Hd2). simpl.
    rewrite <- !elem_of_dom. rewrite <- Hd2, <- Hd1. done.
  - destruct (Hal provider) as [Hku Huh].
    assert (Hu : usage m !! provider = None).
    { apply names_None. rewrite <- Hku. by apply names_None. }
    assert (Hh : health m !! provider = None).
    { apply names_None. rewrite <- Huh. by apply names_None. }
    rewrite Hu, Hh. simpl. done.
Qed.

(** C9.  From a store whose three maps are keyed alike (a new store is
    one), after any sequence of StoreKey and DeleteKey calls, whatever
    their outcomes: for every provider the key map, the usage map and the
    health map hold entries for exactly the same credential names, so a
    credential has a key entry if and only if it has a usage entry if and
    only if it has a health entry.  In such a store a StoreKey that
    returns without error has written all three entries: the usage record
    has every counter at zero, no last error, and as last-used time the
    time the call read from the clock (the clock's next reading in the
    state the call started in); the health flag is true.  It does return
    without error when no encryption is configured.  A DeleteKey returns
    without error and leaves none of the three entries.  Each call is one
    transition under the store's lock, so these are the only states
    another caller can observe. *)
Theorem store_maps_keyed_alike ops w0 :
  aligned (store w0) ->
  aligned (store (run_ops ops w0)) /\
  (forall provider keyName,
     (is_Some (secret_of (store (run_ops ops w0)) provider keyName) <->
      is_Some (usage_of (store (run_ops ops w0)) provider keyName)) /\
     (is_Some (usage_of (store (run_ops ops w0)) provider keyName) <->
      is_Some (health_of (store (run_ops ops w0)) provider keyName))) /\
  (forall provider keyName key,
     (outcome (StoreKey provider keyName key) (run_ops ops w0) = Ok tt ->
      exists storedKey,
        secret_of (store (after (StoreKey provider keyName key) (run_ops ops w0)))
          provider keyName = Some storedKey /\
        usage_of (store (after (StoreKey provider keyName key) (run_ops ops w0)))
          provider keyName =
          Some {| LastUsed := clock (run_ops ops w0) (ticks (run_ops ops w0));
                  UsageCount := 0; TokensUsed := 0; CostUsed := 0%float;
                  DailyCost := 0%float; ErrorCount := 0; LastError := "" |} /\
        health_of (store (after (StoreKey provider keyName key) (run_ops ops w0)))
          provider keyName = Some true) /\
     (encryptor (store (run_ops ops w0)) = None ->
      outcome (StoreKey provider keyName key) (run_ops ops w0) = Ok tt /\
      secret_of (store (after (StoreKey provider keyName key) (run_ops ops w0)))
        provider keyName = Some key)) /\
  (forall provider keyName,
     outcome (DeleteKey provider keyName) (run_ops ops w0) = Ok tt /\
     secret_of (store (after (DeleteKey provider keyName) (run_ops ops w0)))
       provider keyName = None /\
     usage_of (store (after (DeleteKey provider keyName) (run_ops ops w0)))
       provider keyName = None /\
     health_of (store (after (DeleteKey provider keyName) (run_ops ops w0)))
       provider keyName = None).
Proof.
  intros Hal0. pose proof (run_ops_aligned ops w0 Hal0) as Hal.
  split; [exact Hal|]. split; [|split].
  - intros provider keyName. by apply aligned_entries.
  - intros provider keyName key.
    destruct (StoreKey_spec provider keyName key _ Hal) as (_ & Hok & Hnone). done.
  - intros provider keyName.
    destruct (DeleteKey_spec provider keyName _ Hal) as (Hout & _ & Hs & Hu & Hh). done.
Qed.

End Alignment.

(** ** Sealing and unsealing a secret *)

Section Sealing.

Context `{CryptoLaws} `{LoopVar}.

(** What [Encrypt] returns when the cipher can be built and the entropy
    source delivers a nonce. *)
Lemma Encrypt_run e plaintext w block gcm nonce :
  aes_NewCipher (key e) = Ok block ->
  cipher_NewGCM block = Ok gcm ->
  entropy w (draws w) = Some nonce ->
  length nonce = NonceSize gcm ->
  outcome (Encrypt e plaintext) w =
    Ok (base64_EncodeToString
          (nonce ++ Seal gcm nonce (String.list_byte_of_string plaintext))).
Proof.
  intros Hb Hg Hn Hl. unfold outcome, Encrypt, bind, lift, ReadFull, ret.
  rewrite Hb, Hg, Hn, Hl. by rewrite Nat.eqb_refl.
Qed.

(** Whatever [Encrypt] returned, [Decrypt] undoes. *)
Lemma Decrypt_Encrypt e plaintext w c :
  outcome (Encrypt e plaintext) w = Ok c -> Decrypt e c = Ok plaintext.
Proof.
  unfold outcome, Encrypt, bind, lift, ReadFull, ret, Decrypt.
  destruct (aes_NewCipher (key e)) as [block | |]; simpl; try done.
  destruct (cipher_NewGCM block) as [gcm | |]; simpl; try done.
  destruct (entropy w (draws w)) as [nonce|]; simpl; [|done].
  destruct (length nonce =? NonceSize gcm)%nat eqn:Hl; simpl; [|done].
  apply Nat.eqb_eq in Hl. intros [= <-].
  rewrite Decode_Encode.
  destruct (length (nonce ++ _) <? NonceSize gcm)%nat eqn:Hshort.
  { apply Nat.ltb_lt in Hshort. rewrite length_app in Hshort. lia. }
  rewrite <- Hl, take_app_length, drop_app_length.
  rewrite Open_Seal by done.
  by rewrite String.string_of_list_byte_of_string.
Qed.

(** The inputs [Decrypt] accepts. *)
Lemma Decrypt_Ok e c s :
  Decrypt e c = Ok s ->
  exists block gcm data nonce plaintext,
    aes_NewCipher (key e) = Ok block /\ cipher_NewGCM block = Ok gcm /\
    base64_DecodeString c = Ok data /\
    length nonce = NonceSize gcm /\
    data = nonce ++ Seal gcm nonce plaintext /\
    s = String.string_of_list_byte plaintext.
Proof.
  unfold Decrypt.
  destruct (base64_DecodeString c) as [data | |] eqn:Hd; try done.
  destruct (aes_NewCipher (key e)) as [block | |] eqn:Hb; try done.
  destruct (cipher_NewGCM block) as [gcm | |] eqn:Hg; try done.
  destruct (length data <? NonceSize gcm)%nat eqn:Hshort; [done|].
  apply Nat.ltb_ge in Hshort.
  destruct (Open gcm (take (NonceSize gcm) data) (drop (NonceSize gcm) data))
    as [plaintext | |] eqn:Hopen; try done.
  intros [= <-]. apply Open_genuine in Hopen.
  exists block, gcm, data, (take (NonceSize gcm) data), plaintext.
  split; [done|]. split; [done|]. split; [done|]. split; [|split; [|done]].
  - rewrite length_take. lia.
  - rewrite <- Hopen. by rewrite take_drop.
Qed.

(** C8.  With a key the cipher accepts and a nonce from the entropy
    source, Encrypt returns a ciphertext and Decrypt with the same key
    returns the plaintext it came from; an input that decodes to fewer
    bytes than the nonce size is rejected as too short, before the cipher
    is asked; and Decrypt returns a plaintext only for an input that
    decodes to a nonce followed by that plaintext sealed under the nonce,
    so a corrupted or truncated input does not decrypt. *)
Theorem seal_unseal e block gcm :
  aes_NewCipher (key e) = Ok block ->
  cipher_NewGCM block = Ok gcm ->
  (forall x w nonce,
     entropy w (draws w) = Some nonce -> length nonce = NonceSize gcm ->
     exists c, outcome (Encrypt e x) w = Ok c /\ Decrypt e c = Ok x) /\
  (forall c data,
     base64_DecodeString c = Ok data -> (length data < NonceSize gcm)%nat ->
     Decrypt e c = Err ErrCiphertextTooShort) /\
  (forall c s,
     Decrypt e c = Ok s ->
     exists data nonce plaintext,
       base64_DecodeString c = Ok data /\
       length nonce = NonceSize gcm /\
       data = nonce ++ Seal gcm nonce plaintext /\
       s = String.string_of_list_byte plaintext).
Proof.
  intros Hb Hg. split; [|split].
  - intros x w nonce Hn Hl. eexists. split.
    + by apply (Encrypt_run e x w block gcm nonce).
    + eapply Decrypt_Encrypt. by apply (Encrypt_run e x w block gcm nonce).
  - intros c data Hd Hshort. unfold Decrypt. rewrite Hd, Hb, Hg.
    apply Nat.ltb_lt in Hshort. by rewrite Hshort.
  - intros c s Hok.
    destruct (Decrypt_Ok e c s Hok) as (b' & g' & data & nonce & pt & Hb' & Hg' & Hd & Hl & -> & ->).
    rewrite Hb in Hb'. injection Hb' as <-. rewrite Hg in Hg'. injection Hg' as <-.
    by exists (nonce ++ Seal gcm nonce pt), nonce, pt.
Qed.

End Sealing.

(** ** The LeastUsed strategy *)

Section LeastUsed.

Context `{LoopVar}.

Lemma attempt_GetUsage_Some provider keyName w u :
  usage_of (store w) provider keyName = Some u ->
  attempt (GetUsage provider keyName) w = (Ok (inr u), w).
Proof.
  intros Hu. destruct (usage_of_Some _ _ _ _ Hu) as (pu & Hpu & Hk).
  unfold attempt. rewrite GetUsage_run, Hpu, Hk. done.
Qed.

Lemma attempt_GetUsage_None provider keyName w :
  usage_of (store w) provider keyName = None ->
  exists e, attempt (GetUsage provider keyName) w = (Ok (inl e), w).
Proof.
  unfold usage_of, attempt. rewrite GetUsage_run.
  destruct (usage (store w) !! provider) as [pu|]; simpl; [|by eexists].
  intros ->. by eexists.
Qed.

Lemma designate_pointee scanned best key :
  (is_Some best -> is_Some scanned) ->
  designate key (pointee scanned best) = pointee (Some key) best.
Proof.
  unfold designate, pointee. destruct per_iteration; [done|].
  destruct best as [b|]; simpl; [|done].
  intros Hsc. by destruct (Hsc (ltac:(by eexists))) as [x ->].
Qed.

Lemma pointee_same k : pointee (Some k) (Some k) = Some k.
Proof. unfold pointee. by destruct per_iteration. Qed.

Lemma scanned_after_cons scanned key rest :
  scanned_after (Some key) rest = scanned_after scanned (key :: rest).
Proof. unfold scanned_after. rewrite last_cons. by destruct (last rest). Qed.

(** The pointer at the end of a scan that ran through a non-empty list. *)
Lemma pointee_spec ks scanned best held :
  ks <> [] ->
  pointee (scanned_after scanned ks) (Some best) = Some held ->
  held ∈ ks \/ held = best /\ per_iteration = true.
Proof.
  intros Hne. unfold pointee, scanned_after.
  destruct per_iteration; simpl; [intros [= <-]; by right|].
  destruct (last ks) as [k|] eqn:Hlast.
  - intros [= <-]. left. apply last_Some in Hlast as [l' ->].
    apply elem_of_app. right. by left.
  - by apply last_None in Hlast.
Qed.

(** A candidate without a usage record ends the scan and is returned,
    whatever the accumulators hold and whatever follows it. *)
Lemma leastUsedLoop_no_record provider w pre k post :
  (forall k', k' ∈ pre -> is_Some (usage_of (store w) provider (config.Name k'))) ->
  usage_of (store w) provider (config.Name k) = None ->
  forall best name minUsage oldest,
    leastUsedLoop provider (pre ++ k :: post) best name minUsage oldest w =
      (Ok (Some k, config.Name k), w).
Proof.
  intros Hpre Hk. induction pre as [|k0 pre IH]; intros best name minUsage oldest.
  - simpl. destruct (attempt_GetUsage_None _ _ _ Hk) as [e He].
    by rewrite (bind_Ok _ _ _ _ _ He).
  - simpl. destruct (Hpre k0) as [u0 Hu0]; [by left|].
    rewrite (bind_Ok _ _ _ _ _ (attempt_GetUsage_Some _ _ _ _ Hu0)).
    assert (Hpre' : forall k', k' ∈ pre ->
              is_Some (usage_of (store w) provider (config.Name k'))).
    { intros k' Hin. apply Hpre. by right. }
    destruct ((minUsage =? -1) || (UsageCount u0 <? minUsage) ||
              (UsageCount u0 =? minUsage) && Before (LastUsed u0) oldest); by apply IH.
Qed.

Lemma best_so_far_ext m provider (S S' : config.APIKey -> Prop) best name minUsage oldest :
  (forall k, S k <-> S' k) ->
  best_so_far m provider S best name minUsage oldest ->
  best_so_far m provider S' best name minUsage oldest.
Proof.
  intros Heq. unfold best_so_far. destruct best as [b|].
  - intros (Hn & Hb & ub & Hu & Hc & Hl & Hnn & Hmin).
    split; [done|]. split; [by apply Heq|]. exists ub. repeat split; try done.
    intros k u Hk. apply Hmin. by apply Heq.
  - intros [Hm Hno]. split; [done|]. intros k Hk. apply (Hno k). by apply Heq.
Qed.

(** When every candidate has a usage record with a non-negative request
    count, the scan keeps the least candidate seen so far in its
    accumulators and in [bestKeyName]; what [bestKey] designates at the end
    is that candidate or the last one scanned, by the loop variable. *)
Lemma leastUsedLoop_records provider w ks :
  (forall k, k ∈ ks -> exists u, usage_of (store w) provider (config.Name k) = Some u /\
                                 0 <= UsageCount u) ->
  forall S scanned best name minUsage oldest,
    (is_Some best -> is_Some scanned) ->
    best_so_far (store w) provider S best name minUsage oldest ->
    exists best' name' minUsage' oldest',
      leastUsedLoop provider ks (pointee scanned best) name minUsage oldest w =
        (Ok (pointee (scanned_after scanned ks) best', name'), w) /\
      best_so_far (store w) provider (fun k => S k \/ k ∈ ks) best' name' minUsage' oldest'.
Proof.
  induction ks as [|key rest IH]; intros Hrec S scanned best name minUsage oldest Hsc Hacc.
  - exists best, name, minUsage, oldest. split; [done|].
    apply (best_so_far_ext _ _ S); [|done].
    intros k. split; [by left|]. intros [?|Hin]; [done|]. by apply elem_of_nil in Hin.
  - destruct (Hrec key) as (u & Hu & Hnn); [by left|].
    assert (Hrec' : forall k, k ∈ rest ->
      exists u, usage_of (store w) provider (config.Name k) = Some u /\ 0 <= UsageCount u).
    { intros k Hin. apply Hrec. by right. }
    cbn [leastUsedLoop]. cbv zeta. rewrite (designate_pointee _ _ _ Hsc).
    rewrite (bind_Ok _ _ _ _ _ (attempt_GetUsage_Some _ _ _ _ Hu)).
    rewrite <- (scanned_after_cons scanned key rest).
    assert (Hstep : exists best1 name1 min1 old1,
      (if (minUsage =? -1) || (UsageCount u <? minUsage) ||
          (UsageCount u =? minUsage) && Before (LastUsed u) oldest
       then leastUsedLoop provider rest (Some key) (config.Name key)
              (UsageCount u) (LastUsed u)
       else leastUsedLoop provider rest (pointee (Some key) best) name minUsage oldest) w =
        leastUsedLoop provider rest (pointee (Some key) best1) name1 min1 old1 w /\
      best_so_far (store w) provider (fun k => S k \/ k = key) best1 name1 min1 old1).
    { destruct ((minUsage =? -1) || (UsageCount u <? minUsage) ||
                (UsageCount u =? minUsage) && Before (LastUsed u) oldest) eqn:Hcond.
      - exists (Some key), (config.Name key), (UsageCount u), (LastUsed u).
        split; [by rewrite pointee_same|]. split; [done|]. split; [by right|].
        exists u. split; [done|]. split; [done|]. split; [done|]. split; [done|].
        intros k uk [Hk | ->] Huk.
        + destruct best as [b|].
          * destruct Hacc as (_ & _ & ub & _ & _ & _ & Hmnn & Hmin).
            specialize (Hmin k uk Hk Huk). unfold lexle, Before in *.
            apply orb_true_iff in Hcond. destruct Hcond as [Hcond | Hcond].
            { apply orb_true_iff in Hcond. destruct Hcond as [Hcond | Hcond]; lia. }
            apply andb_true_iff in Hcond. lia.
          * destruct Hacc as [_ Hno]. by destruct (Hno k).
        + rewrite Hu in Huk. injection Huk as <-. unfold lexle. lia.
      - exists best, name, minUsage, oldest. split; [done|].
        apply orb_false_iff in Hcond. destruct Hcond as [Hcond Hcond3].
        apply orb_false_iff in Hcond. destruct Hcond as [Hcond1 Hcond2].
        destruct best as [b|].
        + destruct Hacc as (Hn & Hb & ub & Hub & Hc & Hl & Hmnn & Hmin).
          split; [done|]. split; [by left|].
          exists ub. split; [done|]. split; [done|]. split; [done|]. split; [done|].
          intros k uk [Hk | ->] Huk; [by apply (Hmin k)|].
          rewrite Hu in Huk. injection Huk as <-. unfold lexle, Before in *.
          apply andb_false_iff in Hcond3. lia.
        + destruct Hacc as [Hm _]. lia. }
    destruct Hstep as (best1 & name1 & min1 & old1 & -> & Hacc1).
    destruct (IH Hrec' _ (Some key) _ _ _ _ (fun _ => ltac:(by eexists)) Hacc1)
      as (best' & name' & min' & old' & Hrun & Hacc').
    exists best', name', min', old'. split; [done|].
    apply (best_so_far_ext _ _ (fun k => (S k \/ k = key) \/ k ∈ rest)); [|done].
    intros k. rewrite elem_of_cons. tauto.
Qed.

Lemma selectLeastUsed_unfold provider ks w :
  ks <> [] ->
  selectLeastUsed provider ks w =
    leastUsedLoop provider ks None "" (-1) (clock w (ticks w)) (after Now w).
Proof.
  intros Hne. unfold selectLeastUsed.
  destruct (len ks =? 0) eqn:Hlen; [by apply len_zero in Hlen|]. done.
Qed.

(** The LeastUsed scan over candidates that all have a usage record. *)
Lemma selectLeastUsed_records provider ks w :
  ks <> [] ->
  (forall k, k ∈ ks -> exists u, usage_of (store w) provider (config.Name k) = Some u /\
                                 0 <= UsageCount u) ->
  exists best ub,
    selectLeastUsed provider ks w =
      (Ok (pointee (last ks) (Some best), config.Name best), after Now w) /\
    best ∈ ks /\
    usage_of (store w) provider (config.Name best) = Some ub /\
    forall k u, k ∈ ks -> usage_of (store w) provider (config.Name k) = Some u ->
      UsageCount ub <= UsageCount u /\
      (UsageCount u = UsageCount ub -> LastUsed ub <= LastUsed u).
Proof.
  intros Hne Hrec. rewrite selectLeastUsed_unfold by done.
  set (w1 := after Now w).
  destruct (leastUsedLoop_records provider w1 ks Hrec (fun _ => False)
              None None "" (-1) (clock w (ticks w)))
    as (best' & name' & min' & old' & Hrun & Hacc).
  { by intros []. }
  { split; [done|]. intros k []. }
  assert (Hnone : pointee None None = None) by (unfold pointee; by destruct per_iteration).
  rewrite Hnone in Hrun. rewrite Hrun. destruct best' as [best|].
  - destruct Hacc as (-> & [[]|Hin] & ub & Hub & Hc & Hl & _ & Hmin).
    exists best, ub. split.
    { unfold scanned_after. destruct (last ks) eqn:Hlast; [done|].
      by apply last_None in Hlast. }
    split; [done|]. split; [done|].
    intros k u Hk Hu. specialize (Hmin k u (or_intror Hk) Hu).
    unfold lexle in Hmin. lia.
  - destruct Hacc as [_ Hno]. destruct ks as [|k0 ks']; [done|].
    destruct (Hno k0). right. by left.
Qed.

(** C7.  On a non-empty candidate list whose usage records have
    non-negative request counts: when every candidate has a usage record,
    the name LeastUsed returns is that of a candidate whose request count
    is the minimum over all candidates, and among the candidates with that
    count one whose last-used time is the oldest; the candidate record
    returned with the name is that same candidate when each iteration has
    its own loop variable (Go 1.22 and later) and the last candidate of the
    list when the iterations share it (before Go 1.22).  A candidate
    without a usage record that is preceded only by candidates with
    records ends the scan and is returned at once, name and record,
    whatever follows it in the list and whatever the loop variable. *)
Theorem least_used_selection provider ks w :
  ks <> [] ->
  (forall k u, k ∈ ks -> usage_of (store w) provider (config.Name k) = Some u ->
               0 <= UsageCount u) ->
  ((forall k, k ∈ ks -> is_Some (usage_of (store w) provider (config.Name k))) ->
   exists best ub held,
     outcome (selectLeastUsed provider ks) w = Ok (Some held, config.Name best) /\
     (per_iteration = true -> held = best) /\
     (per_iteration = false -> last ks = Some held) /\
     best ∈ ks /\
     usage_of (store w) provider (config.Name best) = Some ub /\
     forall k u, k ∈ ks -> usage_of (store w) provider (config.Name k) = Some u ->
       UsageCount ub <= UsageCount u /\
       (UsageCount u = UsageCount ub -> LastUsed ub <= LastUsed u)) /\
  (forall pre k post,
     ks = pre ++ k :: post ->
     (forall k', k' ∈ pre -> is_Some (usage_of (store w) provider (config.Name k'))) ->
     usage_of (store w) provider (config.Name k) = None ->
     outcome (selectLeastUsed provider ks) w = Ok (Some k, config.Name k)).
Proof.
  intros Hne Hnn. split.
  - intros Hall.
    destruct (selectLeastUsed_records provider ks w Hne) as (best & ub & Hrun & Hin & Hub & Hmin).
    { intros k Hin. destruct (Hall k Hin) as [u Hu]. exists u. split; [done|].
      by apply (Hnn k). }
    unfold outcome. rewrite Hrun. simpl fst.
    destruct (last ks) as [l|] eqn:Hlast; [|by apply last_None in Hlast].
    unfold pointee. destruct per_iteration eqn:Hper; simpl.
    + exists best, ub, best. by repeat (split; [done|]).
    + exists best, ub, l. by repeat (split; [done|]).
  - intros pre k post -> Hpre Hk. unfold outcome.
    rewrite selectLeastUsed_unfold by done.
    by rewrite (leastUsedLoop_no_record provider (after Now w) pre k post).
Qed.

End LeastUsed.

(** ** The CostOptimized strategy *)

Section CostOptimized.

Context `{LoopVar}.

(** The scan, started with no candidate or with one already chosen: the
    candidate whose name it returns is the initial one or a later one that
    passed the budget test or has no usage record, and no candidate is left
    at the end exactly when none was given and every candidate of the list
    has a record that fails the budget test.  What [bestKey] designates at
    the end is that candidate or the last one scanned, by the loop
    variable. *)
Lemma costOptimizedLoop_spec provider w ks : forall scanned best name lowest,
  (best = None -> lowest = (-1)%float) ->
  (is_Some best -> is_Some scanned) ->
  exists best' name',
    costOptimizedLoop provider ks (pointee scanned best) name lowest w =
      (Ok (pointee (scanned_after scanned ks) best', name'), w) /\
    (forall b, best' = Some b ->
       (best = Some b /\ name' = name) \/
       (b ∈ ks /\ name' = config.Name b /\
        forall u, usage_of (store w) provider (config.Name b) = Some u ->
                  within_budget b u = true)) /\
    (best' = None <->
     best = None /\
     forall k, k ∈ ks ->
       exists u, usage_of (store w) provider (config.Name k) = Some u /\
                 within_budget k u = false).
Proof.
  induction ks as [|key rest IH]; intros scanned best name lowest Hsentinel Hsc.
  - exists best, name. split; [done|]. split; [by left|].
    split; [|by intros [? _]]. intros ->. split; [done|].
    intros k Hk. by apply elem_of_nil in Hk.
  - cbn [costOptimizedLoop]. cbv zeta. rewrite (designate_pointee _ _ _ Hsc).
    rewrite <- (scanned_after_cons scanned key rest).
    assert (Hkey : is_Some (Some key) -> is_Some (Some key)) by done.
    destruct (usage_of (store w) provider (config.Name key)) as [u|] eqn:Hu.
    + rewrite (bind_Ok _ _ _ _ _ (attempt_GetUsage_Some _ _ _ _ Hu)).
      fold (within_budget key u).
      destruct ((PrimFloat.eqb lowest (-1) || PrimFloat.ltb (DailyCost u) lowest) &&
                within_budget key u) eqn:Hcond.
      * apply andb_true_iff in Hcond. destruct Hcond as [_ Hok].
        destruct (IH (Some key) (Some key) (config.Name key) (DailyCost u))
          as (best' & name' & Hrun & H1 & H2); [done|done|].
        rewrite pointee_same in Hrun. rewrite Hrun.
        exists best', name'. split; [done|]. split.
        -- intros b Hb. right. destruct (H1 b Hb) as [[[= <-] ->] | (Hin & Hn & Hlim)].
           ++ split; [by left|]. split; [done|]. intros u' Hu'. congruence.
           ++ split; [by right|]. done.
        -- split.
           ++ intros Hnone. apply H2 in Hnone. by destruct Hnone.
           ++ intros [_ Hall]. destruct (Hall key) as (u' & Hu' & Hover); [by left|].
              congruence.
      * destruct (IH (Some key) best name lowest Hsentinel)
          as (best' & name' & -> & H1 & H2); [by eexists|].
        exists best', name'. split; [done|]. split.
        -- intros b Hb. destruct (H1 b Hb) as [? | (Hin & Hn & Hlim)]; [by left|].
           right. split; [by right|]. done.
        -- rewrite H2. split.
           ++ intros [-> Hall]. split; [done|]. intros k Hk.
              apply elem_of_cons in Hk. destruct Hk as [-> | Hk]; [|by apply Hall].
              exists u. split; [done|]. rewrite (Hsentinel eq_refl) in Hcond.
              exact Hcond.
           ++ intros [-> Hall]. split; [done|]. intros k Hk. apply Hall. by right.
    + destruct (attempt_GetUsage_None _ _ _ Hu) as [err Herr].
      rewrite (bind_Ok _ _ _ _ _ Herr).
      destruct (IH (Some key) (Some key) (config.Name key) lowest)
        as (best' & name' & Hrun & H1 & H2); [done|done|].
      rewrite pointee_same in Hrun. rewrite Hrun.
      exists best', name'. split; [done|]. split.
      * intros b Hb. right. destruct (H1 b Hb) as [[[= <-] ->] | (Hin & Hn & Hlim)].
        -- split; [by left|]. split; [done|]. intros u' Hu'. congruence.
        -- split; [by right|]. done.
      * split.
        -- intros Hnone. apply H2 in Hnone. by destruct Hnone.
        -- intros [_ Hall]. destruct (Hall key) as (u' & Hu' & _); [by left|]. congruence.
Qed.

(** The scan as [selectCostOptimized] starts it. *)
Lemma selectCostOptimized_scan provider ks w :
  ks <> [] ->
  exists best' name',
    costOptimizedLoop provider ks None "" (-1)%float w =
      (Ok (pointee (last ks) best', name'), w) /\
    (forall b, best' = Some b ->
       b ∈ ks /\ name' = config.Name b /\
       forall u, usage_of (store w) provider (config.Name b) = Some u ->
                 within_budget b u = true) /\
    (best' = None <->
     forall k, k ∈ ks ->
       exists u, usage_of (store w) provider (config.Name k) = Some u /\
                 within_budget k u = false).
Proof.
  intros Hne.
  destruct (costOptimizedLoop_spec provider w ks None None "" (-1)%float)
    as (best' & name' & Hrun & H1 & H2); [done | by intros [] |].
  assert (Hnone : pointee None None = None) by (unfold pointee; by destruct per_iteration).
  rewrite Hnone in Hrun. exists best', name'. split.
  { rewrite Hrun. unfold scanned_after.
    destruct (last ks) eqn:Hlast; [done|]. by apply last_None in Hlast. }
  split.
  - intros b Hb. by destruct (H1 b Hb) as [[? _] | ?].
  - rewrite H2. split; [by intros [_ ?] | by split].
Qed.

Lemma pointee_last_Some ks best :
  ks <> [] -> exists held, pointee (last ks) (Some best) = Some held.
Proof.
  intros Hne. unfold pointee. destruct per_iteration; simpl; [by eexists|].
  destruct (last ks) eqn:Hlast; [by eexists|]. by apply last_None in Hlast.
Qed.

(** CostOptimized never returns the name of a candidate whose recorded
    daily cost is at or over its positive cost limit; the candidate record
    it returns belongs to the list, and is the named candidate's or, when
    the iterations share the loop variable, the last candidate's. *)
Lemma cost_optimized_within_budget provider ks w held name :
  outcome (selectCostOptimized provider ks) w = Ok (Some held, name) ->
  held ∈ ks /\
  exists b,
    b ∈ ks /\ name = config.Name b /\
    (held = b \/ per_iteration = false /\ last ks = Some held) /\
    forall u, usage_of (store w) provider (config.Name b) = Some u -> within_budget b u = true.
Proof.
  unfold outcome, selectCostOptimized.
  destruct (len ks =? 0) eqn:Hlen; [done|].
  assert (Hne : ks <> []).
  { intros ->. by vm_compute in Hlen. }
  destruct (selectCostOptimized_scan provider ks w Hne) as (best' & name' & Hrun & H1 & _).
  rewrite (bind_Ok _ _ _ _ _ Hrun).
  destruct best' as [b|].
  - destruct (H1 b eq_refl) as (Hin & -> & Hlim).
    destruct (pointee_last_Some ks b Hne) as [held' Hheld]. rewrite Hheld. simpl.
    intros [= <- <-]. split.
    + destruct (pointee_spec ks None b held' Hne) as [? | [-> _]]; [|done|done].
      unfold scanned_after. by destruct (last ks).
    + exists b. split; [done|]. split; [done|]. split; [|done].
      unfold pointee in Hheld. destruct per_iteration; simpl in Hheld.
      * left. by injection Hheld.
      * by right.
  - assert (Hnone : pointee (last ks) None = None) by (unfold pointee; by destruct per_iteration).
    rewrite Hnone. done.
Qed.

(** On a non-empty list it fails, with "all keys have exceeded their cost
    limits", exactly when every candidate has a usage record whose daily
    cost is at or over a positive limit. *)
Lemma cost_optimized_fails_iff provider ks w :
  ks <> [] ->
  outcome (selectCostOptimized provider ks) w = Err ErrAllKeysOverCostLimit <->
  forall k, k ∈ ks ->
    exists u, usage_of (store w) provider (config.Name k) = Some u /\
              within_budget k u = false.
Proof.
  intros Hne. unfold outcome, selectCostOptimized.
  destruct (len ks =? 0) eqn:Hlen; [by apply len_zero in Hlen|].
  destruct (selectCostOptimized_scan provider ks w Hne) as (best' & name' & Hrun & _ & H2).
  rewrite (bind_Ok _ _ _ _ _ Hrun).
  destruct best' as [b'|].
  - destruct (pointee_last_Some ks b' Hne) as [held Hheld]. rewrite Hheld. simpl.
    split; [done|]. intros Hall.
    assert (Hnone : Some b' = None) by (by apply H2). done.
  - assert (Hnone : pointee (last ks) None = None) by (unfold pointee; by destruct per_iteration).
    rewrite Hnone. simpl. split; [|done]. intros _. by apply H2.
Qed.

End CostOptimized.

(** ** Resolving the candidates of a provider *)

Section Candidates.

Context `{CryptoLib} `{LoopVar}.

Variable e : error.
Hypothesis e_plain : forall context cause, e <> ErrWrap context cause.

Lemma av_ret {A} (a : A) : avoids e (ret a).
Proof. done. Qed.

Lemma av_panic {A} r : avoids e (@panic A r).
Proof. done. Qed.

Lemma av_fail {A} e' : e' <> e -> avoids e (@fail A e').
Proof. intros Hne w. unfold outcome, fail. simpl. congruence. Qed.

Lemma av_bind {A B} (m : M A) (k : A -> M B) :
  avoids e m -> (forall a, avoids e (k a)) -> avoids e (bind m k).
Proof.
  intros Hm Hk w. specialize (Hm w). unfold outcome, bind in *.
  destruct (m w) as [[a | e' | r] w']; simpl in *.
  - apply (Hk a w').
  - intros [= ->]. by apply Hm.
  - done.
Qed.

Lemma av_attempt {A} (m : M A) : avoids e (attempt m).
Proof. intros w. unfold outcome, attempt. by destruct (m w) as [[a | e' | r] w']. Qed.

Lemma av_wrapping {A} context (m : M A) : avoids e (wrapping context m).
Proof.
  intros w. unfold outcome, wrapping.
  destruct (m w) as [[a | e' | r] w']; simpl; try done.
  intros [= He]. by destruct (e_plain context e').
Qed.

Lemma av_get_rotator : avoids e get_rotator.
Proof. done. Qed.

Lemma av_put_rotator kr : avoids e (put_rotator kr).
Proof. done. Qed.

Lemma av_Now : avoids e Now.
Proof. done. Qed.

Ltac avoid_leaf :=
  first [ apply av_ret | apply av_panic | apply av_attempt | apply av_wrapping
        | apply av_get_rotator | apply av_put_rotator | apply av_Now ].

(** One step through a method body; a [fail] must raise another error,
    and [callee] closes the calls of other methods. *)
Ltac avoid_step callee :=
  match goal with
  | |- avoids _ (bind _ _) => apply av_bind; [| intros ?]
  | |- avoids _ (fail _) => apply av_fail; solve [auto | discriminate]
  | |- avoids _ (match ?x with _ => _ end) => destruct x
  | |- avoids _ (if ?b then _ else _) => destruct b
  | |- avoids _ _ => first [ avoid_leaf | callee ]
  end.

Ltac avoid_with callee := repeat (avoid_step callee).

Ltac avoid := avoid_with fail.

Lemma av_index {A} (l : list A) idx : avoids e (index l idx).
Proof. unfold index. avoid. Qed.

Lemma av_set_rotationIdx provider idx : avoids e (set_rotationIdx provider idx).
Proof. unfold set_rotationIdx. avoid. Qed.

Lemma av_selectRoundRobin provider ks : avoids e (selectRoundRobin provider ks).
Proof.
  unfold selectRoundRobin.
  avoid_with ltac:(first [apply av_index | apply av_set_rotationIdx]).
Qed.

Lemma av_updateLastUsed provider keyName : avoids e (updateLastUsed provider keyName).
Proof. unfold updateLastUsed. avoid. Qed.

Lemma av_fallbackKeys provider excludeKey ks :
  avoids e (fallbackKeys provider excludeKey ks).
Proof. induction ks as [|key rest IH]; simpl; avoid_with ltac:(apply IH). Qed.

Lemma av_getFallbackKey provider excludeKey ks :
  ErrNoHealthyFallback <> e -> ErrFallbackSelectionFailed <> e ->
  avoids e (getFallbackKey provider excludeKey ks).
Proof.
  intros H1 H2. unfold getFallbackKey.
  avoid_with ltac:(first [ apply av_fallbackKeys | apply av_selectRoundRobin
                         | apply av_updateLastUsed ]).
Qed.

(** Once the candidate list is known to be non-empty, [GetNextKey] can
    only fail with one of its later errors. *)
Lemma GetNextKey_avoids provider w :
  (forall p, ErrNoSuitableKey p <> e) ->
  (forall k, ErrUnhealthyNoFallback k <> e) ->
  ErrNoHealthyFallback <> e -> ErrFallbackSelectionFailed <> e ->
  (forall pc, config.Providers (config (rotator w)) !! provider = Some pc ->
              config.GetEnabledKeys pc = [] -> ErrNoEnabledKeys provider <> e) ->
  outcome (GetNextKey provider) w <> Err e.
Proof.
  intros H1 H2 H3 H4 H5. unfold GetNextKey.
  unfold outcome. rewrite (bind_Ok _ _ w (rotator w) w) by done.
  unfold config.GetProvider.
  destruct (config.Providers (config (rotator w)) !! provider) as [pc|] eqn:Hpc.
  - rewrite (bind_Ok _ _ w pc w) by done.
    destruct (len (config.GetEnabledKeys pc) =? 0) eqn:Hlen.
    + apply len_zero in Hlen. unfold fail. simpl. intros [= He].
      by apply (H5 pc eq_refl Hlen).
    + match goal with |- fst (?T w) <> _ => cut (avoids e T); [intros Hav; apply Hav|] end.
      avoid_with ltac:(first [ by apply av_getFallbackKey | apply av_updateLastUsed ]).
  - unfold bind, wrapping, lift. simpl. intros [= He]. by destruct (e_plain "provider not found" (ErrProviderNotFound provider)).
Qed.

End Candidates.

Section CandidatesOfConfig.

Context `{CryptoLib} `{LoopVar}.

Lemma GetEnabledKeys_spec pc k :
  k ∈ config.GetEnabledKeys pc <->
  k ∈ config.APIKeys pc /\ config.Enabled k = true /\
  config.Key k <> "" /\ config.Name k <> "" /\
  PrimFloat.ltb 0 (config.CostLimit k) &&
    PrimFloat.leb (config.CostLimit k) (config.CostUsed k) = false.
Proof.
  unfold config.GetEnabledKeys. rewrite !list_elem_of_In, filter_In.
  unfold config.CanUse, config.IsValid.
  destruct (config.Enabled k); simpl; [|intuition discriminate].
  destruct (String.eqb_spec (config.Key k) ""); simpl; [intuition discriminate|].
  destruct (String.eqb_spec (config.Name k) ""); simpl; [intuition discriminate|].
  destruct (PrimFloat.ltb 0 (config.CostLimit k) &&
            PrimFloat.leb (config.CostLimit k) (config.CostUsed k));
    simpl; intuition discriminate.
Qed.

Lemma GetNextKey_no_candidates provider w pc :
  config.Providers (config (rotator w)) !! provider = Some pc ->
  outcome (GetNextKey provider) w = Err (ErrNoEnabledKeys provider) <->
  config.GetEnabledKeys pc = [].
Proof.
  intros Hpc. split.
  - intros Hout. destruct (config.GetEnabledKeys pc) as [|k ks] eqn:Hks; [done|].
    exfalso. revert Hout. apply GetNextKey_avoids; try done.
    intros pc' Hpc'. rewrite Hpc in Hpc'. injection Hpc' as <-. by rewrite Hks.
  - intros Hks. unfold outcome, GetNextKey.
    rewrite (bind_Ok _ _ w (rotator w) w) by done.
    unfold config.GetProvider. rewrite Hpc.
    rewrite (bind_Ok _ _ w pc w) by done.
    by rewrite Hks.
Qed.

(** The candidates of a provider as the code resolves them: the
    configured credentials whose enabled flag is set, whose key and name
    are not empty, and whose own CostUsed field (the field of the
    configuration record) is not at or over a positive cost limit.
    GetNextKey fails with "no enabled keys" if and only if that list is
    empty, and whether it fails so depends on the configuration alone,
    not on the usage ledger of the key store. *)
Lemma candidates_from_config provider w pc :
  config.Providers (config (rotator w)) !! provider = Some pc ->
  (forall k,
     k ∈ config.GetEnabledKeys pc <->
     k ∈ config.APIKeys pc /\ config.Enabled k = true /\
     config.Key k <> "" /\ config.Name k <> "" /\
     PrimFloat.ltb 0 (config.CostLimit k) &&
       PrimFloat.leb (config.CostLimit k) (config.CostUsed k) = false) /\
  (outcome (GetNextKey provider) w = Err (ErrNoEnabledKeys provider) <->
   config.GetEnabledKeys pc = []) /\
  (forall w', config (rotator w') = config (rotator w) ->
     (outcome (GetNextKey provider) w' = Err (ErrNoEnabledKeys provider) <->
      outcome (GetNextKey provider) w = Err (ErrNoEnabledKeys provider))).
Proof.
  intros Hpc. split; [intros k; apply GetEnabledKeys_spec|].
  split; [by apply GetNextKey_no_candidates|].
  intros w' Hcfg.
  rewrite (GetNextKey_no_candidates provider w pc Hpc).
  apply GetNextKey_no_candidates. by rewrite Hcfg.
Qed.

End CandidatesOfConfig.

(** ** The rotation engine and the ledger on concrete inputs *)

Section Scenarios.

Import Demo.

(** A cursor at or beyond the length of the list it is used on makes
    round-robin index out of range. *)
Lemma round_robin_stale_cursor provider ks w :
  ks <> [] -> len ks <= cursor w provider ->
  outcome (selectRoundRobin provider ks) w = Panic index_panic.
Proof.
  intros Hne Hc. unfold outcome.
  destruct (selectRoundRobin_run provider ks w Hne) as (w1 & -> & _).
  simpl. destruct (cursor w provider <? len ks) eqn:Hlt; [lia|].
  by rewrite andb_false_r.
Qed.

Lemma bind_Panic {A B} (m : M A) (k : A -> M B) w r :
  outcome m w = Panic r -> outcome (bind m k) w = Panic r.
Proof.
  unfold outcome, bind.
  destruct (m w) as [[a | e | r'] w']; simpl; intros Hm;
    [discriminate | discriminate | by injection Hm as ->].
Qed.

(** Whenever round-robin has just returned the first of two candidates and
    that one is unhealthy while the other is healthy, the fallback panics:
    the survivor list has one element and the cursor is 1. *)
Lemma fallback_after_round_robin `{CryptoLib} provider pc w a b :
  config.Providers (config (rotator w)) !! provider = Some pc ->
  config.Strategy (config.Rotation pc) = config.RotationRoundRobin ->
  config.HealthCheck (config.Rotation pc) = true ->
  config.FallbackEnabled (config.Rotation pc) = true ->
  config.GetEnabledKeys pc = [a; b] ->
  config.Name a <> config.Name b ->
  cursor w provider = 0 ->
  health_of (store w) provider (config.Name a) = Some false ->
  health_of (store w) provider (config.Name b) = Some true ->
  outcome (GetNextKey provider) w = Panic index_panic.
Proof.
  intros Hpc Hrr Hhc Hfb Hks Hab Hc Ha Hb.
  destruct (selectRoundRobin_run provider [a; b] w) as (w1 & Hrun & Hst1 & _ & Hidx1); [done|].
  rewrite Hc in Hrun, Hidx1. simpl in Hrun.
  assert (Hc1 : cursor w1 provider = 1).
  { unfold cursor. rewrite Hidx1, lookup_insert_eq. done. }
  unfold outcome, GetNextKey.
  rewrite (bind_Ok _ _ w (rotator w) w) by done.
  unfold config.GetProvider. rewrite Hpc.
  rewrite (bind_Ok _ _ w pc w) by done.
  rewrite Hks, Hrr, Hhc, Hfb. simpl (len _ =? 0). cbv iota.
  rewrite (bind_Ok _ _ w (Some a, config.Name a) w1) by (by apply wrapping_Ok).
  rewrite (bind_Ok _ _ w1 false w1).
  2:{ apply wrapping_Ok, health_of_IsHealthy. by rewrite Hst1. }
  simpl. unfold getFallbackKey.
  assert (Hfallback : fallbackKeys provider (config.Name a) [a; b] w1 = (Ok [b], w1)).
  { simpl. rewrite String.eqb_refl. simpl.
    destruct (String.eqb_spec (config.Name b) (config.Name a)) as [Heq | _]; [by destruct Hab|].
    simpl. unfold bind. rewrite attempt_IsHealthy_run.
    rewrite Hst1. destruct (health_of_Some _ _ _ _ Hb) as (ph & -> & ->). done. }
  rewrite (bind_Ok _ _ _ _ _ Hfallback). simpl (len _ =? 0). cbv iota.
  apply (bind_Panic (selectRoundRobin provider [b])).
  apply round_robin_stale_cursor; [done|]. rewrite Hc1. unfold len. simpl. lia.
Qed.

(** C1.  Two enabled credentials A and B, RoundRobin strategy, health
    checking and fallback on, a fresh rotator, A unhealthy and B healthy:
    the primary selection returns A and leaves the cursor at 1; the
    fallback then indexes the one-element survivor list [B] at 1 and
    GetNextKey panics instead of returning B.  Under the Single strategy,
    where the cursor is still 0, the same scenario returns B.  This is so
    for either semantics of the loop variable. *)
Theorem fallback_indexes_out_of_range (loopVar : LoopVar) :
  health_of (store (primary_unhealthy config.RotationRoundRobin)) "openai" "A" = Some false /\
  health_of (store (primary_unhealthy config.RotationRoundRobin)) "openai" "B" = Some true /\
  outcome (GetNextKey "openai") (primary_unhealthy config.RotationRoundRobin)
    = Panic index_panic /\
  selected_name (outcome (GetNextKey "openai") (primary_unhealthy config.RotationSingle))
    = Some "B".
Proof. destruct loopVar as [[|]]; vm_compute; done. Qed.

(** The daily cost after an update whose two clock readings fall on the
    same day: the previous daily cost plus the cost, whatever the
    last-used date of the record was. *)
Lemma UpdateUsage_same_day provider keyName tokens cost w u :
  usage_of (store w) provider keyName = Some u ->
  Day (clock w (ticks w)) = Day (clock w (S (ticks w))) ->
  exists u', usage_of (store (after (UpdateUsage provider keyName tokens cost) w))
               provider keyName = Some u' /\
             DailyCost u' = (DailyCost u + cost)%float /\
             LastUsed u' = clock w (ticks w).
Proof.
  intros Hu Hday. destruct (usage_of_Some _ _ _ _ Hu) as (pu & Hpu & Hk).
  unfold after, UpdateUsage, bind, get_store, put_store, Now. simpl.
  rewrite Hpu, Hk. simpl. eexists. split.
  - unfold usage_of. simpl. rewrite lookup_insert_eq. simpl.
    by rewrite lookup_insert_eq.
  - simpl. rewrite Hday, Z.eqb_refl. done.
Qed.

(** C2.  Credential A was last used on 1 January with a daily cost of 10;
    UpdateUsage is called on 2 January with 100 tokens and a cost of 3.
    The request count, the tokens, the cumulative cost and the last-used
    time are updated as specified, but the daily cost becomes 13, not 3:
    the date comparison reads the last-used field after it has been
    overwritten with the current time. *)
Theorem rollover_does_not_reset :
  usage_of (store used_yesterday) "openai" "A" =
    Some {| LastUsed := jan1; UsageCount := 1; TokensUsed := 100; CostUsed := 10%float;
            DailyCost := 10%float; ErrorCount := 0; LastError := "" |} /\
  Day jan1 <> Day jan2 /\
  clock used_yesterday (ticks used_yesterday) = jan2 /\
  usage_of (store (after (UpdateUsage "openai" "A" 100 3%float) used_yesterday))
           "openai" "A" =
    Some {| LastUsed := jan2; UsageCount := 2; TokensUsed := 200; CostUsed := 13%float;
            DailyCost := 13%float; ErrorCount := 0; LastError := "" |}.
Proof. vm_compute. repeat split; done. Qed.

(** C4.  Candidates A (no usage record) and B (daily cost 5, no limit):
    CostOptimized returns B, although the candidate without a record is
    meant to count as the lowest cost; LeastUsed on the same input
    returns A.  This is so for either semantics of the loop variable. *)
Theorem cost_optimized_passes_over_unrecorded (loopVar : LoopVar) :
  usage_of (store only_B_recorded) "openai" "A" = None /\
  DailyCost <$> usage_of (store only_B_recorded) "openai" "B" = Some 5%float /\
  outcome (selectCostOptimized "openai" [keyA; keyB]) only_B_recorded
    = Ok (Some keyB, "B") /\
  outcome (selectLeastUsed "openai" [keyA; keyB]) only_B_recorded
    = Ok (Some keyA, "A").
Proof. destruct loopVar as [[|]]; vm_compute; repeat split; done. Qed.

(** C5.  Credential A has a daily cost limit of 10 and the ledger of the
    key store shows a daily cost of 20 for it, so the candidate list in
    the words of the specification is empty and GetNextKey should fail
    with "no enabled keys".  The cost test of CanUse, which its comment
    calls the check of the daily cost limit, reads the CostUsed field of
    the configuration record: that field is 0, nothing writes it, and the
    ledger is not consulted.  The candidate list of the code still holds
    A, and GetNextKey returns A under the RoundRobin, LeastUsed, Random
    and Single strategies.  Only CostOptimized, whose scan tests the
    ledger's daily cost against the same limit, refuses A, and then with
    another error than the one specified.  This is so for either
    semantics of the loop variable. *)
Theorem ledger_over_limit_still_selected (loopVar : LoopVar) :
  DailyCost <$> usage_of (store over_budget) "openai" "A" = Some 20%float /\
  config.CostLimit keyA10 = 10%float /\
  config.CostUsed keyA10 = 0%float /\
  ledger_candidates (store over_budget) "openai" over_budget_provider = [] /\
  config.GetEnabledKeys over_budget_provider = [keyA10] /\
  selected_name (outcome (GetNextKey "openai") over_budget) = Some "A" /\
  selected_name (outcome (GetNextKey "openai")
                   (over_budget_under config.RotationRoundRobin)) = Some "A" /\
  selected_name (outcome (GetNextKey "openai")
                   (over_budget_under config.RotationLeastUsed)) = Some "A" /\
  selected_name (outcome (GetNextKey "openai")
                   (over_budget_under config.RotationRandom)) = Some "A" /\
  outcome (GetNextKey "openai") (over_budget_under config.RotationCostOptimized)
    = Err (ErrWrap "key selection failed" ErrAllKeysOverCostLimit).
Proof. destruct loopVar as [[|]]; vm_compute; repeat split; done. Qed.

End Scenarios.

(** ** The statements at concrete inputs *)

Section Instances.

Import Demo.

Lemma length_tag g nonce plaintext : length (tag g nonce plaintext) = 16%nat.
Proof. unfold tag. apply length_resize. Qed.

Lemma toy_laws : @CryptoLaws toy.
Proof.
  split.
  - intros g nonce plaintext _.
    change (toy_Open g nonce (plaintext ++ tag g nonce plaintext) = Ok plaintext).
    unfold toy_Open. rewrite length_app, length_tag.
    replace (length plaintext + 16 - 16)%nat with (length plaintext) by lia.
    rewrite take_app_length. unfold bytes_eqb. by rewrite bool_decide_eq_true_2.
  - intros data.
    change (Ok (String.list_byte_of_string (String.string_of_list_byte data)) = Ok data).
    by rewrite String.list_byte_of_string_of_list_byte.
  - intros g nonce sealed plaintext.
    change (toy_Open g nonce sealed = Ok plaintext ->
            sealed = plaintext ++ tag g nonce plaintext).
    unfold toy_Open, bytes_eqb.
    case_bool_decide as Heq; [|done]. intros [= <-]. exact Heq.
Qed.

Lemma two_candidates (P : config.APIKey -> Prop) :
  P keyA -> P keyB -> forall k, k ∈ [keyA; keyB] -> P k.
Proof.
  intros HA HB k Hk. rewrite !elem_of_cons in Hk.
  destruct Hk as [-> | [-> | Hk]]; [done | done |]. by apply elem_of_nil in Hk.
Qed.

Lemma round_robin_cycle_witness :
  selected_name <$> fst (calls 2 "openai" all_healthy) = [Some "A"; Some "B"] /\
  selected_name <$> fst (calls 2 "openai" all_healthy) ≡ₚ [Some "A"; Some "B"] /\
  (selected_name <$> fst (calls 3 "openai" all_healthy)) !! 2%nat =
    (selected_name <$> fst (calls 3 "openai" all_healthy)) !! 0%nat /\
  forall i, cursor (snd (calls (S i) "openai" all_healthy)) "openai" =
    (cursor (snd (calls i "openai" all_healthy)) "openai" + 1) mod 2.
Proof.
  apply (round_robin_cycle "openai"
           (provider config.RotationRoundRobin true false [keyA; keyB]) all_healthy).
  - vm_compute. reflexivity.
  - reflexivity.
  - discriminate.
  - vm_compute. discriminate.
  - vm_compute. split; [discriminate | reflexivity].
  - right. apply two_candidates; vm_compute; reflexivity.
  - apply two_candidates; eexists; vm_compute; reflexivity.
Defined.

Lemma six_errors_flip_health_witness :
  health_of (store (after_errors "openai" "A" (replicate 5 "timeout") all_healthy))
            "openai" "A" = Some true /\
  health_of (store (after_errors "openai" "A" (replicate 6 "timeout") all_healthy))
            "openai" "A" = Some false /\
  health_of (store (after (SetHealth "openai" "A" true)
                          (after_errors "openai" "A" (replicate 6 "timeout") all_healthy)))
            "openai" "A" = Some true.
Proof.
  destruct (six_errors_flip_health "openai" "A" all_healthy (zeroUsage jan1))
    as (_ & Hfew & Hsix).
  - vm_compute. reflexivity.
  - reflexivity.
  - vm_compute. reflexivity.
  - split; [apply Hfew; simpl; lia|].
    destruct (Hsix (replicate 6 "timeout") eq_refl) as (Hfalse & Htrue & _).
    split; assumption.
Defined.

Lemma least_used_selection_witness :
  (exists best ub held,
     outcome (selectLeastUsed "openai" [keyA; keyB]) A3_B1 = Ok (Some held, config.Name best) /\
     (per_iteration = true -> held = best) /\
     (per_iteration = false -> last [keyA; keyB] = Some held) /\
     best ∈ [keyA; keyB] /\
     usage_of (store A3_B1) "openai" (config.Name best) = Some ub /\
     forall k u, k ∈ [keyA; keyB] ->
       usage_of (store A3_B1) "openai" (config.Name k) = Some u ->
       UsageCount ub <= UsageCount u /\
       (UsageCount u = UsageCount ub -> LastUsed ub <= LastUsed u)) /\
  (exists best held,
     outcome (@selectLeastUsed shared_variable "openai" [keyA; keyB]) B_used_once
       = Ok (Some held, config.Name best) /\
     config.Name best = "A" /\ held = keyB).
Proof.
  split.
  - apply (least_used_selection "openai" [keyA; keyB] A3_B1).
    + discriminate.
    + intros k u Hk. revert k Hk u.
      apply (two_candidates (fun k => forall u,
               usage_of (store A3_B1) "openai" (config.Name k) = Some u ->
               0 <= UsageCount u));
        intros u; vm_compute; intros [= <-]; discriminate.
    + apply two_candidates; eexists; vm_compute; reflexivity.
  - destruct (@least_used_selection shared_variable "openai" [keyA; keyB] B_used_once)
      as [Hall _].
    + discriminate.
    + intros k u Hk. revert k Hk u.
      apply (two_candidates (fun k => forall u,
               usage_of (store B_used_once) "openai" (config.Name k) = Some u ->
               0 <= UsageCount u));
        intros u; vm_compute; intros [= <-]; discriminate.
    + destruct Hall as (best & ub & held & Hrun & _ & Hlast & _).
      { apply two_candidates; eexists; vm_compute; reflexivity. }
      exists best, held. split; [exact Hrun|].
      specialize (Hlast eq_refl). injection Hlast as <-. split; [|reflexivity].
      vm_compute in Hrun. injection Hrun as Hname. exact (eq_sym Hname).
Defined.

Lemma seal_unseal_witness :
  exists c,
    outcome (Encrypt (NewKeyEncryptor "passphrase") "sk-a") sealed_world = Ok c /\
    Decrypt (NewKeyEncryptor "passphrase") c = Ok "sk-a".
Proof.
  destruct (@seal_unseal toy toy_laws (NewKeyEncryptor "passphrase")
              (key (NewKeyEncryptor "passphrase")) (key (NewKeyEncryptor "passphrase")))
    as (Hround & _ & _).
  - vm_compute. reflexivity.
  - reflexivity.
  - apply (Hround "sk-a" sealed_world (replicate 12 x00)); reflexivity.
Defined.

Lemma store_maps_keyed_alike_witness :
  aligned (store (run_ops [OpStore "openai" "A" "sk-a"; OpStore "openai" "B" "sk-b";
                           OpDelete "openai" "A"] sealed_world)) /\
  (outcome (StoreKey "openai" "C" "sk-c")
     (run_ops [OpStore "openai" "A" "sk-a"; OpStore "openai" "B" "sk-b";
               OpDelete "openai" "A"] sealed_world) = Ok tt ->
   usage_of (store (after (StoreKey "openai" "C" "sk-c")
                      (run_ops [OpStore "openai" "A" "sk-a"; OpStore "openai" "B" "sk-b";
                                OpDelete "openai" "A"] sealed_world)))
     "openai" "C" =
     Some {| LastUsed := jan1; UsageCount := 0; TokensUsed := 0; CostUsed := 0%float;
             DailyCost := 0%float; ErrorCount := 0; LastError := "" |}).
Proof.
  destruct (store_maps_keyed_alike
              [OpStore "openai" "A" "sk-a"; OpStore "openai" "B" "sk-b"; OpDelete "openai" "A"]
              sealed_world) as (Hal & _ & Hstore & _).
  - apply aligned_empty.
  - split; [exact Hal|]. intros Hok.
    destruct (proj1 (Hstore "openai" "C" "sk-c") Hok) as (storedKey & _ & Hu & _).
    exact Hu.
Defined.

End Instances.

(** ** The anatomy of a selection *)

Section Anatomy.

Context `{CryptoLib} `{LoopVar}.

Lemma bind_Ok_inv {A B} (m : M A) (k : A -> M B) w b w' :
  bind m k w = (Ok b, w') -> exists a w1, m w = (Ok a, w1) /\ k a w1 = (Ok b, w').
Proof.
  unfold bind. destruct (m w) as [[a | e | r] w1]; try done.
  intros Hk. by exists a, w1.
Qed.

Lemma wrapping_Ok_inv {A} context (m : M A) w a w' :
  wrapping context m w = (Ok a, w') -> m w = (Ok a, w').
Proof. unfold wrapping. by destruct (m w) as [[a' | e | r] w1]. Qed.

Lemma index_Ok_inv {A} (l : list A) idx w a w' :
  index l idx w = (Ok a, w') -> l !! Z.to_nat idx = Some a /\ w' = w.
Proof.
  rewrite index_run.
  destruct ((0 <=? idx) && (idx <? len l)); [|done].
  destruct (l !! Z.to_nat idx); [|done]. by intros [= -> ->].
Qed.

(** The filter of [getFallbackKey] is a read of the store. *)
Lemma fallbackKeys_run provider excludeKey ks w :
  fallbackKeys provider excludeKey ks w =
    (Ok (survivors (store w) provider excludeKey ks), w).
Proof.
  induction ks as [|key rest IH]; [done|].
  unfold survivors. simpl.
  destruct (String.eqb (config.Name key) excludeKey); simpl; [exact IH|].
  unfold bind at 1. rewrite attempt_IsHealthy_run.
  unfold bind at 1. rewrite IH. unfold ret, survivors, health_of.
  destruct (health (store w) !! provider) as [ph|]; simpl; [|done].
  destruct (ph !! config.Name key) as [[]|]; simpl; done.
Qed.

Lemma survivors_spec m provider excludeKey ks k :
  k ∈ survivors m provider excludeKey ks <->
  k ∈ ks /\ config.Name k <> excludeKey /\
  health_of m provider (config.Name k) = Some true.
Proof.
  unfold survivors. rewrite !list_elem_of_In, filter_In, andb_true_iff.
  rewrite negb_true_iff, bool_decide_eq_true.
  destruct (String.eqb_spec (config.Name k) excludeKey); intuition congruence.
Qed.

(** Round-robin returns an element of the list it is given. *)
Lemma selectRoundRobin_Ok_inv provider ks w o name w1 :
  selectRoundRobin provider ks w = (Ok (o, name), w1) ->
  store w1 = store w /\
  (ks = [] /\ o = None \/ exists k, o = Some k /\ k ∈ ks /\ name = config.Name k).
Proof.
  destruct ks as [|k0 ks'].
  - unfold selectRoundRobin. simpl. intros [= <- <- <-]. split; [done|]. by left.
  - destruct (selectRoundRobin_run provider (k0 :: ks') w) as (w1' & -> & Hst & _); [done|].
    destruct (if (0 <=? cursor w provider) && (cursor w provider <? len (k0 :: ks'))
              then (k0 :: ks') !! Z.to_nat (cursor w provider) else None) as [k|] eqn:Hk;
      [|done].
    intros [= <- <- <-]. split; [done|]. right. exists k. split; [done|]. split; [|done].
    destruct ((0 <=? cursor w provider) && (cursor w provider <? len (k0 :: ks')));
      [|done].
    by eapply list_elem_of_lookup_2.
Qed.

Lemma last_elem_of {A} (l : list A) x : last l = Some x -> x ∈ l.
Proof.
  intros Hlast. apply last_Some in Hlast as [l' ->].
  apply elem_of_app. right. by left.
Qed.

(** The LeastUsed scan returns a name and a candidate record.  The name is
    the one it was given or that of a candidate of the list; the record is
    the named candidate's or, when the iterations share the loop variable
    and the scan ran to the end, that of the last candidate of the list. *)
Lemma leastUsedLoop_inv provider w ks : forall best name minUsage oldest,
  exists held name',
    leastUsedLoop provider ks best name minUsage oldest w = (Ok (held, name'), w) /\
    forall h, held = Some h ->
      exists b,
        (best = Some b /\ name' = name /\
         (h = b /\ (ks = [] \/ per_iteration = true) \/
          per_iteration = false /\ last ks = Some h)) \/
        (b ∈ ks /\ name' = config.Name b /\
         (h = b \/ per_iteration = false /\ last ks = Some h)).
Proof.
  induction ks as [|key rest IH]; intros best name minUsage oldest.
  - exists best, name. split; [done|]. intros h ->. exists h. left.
    split; [done|]. split; [done|]. left. split; [done|]. by left.
  - cbn [leastUsedLoop]. cbv zeta.
    destruct (attempt_GetUsage_run provider (config.Name key) w) as [r Hr].
    rewrite (bind_Ok _ _ _ _ _ Hr). destruct r as [e | u].
    + exists (Some key), (config.Name key). split; [done|].
      intros h [= <-]. exists key. right. split; [by left|]. split; [done|]. by left.
    + destruct ((minUsage =? -1) || (UsageCount u <? minUsage) ||
                (UsageCount u =? minUsage) && Before (LastUsed u) oldest).
      * destruct (IH (Some key) (config.Name key) (UsageCount u) (LastUsed u))
          as (held & name' & -> & Hb).
        exists held, name'. split; [done|]. intros h Hh.
        destruct (Hb h Hh) as [b [([= <-] & -> & Hc) | (Hin & -> & Hc)]].
        -- exists key. right. split; [by left|]. split; [done|].
           destruct Hc as [[-> _] | [Hs Hl]]; [by left|].
           right. split; [done|]. by rewrite last_cons, Hl.
        -- exists b. right. split; [by right|]. split; [done|].
           destruct Hc as [-> | [Hs Hl]]; [by left|].
           right. split; [done|]. by rewrite last_cons, Hl.
      * destruct (IH (designate key best) name minUsage oldest)
          as (held & name' & -> & Hb).
        exists held, name'. split; [done|]. intros h Hh.
        destruct (Hb h Hh) as [b [(Hd & -> & Hc) | (Hin & -> & Hc)]].
        -- unfold designate in Hd. destruct per_iteration eqn:Hper.
           ++ exists b. left. split; [done|]. split; [done|].
              destruct Hc as [[-> _] | [[=] _]]. left. split; [done|]. by right.
           ++ destruct best as [b0|]; [|done]. injection Hd as <-.
              exists b0. left. split; [done|]. split; [done|]. right. split; [done|].
              destruct Hc as [[-> [-> | [=]]] | [_ Hl]]; [done|].
              by rewrite last_cons, Hl.
        -- exists b. right. split; [by right|]. split; [done|].
           destruct Hc as [-> | [Hs Hl]]; [by left|].
           right. split; [done|]. by rewrite last_cons, Hl.
Qed.

(** Whatever the strategy, a selection carries the name of one of the
    candidates and the record of one of the candidates, and the store is as
    before.  The record is the named candidate's, except after a scan with
    a shared loop variable, where it can be the last candidate's. *)
Lemma select_with_Ok_inv s provider ks w held name w1 :
  select_with s provider ks w = (Ok (Some held, name), w1) ->
  held ∈ ks /\ store w1 = store w /\
  exists k, k ∈ ks /\ name = config.Name k /\
    (held = k \/ per_iteration = false /\ scans s = true /\ last ks = Some held).
Proof.
  intros Hsel.
  assert (Hrr : selectRoundRobin provider ks w = (Ok (Some held, name), w1) ->
                held ∈ ks /\ store w1 = store w /\
                exists k, k ∈ ks /\ name = config.Name k /\ held = k).
  { intros Hrun. destruct (selectRoundRobin_Ok_inv _ _ _ _ _ _ Hrun) as
      [Hst [[_ [=]] | (k' & [= <-] & Hin & ->)]].
    split; [done|]. split; [done|]. by exists held. }
  assert (Hsame : (held ∈ ks /\ store w1 = store w /\
                   exists k, k ∈ ks /\ name = config.Name k /\ held = k) ->
                  held ∈ ks /\ store w1 = store w /\
                  exists k, k ∈ ks /\ name = config.Name k /\
                    (held = k \/ per_iteration = false /\ scans s = true /\
                                 last ks = Some held)).
  { intros (Hin & Hst & k & Hk & Hn & Hh). split; [done|]. split; [done|].
    exists k. split; [done|]. split; [done|]. by left. }
  destruct s; simpl in Hsel; try by apply Hsame, Hrr.
  - (* least used *)
    unfold selectLeastUsed in Hsel. destruct (len ks =? 0); [done|].
    apply bind_Ok_inv in Hsel as (now & w0 & Hnow & Hloop).
    injection Hnow as <- <-.
    destruct (leastUsedLoop_inv provider (after Now w) ks None "" (-1) (clock w (ticks w)))
      as (held' & name' & Hrun & Hb).
    unfold after in Hrun. simpl in Hrun. rewrite Hrun in Hloop.
    injection Hloop as -> -> <-.
    destruct (Hb held eq_refl) as [b [([=] & _) | (Hin & -> & Hc)]].
    split; [|split; [done|]].
    + destruct Hc as [-> | [_ Hl]]; [done|]. by apply last_elem_of.
    + exists b. split; [done|]. split; [done|].
      destruct Hc as [-> | [Hs Hl]]; [by left|]. right. by repeat split.
  - (* cost optimized *)
    pose proof (ps_selectCostOptimized provider ks w) as Hst. unfold after in Hst.
    rewrite Hsel in Hst.
    destruct (cost_optimized_within_budget provider ks w held name)
      as (Hin & b & Hb & -> & Hc & _); [unfold outcome; by rewrite Hsel|].
    split; [done|]. split; [done|]. exists b. split; [done|]. split; [done|].
    destruct Hc as [-> | [Hs Hl]]; [by left|]. right. by repeat split.
  - (* random *)
    apply Hsame.
    unfold selectRandom in Hsel. destruct (len ks =? 0); [done|].
    apply bind_Ok_inv in Hsel as (idx & w0 & Hidx & Hsel).
    apply bind_Ok_inv in Hsel as (k' & w2 & Hk & Hret).
    apply index_Ok_inv in Hk as [Hk ->]. injection Hret as <- <- <-.
    pose proof (ps_Intn (len ks) w) as Hst. unfold after in Hst. rewrite Hidx in Hst.
    split; [by eapply list_elem_of_lookup_2|]. split; [done|].
    eexists. split; [by eapply list_elem_of_lookup_2|]. done.
  - (* single *)
    apply Hsame.
    unfold selectSingle in Hsel. destruct (len ks =? 0); [done|].
    apply bind_Ok_inv in Hsel as (k' & w2 & Hk & Hret).
    apply index_Ok_inv in Hk as [Hk ->]. injection Hret as <- <- <-.
    split; [by eapply list_elem_of_lookup_2|]. split; [done|].
    eexists. split; [by eapply list_elem_of_lookup_2|]. done.
Qed.

Lemma GetNextKey_unfold provider w :
  GetNextKey provider w =
    (let* kr := get_rotator in
     let* pc := wrapping "provider not found" (lift (config.GetProvider (config kr) provider)) in
     if len (config.GetEnabledKeys pc) =? 0 then fail (ErrNoEnabledKeys provider)
     else
       let* sel := wrapping "key selection failed"
                     (select_with (config.Strategy (config.Rotation pc)) provider
                                  (config.GetEnabledKeys pc)) in
       match sel with
       | (None, _) => fail (ErrNoSuitableKey provider)
       | (Some selectedKey, keyName) =>
         if config.HealthCheck (config.Rotation pc)
         then
           let* healthy := wrapping "health check failed" (IsHealthy provider keyName) in
           if negb healthy
           then
             if config.FallbackEnabled (config.Rotation pc) &&
                (1 <? len (config.GetEnabledKeys pc))
             then getFallbackKey provider keyName (config.GetEnabledKeys pc)
             else fail (ErrUnhealthyNoFallback keyName)
           else finish_selection "failed to retrieve key" provider keyName selectedKey
                                 (config.Strategy (config.Rotation pc))
         else finish_selection "failed to retrieve key" provider keyName selectedKey
                               (config.Strategy (config.Rotation pc))
       end) w.
Proof. reflexivity. Qed.

Lemma getFallbackKey_unfold provider excludeKey ks w :
  getFallbackKey provider excludeKey ks w =
    (let* fallback := fallbackKeys provider excludeKey ks in
     if len fallback =? 0 then fail ErrNoHealthyFallback
     else
       let* sel := selectRoundRobin provider fallback in
       match sel with
       | (None, _) => fail ErrFallbackSelectionFailed
       | (Some selectedKey, keyName) =>
         finish_selection "failed to retrieve fallback key" provider keyName selectedKey
                          config.RotationRoundRobin
       end) w.
Proof. reflexivity. Qed.

(** What a finished selection carries, and what finishing it has touched. *)
Lemma finish_selection_Ok_inv context provider keyName k strategy w sel w' :
  finish_selection context provider keyName k strategy w = (Ok sel, w') ->
  read_key (store w) provider keyName = Ok (SelKey sel) /\
  SelProvider sel = provider /\ SelKeyName sel = keyName /\
  SelRateLimit sel = config.RateLimit k /\ SelCostLimit sel = config.CostLimit k /\
  SelStrategy sel = strategy /\
  match usage_of (store w) provider keyName with
  | Some u => SelUsageCount sel = UsageCount u /\ SelLastUsed sel = LastUsed u
  | None => SelUsageCount sel = 0 /\ SelLastUsed sel = clock w (ticks w)
  end /\
  steady w w' /\
  is_Some (lastUsed (rotator w') !! provider ≫= (.!! keyName)).
Proof.
  unfold finish_selection. intros Hrun.
  apply bind_Ok_inv in Hrun as (keyValue & w0 & Hkey & Hrun).
  apply wrapping_Ok_inv in Hkey. rewrite GetKey_run in Hkey. injection Hkey as Hkey <-.
  apply bind_Ok_inv in Hrun as (r & w0 & Hr & Hrun).
  unfold attempt in Hr. rewrite GetUsage_run in Hr.
  apply bind_Ok_inv in Hrun as (u & w2 & Hu & Hrun).
  apply bind_Ok_inv in Hrun as ([] & w3 & Hup & Hret).
  injection Hret as <- <-.
  destruct (updateLastUsed_run provider keyName w2) as (w3' & Hup' & Hsteady).
  rewrite Hup in Hup'. injection Hup' as <-.
  assert (Hstamp : is_Some (lastUsed (rotator w3) !! provider ≫= (.!! keyName))).
  { revert Hup. unfold updateLastUsed, bind, get_rotator, Now, put_rotator. simpl.
    intros [= <-]. simpl. rewrite lookup_insert_eq. simpl. rewrite lookup_insert_eq.
    by eexists. }
  simpl. split; [done|]. do 5 (split; [done|]).
  unfold usage_of.
  destruct (usage (store w) !! provider) as [pu|] eqn:Hpu; simpl.
  - destruct (pu !! keyName) as [u0|] eqn:Hk; simpl.
    + injection Hr as <- <-. injection Hu as <- <-. done.
    + injection Hr as <- <-. unfold bind, Now, ret in Hu. simpl in Hu.
      injection Hu as <- <-. split; [done|]. split; [|done].
      destruct Hsteady as (? & ? & ?). done.
  - injection Hr as <- <-. unfold bind, Now, ret in Hu. simpl in Hu.
    injection Hu as <- <-. split; [done|]. split; [|done].
    destruct Hsteady as (? & ? & ?). done.
Qed.

(** Every selection [GetNextKey] returns is either the strategy's choice,
    found healthy when health is checked, or a healthy survivor chosen by
    the fallback after the strategy's choice was found unhealthy.  The
    strategy's choice is a name, that of the candidate [k], and a candidate
    record [held]. *)
Lemma GetNextKey_Ok_inv provider w sel w' :
  GetNextKey provider w = (Ok sel, w') ->
  exists pc held k w1,
    config.Providers (config (rotator w)) !! provider = Some pc /\
    select_with (config.Strategy (config.Rotation pc)) provider (config.GetEnabledKeys pc) w
      = (Ok (Some held, config.Name k), w1) /\
    held ∈ config.GetEnabledKeys pc /\ k ∈ config.GetEnabledKeys pc /\
    (held = k \/
     per_iteration = false /\ scans (config.Strategy (config.Rotation pc)) = true /\
     last (config.GetEnabledKeys pc) = Some held) /\
    store w1 = store w /\
    ((config.HealthCheck (config.Rotation pc) = true ->
        health_of (store w) provider (config.Name k) = Some true) /\
     finish_selection "failed to retrieve key" provider (config.Name k) held
       (config.Strategy (config.Rotation pc)) w1 = (Ok sel, w')
     \/
     config.HealthCheck (config.Rotation pc) = true /\
     health_of (store w) provider (config.Name k) = Some false /\
     config.FallbackEnabled (config.Rotation pc) = true /\
     1 < len (config.GetEnabledKeys pc) /\
     exists k' w2,
       selectRoundRobin provider
         (survivors (store w) provider (config.Name k) (config.GetEnabledKeys pc)) w1
         = (Ok (Some k', config.Name k'), w2) /\
       k' ∈ survivors (store w) provider (config.Name k) (config.GetEnabledKeys pc) /\
       store w2 = store w /\
       finish_selection "failed to retrieve fallback key" provider (config.Name k') k'
         config.RotationRoundRobin w2 = (Ok sel, w')).
Proof.
  rewrite GetNextKey_unfold. intros Hrun.
  apply bind_Ok_inv in Hrun as (kr & w0 & Hkr & Hrun). injection Hkr as <- <-.
  apply bind_Ok_inv in Hrun as (pc & w0 & Hpc & Hrun).
  apply wrapping_Ok_inv in Hpc. unfold lift, config.GetProvider in Hpc.
  destruct (config.Providers (config (rotator w)) !! provider) as [pc'|] eqn:Hlook; [|done].
  injection Hpc as -> <-.
  destruct (len (config.GetEnabledKeys pc) =? 0); [done|].
  apply bind_Ok_inv in Hrun as ([[held|] name] & w1 & Hsel & Hrun); [|done].
  apply wrapping_Ok_inv in Hsel.
  destruct (select_with_Ok_inv _ _ _ _ _ _ _ Hsel) as (Hin & Hst1 & k & Hk & -> & Hlink).
  exists pc, held, k, w1. do 6 (split; [done|]).
  destruct (config.HealthCheck (config.Rotation pc)) eqn:Hhc; [|left; by split].
  apply bind_Ok_inv in Hrun as (healthy & w0 & Hh & Hrun).
  apply wrapping_Ok_inv in Hh. rewrite IsHealthy_run in Hh.
  assert (Hhealth : health_of (store w) provider (config.Name k) = Some healthy /\ w0 = w1).
  { unfold health_of. rewrite <- Hst1.
    destruct (health (store w1) !! provider) as [ph|]; [|done]. simpl.
    destruct (ph !! config.Name k); [|done]. by injection Hh as -> ->. }
  destruct Hhealth as [Hhealth ->].
  destruct healthy; simpl in Hrun; [left; by split|].
  right. split; [done|]. split; [done|].
  destruct (config.FallbackEnabled (config.Rotation pc)); [|done].
  destruct (1 <? len (config.GetEnabledKeys pc)) eqn:Hlen; [|done]. simpl in Hrun.
  split; [done|]. split; [by apply Z.ltb_lt|].
  rewrite getFallbackKey_unfold in Hrun.
  apply bind_Ok_inv in Hrun as (fb & w0 & Hfb & Hrun).
  rewrite fallbackKeys_run in Hfb. injection Hfb as <- <-. rewrite Hst1 in Hrun.
  destruct (len _ =? 0); [done|].
  apply bind_Ok_inv in Hrun as ([[k'|] name'] & w2 & Hrr & Hrun); [|done].
  destruct (selectRoundRobin_Ok_inv _ _ _ _ _ _ Hrr) as
    [Hst2 [[_ [=]] | (k'' & [= <-] & Hin' & ->)]].
  exists k', w2. split; [done|]. split; [done|]. split; [congruence|]. done.
Qed.

End Anatomy.

(** ** What every returned selection satisfies *)

Section Selections.

Context `{CryptoLib} `{LoopVar}.

(** X1.  Whatever the strategy and whether or not the fallback ran, a
    selection returned by GetNextKey names one of the provider's enabled
    candidates (a configured credential that passes GetEnabledKeys) and
    carries the rate and cost limits of an enabled candidate.  The limits
    are the named candidate's own, with one exception: when the strategy
    is LeastUsed or CostOptimized and the iterations of a range loop share
    their variable (Go before 1.22), the pointer the scan keeps designates
    the last candidate scanned, and the limits can be those of the last
    enabled candidate. *)
Theorem selection_is_enabled_candidate provider w sel :
  outcome (GetNextKey provider) w = Ok sel ->
  exists pc k held,
    config.Providers (config (rotator w)) !! provider = Some pc /\
    k ∈ config.GetEnabledKeys pc /\ k ∈ config.APIKeys pc /\
    config.Enabled k = true /\
    SelProvider sel = provider /\ SelKeyName sel = config.Name k /\
    held ∈ config.GetEnabledKeys pc /\
    SelRateLimit sel = config.RateLimit held /\ SelCostLimit sel = config.CostLimit held /\
    (held = k \/
     per_iteration = false /\ scans (config.Strategy (config.Rotation pc)) = true /\
     last (config.GetEnabledKeys pc) = Some held).
Proof.
  unfold outcome. destruct (GetNextKey provider w) as [r w'] eqn:Hrun. simpl.
  intros ->.
  destruct (GetNextKey_Ok_inv _ _ _ _ Hrun)
    as (pc & held & k & w1 & Hpc & _ & Hheld & Hin & Hlink & _ & Hcase).
  destruct Hcase as [[_ Hfin] | (_ & _ & _ & _ & k' & w2 & _ & Hin' & _ & Hfin)].
  - apply finish_selection_Ok_inv in Hfin as (_ & Hp & Hn & Hr & Hc & _).
    exists pc, k, held. apply GetEnabledKeys_spec in Hin as Hspec.
    destruct Hspec as (Hcfg & Hen & _). done.
  - apply finish_selection_Ok_inv in Hfin as (_ & Hp & Hn & Hr & Hc & _).
    apply survivors_spec in Hin' as (Hin'' & _).
    exists pc, k', k'. apply GetEnabledKeys_spec in Hin'' as Hspec.
    destruct Hspec as (Hcfg & Hen & _). do 9 (split; [done|]). by left.
Qed.

(** X2.  When health checking is on for the provider, the credential of a
    returned selection has health flag true in the key store, on the
    primary path as well as after a fallback. *)
Theorem selection_is_healthy provider w pc sel :
  config.Providers (config (rotator w)) !! provider = Some pc ->
  config.HealthCheck (config.Rotation pc) = true ->
  outcome (GetNextKey provider) w = Ok sel ->
  health_of (store w) provider (SelKeyName sel) = Some true.
Proof.
  intros Hpc Hhc. unfold outcome.
  destruct (GetNextKey provider w) as [r w'] eqn:Hrun. simpl. intros ->.
  destruct (GetNextKey_Ok_inv _ _ _ _ Hrun)
    as (pc' & held & k & w1 & Hpc' & _ & _ & _ & _ & _ & Hcase).
  rewrite Hpc in Hpc'. injection Hpc' as <-.
  destruct Hcase as [[Hh Hfin] | (_ & _ & _ & _ & k' & w2 & _ & Hin' & _ & Hfin)].
  - apply finish_selection_Ok_inv in Hfin as (_ & _ & -> & _). by apply Hh.
  - apply finish_selection_Ok_inv in Hfin as (_ & _ & -> & _).
    by apply survivors_spec in Hin' as (_ & _ & ?).
Qed.


End Selections.

(** ** Strategies and failures of a selection *)

Section Strategies.

Context `{CryptoLib} `{LoopVar}.

(** X4.  Health checking on, the strategy's choice unhealthy, and no
    fallback possible (fallback disabled, or a single candidate): GetNextKey
    fails with "selected key is unhealthy and no fallback available" for
    that credential.  The store is untouched, but what the strategy did to
    the rotator stays done: the world after the call is the world the
    strategy left.  The health that counts is that of the name the
    strategy returned, whatever candidate record came with it. *)
Theorem unhealthy_without_fallback provider w pc held name w1 :
  config.Providers (config (rotator w)) !! provider = Some pc ->
  config.HealthCheck (config.Rotation pc) = true ->
  select_with (config.Strategy (config.Rotation pc)) provider (config.GetEnabledKeys pc) w
    = (Ok (Some held, name), w1) ->
  health_of (store w) provider name = Some false ->
  config.FallbackEnabled (config.Rotation pc) = false \/
    len (config.GetEnabledKeys pc) <= 1 ->
  GetNextKey provider w = (Err (ErrUnhealthyNoFallback name), w1).
Proof.
  intros Hpc Hhc Hsel Hh Hno.
  destruct (select_with_Ok_inv _ _ _ _ _ _ _ Hsel) as (Hin & Hst1 & _).
  rewrite GetNextKey_unfold.
  rewrite (bind_Ok _ _ w (rotator w) w) by done.
  unfold config.GetProvider. rewrite Hpc.
  rewrite (bind_Ok _ _ w pc w) by done.
  destruct (len (config.GetEnabledKeys pc) =? 0) eqn:Hlen.
  { apply len_zero in Hlen. rewrite Hlen in Hin. by apply elem_of_nil in Hin. }
  rewrite (bind_Ok _ _ w (Some held, name) w1) by (by apply wrapping_Ok).
  rewrite Hhc.
  rewrite (bind_Ok _ _ w1 false w1).
  2:{ apply wrapping_Ok, health_of_IsHealthy. by rewrite Hst1. }
  simpl negb. cbv iota.
  destruct Hno as [-> | Hone]; [done|].
  destruct (1 <? len (config.GetEnabledKeys pc)) eqn:Hlt; [lia|].
  by rewrite andb_false_r.
Qed.

(** X29.  When the iterations of a range loop share their variable (Go
    before 1.22), the candidate record CostOptimized returns is that of
    the last candidate of the list, whatever candidate it selected: the
    name it returns is still that of a candidate within its budget, but
    the record, from which GetNextKey copies the rate and cost limits of
    the selection, is the last candidate's. *)
Theorem shared_variable_returns_last provider ks w held name :
  per_iteration = false ->
  outcome (selectCostOptimized provider ks) w = Ok (Some held, name) ->
  last ks = Some held /\
  exists b,
    b ∈ ks /\ name = config.Name b /\
    forall u, usage_of (store w) provider (config.Name b) = Some u -> within_budget b u = true.
Proof.
  intros Hper. unfold outcome, selectCostOptimized.
  destruct (len ks =? 0) eqn:Hlen; [done|].
  assert (Hne : ks <> []).
  { intros ->. by vm_compute in Hlen. }
  destruct (selectCostOptimized_scan provider ks w Hne) as (best' & name' & Hrun & H1 & _).
  rewrite (bind_Ok _ _ _ _ _ Hrun). unfold pointee. rewrite Hper.
  destruct best' as [b|]; simpl; [|done].
  destruct (H1 b eq_refl) as (Hin & -> & Hlim).
  destruct (last ks) as [l|]; simpl; [|done].
  intros [= <- <-]. split; [done|]. by exists b.
Qed.

(** X5.  Under the Single strategy GetNextKey returns the first enabled
    candidate whenever that candidate passes the health check and its
    secret can be read, and the rotation cursors are not touched. *)
Theorem single_returns_first provider w pc k rest v :
  config.Providers (config (rotator w)) !! provider = Some pc ->
  config.Strategy (config.Rotation pc) = config.RotationSingle ->
  config.GetEnabledKeys pc = k :: rest ->
  config.HealthCheck (config.Rotation pc) = false \/
    health_of (store w) provider (config.Name k) = Some true ->
  read_key (store w) provider (config.Name k) = Ok v ->
  exists sel,
    outcome (GetNextKey provider) w = Ok sel /\
    SelKeyName sel = config.Name k /\ SelKey sel = v /\
    SelStrategy sel = config.RotationSingle /\
    rotationIdx (rotator (after (GetNextKey provider) w)) = rotationIdx (rotator w).
Proof.
  intros Hpc Hs Hks Hh Hv.
  destruct (GetNextKey_selected provider w pc k w v) as
    (sel & w' & Hrun & Hn & Hk & _ & _ & Hstrat & _ & _ & Hidx & _); try done.
  - by rewrite Hks.
  - rewrite Hs, Hks. unfold select_with, selectSingle. simpl (len _ =? 0).
    cbv iota. unfold bind. by rewrite index_run.
  - exists sel. unfold outcome, after. rewrite Hrun. simpl.
    rewrite Hstrat, Hs. done.
Qed.

(** X6.  The Random strategy never indexes out of range: on a non-empty
    candidate list it returns the candidate at position (next value of the
    pseudo-random source) mod (number of candidates), consumes that one
    value and leaves the rotation cursors alone. *)
Theorem random_in_range ks w :
  ks <> [] ->
  exists k w1,
    selectRandom ks w = (Ok (Some k, config.Name k), w1) /\
    ks !! Z.to_nat (rand_src (rotator w) (rand_pos (rotator w)) mod len ks) = Some k /\
    rand_pos (rotator w1) = S (rand_pos (rotator w)) /\
    rotationIdx (rotator w1) = rotationIdx (rotator w) /\
    store w1 = store w.
Proof.
  intros Hne. unfold selectRandom.
  destruct (len ks =? 0) eqn:Hlen; [by apply len_zero in Hlen|].
  assert (Hpos : 0 < len ks).
  { apply Z.eqb_neq in Hlen. pose proof (len_nonneg ks). lia. }
  set (i := rand_src (rotator w) (rand_pos (rotator w)) mod len ks).
  pose proof (Z.mod_pos_bound (rand_src (rotator w) (rand_pos (rotator w))) (len ks) Hpos)
    as Hi. fold i in Hi.
  destruct (lookup_lt_is_Some_2 ks (Z.to_nat i)) as [k Hk].
  { unfold len in Hi. lia. }
  exists k. eexists. split; [|split; [exact Hk|]].
  - unfold bind at 1. unfold Intn.
    destruct (len ks <=? 0) eqn:Hle; [lia|].
    unfold bind at 1 2, get_rotator, put_rotator, ret at 1. fold i.
    unfold bind. rewrite index_run.
    destruct ((0 <=? i) && (i <? len ks)) eqn:Hb.
    + rewrite Hk. reflexivity.
    + apply andb_false_iff in Hb. destruct Hb as [Hb | Hb]; lia.
  - done.
Qed.

(** X7.  Under the RoundRobin strategy a cursor at or beyond the number of
    enabled candidates (the enabled set has shrunk since the cursor was
    written) makes GetNextKey panic with an index out of range rather than
    wrap around; the cursor has been advanced modulo the new count before
    the panic, so it designates a candidate again afterwards. *)
Theorem stale_cursor_panics provider w pc :
  config.Providers (config (rotator w)) !! provider = Some pc ->
  config.Strategy (config.Rotation pc) = config.RotationRoundRobin ->
  config.GetEnabledKeys pc <> [] ->
  len (config.GetEnabledKeys pc) <= cursor w provider < MaxInt64 ->
  outcome (GetNextKey provider) w = Panic index_panic /\
  cursor (after (GetNextKey provider) w) provider =
    (cursor w provider + 1) mod len (config.GetEnabledKeys pc) /\
  0 <= cursor (after (GetNextKey provider) w) provider < len (config.GetEnabledKeys pc).
Proof.
  intros Hpc Hrr Hne Hc.
  set (ks := config.GetEnabledKeys pc) in *.
  destruct (selectRoundRobin_run provider ks w Hne) as (w1 & Hrun & _ & _ & Hidx).
  assert (Hpos : 0 < len ks).
  { destruct ks; [done|]. rewrite len_cons. pose proof (len_nonneg ks). lia. }
  assert (Hout : (if (0 <=? cursor w provider) && (cursor w provider <? len ks)
                  then ks !! Z.to_nat (cursor w provider) else None) = None).
  { destruct (cursor w provider <? len ks) eqn:Hlt; [lia|]. by rewrite andb_false_r. }
  rewrite Hout in Hrun.
  assert (Hnext : GetNextKey provider w = (Panic index_panic, w1)).
  { rewrite GetNextKey_unfold.
    rewrite (bind_Ok _ _ w (rotator w) w) by done.
    unfold config.GetProvider. rewrite Hpc.
    rewrite (bind_Ok _ _ w pc w) by done. fold ks.
    destruct (len ks =? 0) eqn:Hlen; [lia|].
    rewrite Hrr. unfold select_with, bind, wrapping. by rewrite Hrun. }
  unfold outcome, after. rewrite Hnext. simpl. split; [done|].
  assert (Hcur : cursor w1 provider = (cursor w provider + 1) mod len ks).
  { unfold cursor at 1. rewrite Hidx, lookup_insert_eq. cbn [default from_option id].
    unfold MaxInt64 in Hc. rewrite wrap64_small by lia.
    apply Z.rem_mod_nonneg; lia. }
  split; [done|]. rewrite Hcur. by apply Z.mod_pos_bound.
Qed.

End Strategies.

(** ** The key store: storing, reading, deleting *)

Section KeyStore.

Context `{CryptoLaws} `{LoopVar}.

Lemma write_entries_Ok_inv provider keyName storedKey w w' :
  write_entries provider keyName storedKey w = (Ok tt, w') ->
  exists ki ui hi,
    keys (store w) !! provider = Some ki /\
    usage (store w) !! provider = Some ui /\
    health (store w) !! provider = Some hi /\
    store w' =
      {| keys := <[provider := <[keyName := storedKey]> ki]> (keys (store w));
         usage := <[provider := <[keyName := zeroUsage (clock w (ticks w))]> ui]>
                    (usage (store w));
         health := <[provider := <[keyName := true]> hi]> (health (store w));
         encryptor := encryptor (store w) |}.
Proof.
  unfold write_entries, bind, get_store, put_store, Now, assign, panic. simpl.
  destruct (keys (store w) !! provider) as [ki|]; [|done]. simpl.
  destruct (usage (store w) !! provider) as [ui|]; [|done]. simpl.
  destruct (health (store w) !! provider) as [hi|]; [|done]. simpl.
  intros [= <-]. by exists ki, ui, hi.
Qed.

(** A successful [StoreKey] has written the key itself, or what [Encrypt]
    returned for it. *)
Lemma StoreKey_Ok_inv provider keyName key w w' :
  StoreKey provider keyName key w = (Ok tt, w') ->
  exists storedKey w2,
    write_entries provider keyName storedKey w2 = (Ok tt, w') /\
    store w2 = ensure provider (store w) /\
    match encryptor (store w) with
    | None => storedKey = key
    | Some e => exists w1, outcome (Encrypt e key) w1 = Ok storedKey
    end.
Proof.
  rewrite StoreKey_unfold. intros Hrun.
  apply bind_Ok_inv in Hrun as (m & w0 & Hm & Hrun). injection Hm as <- <-.
  apply bind_Ok_inv in Hrun as ([] & w1 & Hens & Hrun).
  assert (Hst1 : store w1 = ensure provider (store w)).
  { destruct (keys (store w) !! provider) eqn:Hk.
    - injection Hens as <-. unfold ensure. by rewrite Hk.
    - unfold put_store in Hens. by injection Hens as <-. }
  apply bind_Ok_inv in Hrun as (storedKey & w2 & Henc & Hrun).
  exists storedKey, w2. split; [done|].
  destruct (encryptor (store w)) as [e|].
  - apply wrapping_Ok_inv in Henc.
    pose proof (ps_Encrypt e key w1) as Hps. unfold after in Hps. rewrite Henc in Hps.
    simpl in Hps. split; [by rewrite Hps|]. exists w1. unfold outcome. by rewrite Henc.
  - injection Henc as <- <-. done.
Qed.

Lemma ensure_secret_of provider m p' k' :
  secret_of (ensure provider m) p' k' = secret_of m p' k'.
Proof.
  unfold ensure, secret_of. destruct (keys m !! provider) eqn:Hk; [done|]. simpl.
  destruct (decide (provider = p')) as [<- | Hne].
  - by rewrite lookup_insert_eq, Hk.
  - by rewrite lookup_insert_ne.
Qed.

(** What a successful [StoreKey] leaves in the key map. *)
Lemma StoreKey_secrets provider keyName key w w' :
  StoreKey provider keyName key w = (Ok tt, w') ->
  read_key (store w') provider keyName = Ok key /\
  forall p' k', (p', k') <> (provider, keyName) ->
    secret_of (store w') p' k' = secret_of (store w) p' k'.
Proof.
  intros Hrun.
  destruct (StoreKey_Ok_inv _ _ _ _ _ Hrun) as (storedKey & w2 & Hwrite & Hst2 & Henc).
  destruct (write_entries_Ok_inv _ _ _ _ _ Hwrite) as (ki & ui & hi & Hk & _ & _ & Hst').
  assert (Hsame : encryptor (store w2) = encryptor (store w)).
  { rewrite Hst2. unfold ensure. by destruct (keys (store w) !! provider). }
  split.
  - unfold read_key. rewrite Hst'. simpl.
    rewrite lookup_insert_eq, lookup_insert_eq, Hsame.
    destruct (encryptor (store w)) as [e|]; [|by rewrite Henc].
    destruct Henc as [w1 Henc]. by rewrite (Decrypt_Encrypt e key w1 storedKey).
  - intros p' k' Hne. rewrite <- (ensure_secret_of provider (store w) p' k'), <- Hst2.
    rewrite Hst'. unfold secret_of. simpl.
    destruct (decide (provider = p')) as [<- | Hp].
    + rewrite lookup_insert_eq, Hk. simpl.
      rewrite lookup_insert_ne; [done|]. intros <-. by apply Hne.
    + by rewrite lookup_insert_ne.
Qed.

(** X8.  After a StoreKey that returned without error, GetKey of the same
    credential returns the secret that was stored, with or without
    encryption configured for the store; the secrets of all other
    credentials are as before. *)
Theorem store_then_get provider keyName key w :
  outcome (StoreKey provider keyName key) w = Ok tt ->
  outcome (GetKey provider keyName) (after (StoreKey provider keyName key) w) = Ok key /\
  forall p' k', (p', k') <> (provider, keyName) ->
    secret_of (store (after (StoreKey provider keyName key) w)) p' k' =
    secret_of (store w) p' k'.
Proof.
  unfold outcome, after.
  destruct (StoreKey provider keyName key w) as [r w'] eqn:Hrun. simpl. intros ->.
  rewrite GetKey_run. simpl. by apply StoreKey_secrets.
Qed.

Lemma aligned_None m provider :
  aligned m -> keys m !! provider = None ->
  usage m !! provider = None /\ health m !! provider = None.
Proof.
  intros Hal Hk. destruct (Hal provider) as [Hku Huh].
  assert (Hu : usage m !! provider = None).
  { apply names_None. rewrite <- Hku. by apply names_None. }
  split; [done|]. apply names_None. rewrite <- Huh. by apply names_None.
Qed.

Lemma remove_absent {V} (outer : gmap string (gmap string V)) p k :
  outer !! p ≫= (.!! k) = None -> remove outer p k = outer.
Proof.
  unfold remove. destruct (outer !! p) as [inner|] eqn:Hp; [|done]. simpl.
  intros Hk. rewrite delete_id by done. by apply insert_id.
Qed.

(** X9.  A credential that the store does not hold (in a store whose three
    maps are keyed alike): GetKey, IsHealthy, GetUsage, UpdateUsage and
    RecordError all fail with a not-found error, "provider not found" when
    the provider is unknown and "key not found" otherwise, and leave the
    world exactly as it was (no clock reading is consumed, no counter
    moves); DeleteKey of it returns without error and changes nothing. *)
Theorem unknown_credential provider keyName tokens cost message w :
  aligned (store w) ->
  secret_of (store w) provider keyName = None ->
  GetKey provider keyName w = (Err (not_found (keys (store w)) provider keyName), w) /\
  IsHealthy provider keyName w = (Err (not_found (keys (store w)) provider keyName), w) /\
  GetUsage provider keyName w = (Err (not_found (keys (store w)) provider keyName), w) /\
  UpdateUsage provider keyName tokens cost w =
    (Err (not_found (keys (store w)) provider keyName), w) /\
  RecordError provider keyName message w =
    (Err (not_found (keys (store w)) provider keyName), w) /\
  outcome (DeleteKey provider keyName) w = Ok tt /\
  store (after (DeleteKey provider keyName) w) = store w.
Proof.
  intros Hal Hnone.
  destruct (aligned_entries _ provider keyName Hal) as [Hsu Huh].
  assert (Hu : usage_of (store w) provider keyName = None).
  { apply eq_None_not_Some. rewrite <- Hsu, Hnone. by intros []. }
  assert (Hh : health_of (store w) provider keyName = None).
  { apply eq_None_not_Some. rewrite <- Huh, Hu. by intros []. }
  unfold not_found. rewrite GetKey_run, IsHealthy_run, GetUsage_run.
  unfold read_key, outcome, after, UpdateUsage, RecordError, DeleteKey, bind, get_store,
    put_store, fail, ret.
  cbn -[remove].
  unfold secret_of, usage_of, health_of in *.
  destruct (keys (store w) !! provider) as [ki|] eqn:Hk.
  - destruct (aligned_inner _ _ _ Hal Hk) as (ui & hi & Hui & Hhi & _).
    rewrite Hui, Hhi in *. simpl in *. rewrite Hnone, Hu, Hh.
    do 6 (split; [done|]). cbn -[remove].
    rewrite !remove_absent by (by rewrite ?Hk, ?Hui, ?Hhi).
    by destruct (store w).
  - destruct (aligned_None _ _ Hal Hk) as [-> ->]. done.
Qed.

(** X10.  DeleteKey removes nothing but the named credential: every other
    credential keeps its secret, its usage record and its health flag.
    The provider stays known to the store, so reading the deleted
    credential afterwards fails with "key not found". *)
Theorem delete_removes_only provider keyName w ki :
  keys (store w) !! provider = Some ki ->
  (forall p' k', (p', k') <> (provider, keyName) ->
     secret_of (store (after (DeleteKey provider keyName) w)) p' k' =
       secret_of (store w) p' k' /\
     usage_of (store (after (DeleteKey provider keyName) w)) p' k' =
       usage_of (store w) p' k' /\
     health_of (store (after (DeleteKey provider keyName) w)) p' k' =
       health_of (store w) p' k') /\
  outcome (GetKey provider keyName) (after (DeleteKey provider keyName) w) =
    Err (ErrKeyNotFound keyName provider).
Proof.
  intros Hk.
  assert (Hframe : forall V (outer : gmap string (gmap string V)) p' k',
    (p', k') <> (provider, keyName) ->
    remove outer provider keyName !! p' ≫= (.!! k') = outer !! p' ≫= (.!! k')).
  { intros V outer p' k' Hne. unfold remove.
    destruct (outer !! provider) as [inner|] eqn:Hp; [|done].
    destruct (decide (provider = p')) as [<- | Hpp].
    - rewrite lookup_insert_eq, Hp. simpl. apply lookup_delete_ne.
      intros <-. by apply Hne.
    - by rewrite lookup_insert_ne. }
  assert (Hst : store (after (DeleteKey provider keyName) w) =
    {| keys := remove (keys (store w)) provider keyName;
       usage := remove (usage (store w)) provider keyName;
       health := remove (health (store w)) provider keyName;
       encryptor := encryptor (store w) |}).
  { unfold after, DeleteKey, bind, get_store, put_store. cbn -[remove]. by rewrite Hk. }
  split.
  - intros p' k' Hne. rewrite Hst. unfold secret_of, usage_of, health_of.
    cbn [keys usage health]. rewrite !Hframe by done. done.
  - unfold outcome. rewrite GetKey_run, Hst. unfold read_key. cbn [keys fst].
    unfold remove. rewrite Hk. rewrite lookup_insert_eq, lookup_delete_eq. done.
Qed.

End KeyStore.

(** ** The ledger: usage updates, probes and orphaned flags *)

Section Ledger.

(** X11.  UpdateUsage of a recorded credential returns without error,
    reads the clock twice, and writes that credential's usage record only:
    request count plus one, tokens plus the tokens given (both modulo
    2^64), cumulative cost plus the cost, last-used set to the first clock
    reading, error count and last error message as they were.  The key
    map, the health map and the usage records of all other credentials are
    untouched. *)
Theorem update_touches_one_record provider keyName tokens cost w u :
  usage_of (store w) provider keyName = Some u ->
  outcome (UpdateUsage provider keyName tokens cost) w = Ok tt /\
  (exists u',
     usage_of (store (after (UpdateUsage provider keyName tokens cost) w))
       provider keyName = Some u' /\
     UsageCount u' = wrap64 (UsageCount u + 1) /\
     TokensUsed u' = wrap64 (TokensUsed u + tokens) /\
     CostUsed u' = (CostUsed u + cost)%float /\
     LastUsed u' = clock w (ticks w) /\
     ErrorCount u' = ErrorCount u /\ LastError u' = LastError u) /\
  keys (store (after (UpdateUsage provider keyName tokens cost) w)) = keys (store w) /\
  health (store (after (UpdateUsage provider keyName tokens cost) w)) = health (store w) /\
  ticks (after (UpdateUsage provider keyName tokens cost) w) = S (S (ticks w)) /\
  forall p' k', (p', k') <> (provider, keyName) ->
    usage_of (store (after (UpdateUsage provider keyName tokens cost) w)) p' k' =
    usage_of (store w) p' k'.
Proof.
  intros Hu. destruct (usage_of_Some _ _ _ _ Hu) as (pu & Hpu & Hk).
  unfold outcome, after, UpdateUsage, bind, get_store, put_store, Now. simpl.
  rewrite Hpu, Hk. simpl. split; [done|]. split; [|split; [done|split; [done|split; [done|]]]].
  - eexists. split.
    + unfold usage_of. simpl. rewrite lookup_insert_eq. simpl. by rewrite lookup_insert_eq.
    + done.
  - intros p' k' Hne. unfold usage_of. simpl.
    destruct (decide (provider = p')) as [<- | Hp].
    + rewrite lookup_insert_eq, Hpu. simpl. apply lookup_insert_ne.
      intros <-. by apply Hne.
    + by rewrite lookup_insert_ne.
Qed.

(** X12.  The error count is never reset by a probe: for a credential
    with five or more recorded errors, a successful probe (SetHealth true)
    followed by one more RecordError leaves the credential unhealthy
    again. *)
Theorem one_error_undoes_recovery provider keyName message w u h :
  usage_of (store w) provider keyName = Some u ->
  health_of (store w) provider keyName = Some h ->
  5 <= ErrorCount u < MaxInt64 ->
  health_of (store (after (SetHealth provider keyName true) w)) provider keyName
    = Some true /\
  health_of (store (after (RecordError provider keyName message)
                          (after (SetHealth provider keyName true) w)))
            provider keyName = Some false.
Proof.
  intros Hu Hh Hc.
  destruct (SetHealth_entry provider keyName true w h Hh) as (_ & Hh1 & Husage).
  split; [done|].
  assert (Hu1 : usage_of (store (after (SetHealth provider keyName true) w))
                  provider keyName = Some u).
  { unfold usage_of. by rewrite Husage. }
  destruct (RecordError_entry provider keyName message _ u true Hu1 Hh1) as (_ & _ & ->).
  unfold MaxInt64 in Hc. rewrite wrap64_small by lia.
  destruct (5 <? ErrorCount u + 1) eqn:Hlt; [done|]. lia.
Qed.

(** X13.  What the health checker writes back for a probe that found the
    credential invalid: the health flag becomes false, the error count
    grows by one and the probe's message becomes the last error. *)
Theorem failed_probe_is_recorded provider keyName message w u h :
  usage_of (store w) provider keyName = Some u ->
  health_of (store w) provider keyName = Some h ->
  outcome (writeBack provider keyName false message) w = Ok tt /\
  health_of (store (after (writeBack provider keyName false message) w))
            provider keyName = Some false /\
  exists u',
    usage_of (store (after (writeBack provider keyName false message) w))
             provider keyName = Some u' /\
    ErrorCount u' = wrap64 (ErrorCount u + 1) /\ LastError u' = message.
Proof.
  intros Hu Hh.
  destruct (SetHealth_entry provider keyName false w h Hh) as (Hout1 & Hh1 & Husage).
  assert (Hu1 : usage_of (store (after (SetHealth provider keyName false) w))
                  provider keyName = Some u).
  { unfold usage_of. by rewrite Husage. }
  destruct (RecordError_entry provider keyName message _ u false Hu1 Hh1)
    as (Hout2 & Hrec & Hh2).
  unfold outcome, after in *. unfold writeBack, bind, attempt. simpl.
  destruct (SetHealth provider keyName false w) as [[[] | e | r] w1]; simpl in *; try done.
  destruct (RecordError provider keyName message w1) as [[[] | e | r] w2]; simpl in *;
    try done.
  split; [done|]. split; [|done].
  rewrite Hh2. by destruct (5 <? wrap64 (ErrorCount u + 1)).
Qed.

(** X14.  SetHealth does not check that the credential exists: for a
    provider the store knows, setting the health of a name that was never
    stored returns without error and creates a health flag for it, so that
    IsHealthy answers for a credential that has neither key nor usage
    record, and the three maps are no longer keyed alike. *)
Theorem set_health_creates_orphan `{CryptoLib} provider keyName healthy w :
  aligned (store w) ->
  is_Some (keys (store w) !! provider) ->
  secret_of (store w) provider keyName = None ->
  outcome (SetHealth provider keyName healthy) w = Ok tt /\
  outcome (IsHealthy provider keyName) (after (SetHealth provider keyName healthy) w)
    = Ok healthy /\
  outcome (GetKey provider keyName) (after (SetHealth provider keyName healthy) w)
    = Err (ErrKeyNotFound keyName provider) /\
  usage_of (store (after (SetHealth provider keyName healthy) w)) provider keyName = None /\
  ~ aligned (store (after (SetHealth provider keyName healthy) w)).
Proof.
  intros Hal [ki Hk] Hnone.
  destruct (aligned_inner _ _ _ Hal Hk) as (ui & hi & Hu & Hh & Hd1 & Hd2).
  assert (Hki : ki !! keyName = None).
  { unfold secret_of in Hnone. by rewrite Hk in Hnone. }
  assert (Hui : ui !! keyName = None).
  { apply not_elem_of_dom. rewrite <- Hd1. by apply not_elem_of_dom. }
  assert (Hst : store (after (SetHealth provider keyName healthy) w) =
    {| keys := keys (store w); usage := usage (store w);
       health := <[provider := <[keyName := healthy]> hi]> (health (store w));
       encryptor := encryptor (store w) |}).
  { unfold after, SetHealth, bind, get_store, put_store. simpl. by rewrite Hh. }
  split; [|split; [|split; [|split]]].
  - unfold outcome, SetHealth, bind, get_store, put_store. simpl. by rewrite Hh.
  - unfold outcome. rewrite IsHealthy_run, Hst. simpl.
    by rewrite lookup_insert_eq, lookup_insert_eq.
  - unfold outcome. rewrite GetKey_run, Hst. unfold read_key. simpl. by rewrite Hk, Hki.
  - rewrite Hst. unfold usage_of. simpl. by rewrite Hu.
  - rewrite Hst. intros Hal'. destruct (Hal' provider) as [_ Huh]. simpl in Huh.
    rewrite (names_Some _ _ _ Hu), names_insert in Huh.
    rewrite decide_True in Huh by done. injection Huh as Huh.
    rewrite dom_insert_L in Huh.
    assert (Hin : keyName ∈ dom ui).
    { rewrite Huh. apply elem_of_union. left. by apply elem_of_singleton. }
    apply elem_of_dom in Hin. rewrite Hui in Hin. by destruct Hin.
Qed.

End Ledger.

(** ** Listing the keys and filling the store from the configuration *)

Section Population.

Context `{CryptoLaws} `{LoopVar} `{MapRangeLaws}.

Lemma range_fst_elem_of {V} (m : gmap string V) k :
  k ∈ (range m).*1 <-> is_Some (m !! k).
Proof.
  rewrite (range_Permutation V m). rewrite list_elem_of_fmap. split.
  - intros ([k' v] & -> & Hin). apply elem_of_map_to_list in Hin. by exists v.
  - intros [v Hv]. exists (k, v). split; [done|]. by apply elem_of_map_to_list.
Qed.

Lemma range_fst_NoDup {V} (m : gmap string V) : NoDup (range m).*1.
Proof. rewrite (range_Permutation V m). apply NoDup_fst_map_to_list. Qed.

(** X15.  ListKeys never fails and never writes: it returns, without
    repetition, exactly the names under which the store holds a key for
    the provider, and the empty list for a provider the store does not
    know. *)
Theorem list_keys_are_the_stored_names provider w :
  exists keyNames,
    ListKeys provider w = (Ok keyNames, w) /\
    NoDup keyNames /\
    (forall k, k ∈ keyNames <-> is_Some (secret_of (store w) provider k)) /\
    (keys (store w) !! provider = None -> keyNames = []).
Proof.
  unfold ListKeys, bind, get_store, ret, secret_of. simpl.
  destruct (keys (store w) !! provider) as [pk|] eqn:Hk; simpl.
  - exists (range pk).*1. split; [done|]. split; [apply range_fst_NoDup|].
    split; [|done]. intros k. apply range_fst_elem_of.
  - exists []. split; [done|]. split; [constructor|]. split; [|done].
    intros k. split; [by intros ?%elem_of_nil | by intros []].
Qed.

Lemma read_key_secret_of m provider keyName stored :
  secret_of m provider keyName = Some stored ->
  read_key m provider keyName =
    match encryptor m with
    | Some e => Decrypt e stored
    | None => Ok stored
    end.
Proof.
  unfold secret_of, read_key.
  destruct (keys m !! provider) as [pk|]; simpl; [|done]. by intros ->.
Qed.

Lemma ensure_entries provider m p' k' :
  secret_of (ensure provider m) p' k' = secret_of m p' k' /\
  (aligned m ->
   usage_of (ensure provider m) p' k' = usage_of m p' k' /\
   health_of (ensure provider m) p' k' = health_of m p' k').
Proof.
  split; [apply ensure_secret_of|]. intros Hal.
  unfold ensure, usage_of, health_of.
  destruct (keys m !! provider) eqn:Hk; [done|]. simpl.
  destruct (aligned_None _ _ Hal Hk) as [Hu Hh].
  destruct (decide (provider = p')) as [<- | Hne].
  - by rewrite !lookup_insert_eq, Hu, Hh.
  - by rewrite !lookup_insert_ne.
Qed.

(** The entries of the store after a successful [StoreKey], credential by
    credential. *)
Lemma StoreKey_effect provider keyName key w w' :
  aligned (store w) ->
  StoreKey provider keyName key w = (Ok tt, w') ->
  aligned (store w') /\
  encryptor (store w') = encryptor (store w) /\
  read_key (store w') provider keyName = Ok key /\
  health_of (store w') provider keyName = Some true /\
  (exists now, usage_of (store w') provider keyName = Some (zeroUsage now)) /\
  forall p' k', (p', k') <> (provider, keyName) ->
    secret_of (store w') p' k' = secret_of (store w) p' k' /\
    usage_of (store w') p' k' = usage_of (store w) p' k' /\
    health_of (store w') p' k' = health_of (store w) p' k'.
Proof.
  intros Hal Hrun.
  pose proof (StoreKey_spec provider keyName key w Hal) as (Hal' & _).
  unfold outcome, after in Hal'. rewrite Hrun in Hal'. simpl in Hal'.
  destruct (StoreKey_secrets _ _ _ _ _ Hrun) as [Hread _].
  destruct (StoreKey_Ok_inv _ _ _ _ _ Hrun) as (storedKey & w2 & Hwrite & Hst2 & _).
  destruct (write_entries_Ok_inv _ _ _ _ _ Hwrite) as (ki & ui & hi & Hk & Hu & Hh & Hst').
  split; [done|]. split.
  { rewrite Hst'. simpl. rewrite Hst2. unfold ensure.
    by destruct (keys (store w) !! provider). }
  split; [done|]. split.
  { rewrite Hst'. unfold health_of. simpl. rewrite lookup_insert_eq. simpl.
    by rewrite lookup_insert_eq. }
  split.
  { eexists. rewrite Hst'. unfold usage_of. simpl. rewrite lookup_insert_eq. simpl.
    by rewrite lookup_insert_eq. }
  intros p' k' Hne.
  destruct (ensure_entries provider (store w) p' k') as [Hes Heuh].
  destruct (Heuh Hal) as [Heu Heh].
  rewrite <- Hes, <- Heu, <- Heh, <- Hst2, Hst'.
  unfold secret_of, usage_of, health_of. simpl.
  destruct (decide (provider = p')) as [<- | Hp].
  - rewrite !lookup_insert_eq, Hk, Hu, Hh. simpl.
    assert (Hkk : keyName <> k') by (intros <-; by apply Hne).
    by rewrite !lookup_insert_ne.
  - by rewrite !lookup_insert_ne.
Qed.

Lemma fresh_entry_frame m m' provider k :
  encryptor m' = encryptor m ->
  same_entries m m' provider (config.Name k) ->
  fresh_entry m provider k -> fresh_entry m' provider k.
Proof.
  intros Henc (Hs & Hu & Hh) (Hread & Hhealth & Husage).
  unfold fresh_entry. rewrite Hu, Hh. split; [|done].
  destruct (secret_of m provider (config.Name k)) as [stored|] eqn:Hsec.
  - rewrite (read_key_secret_of _ _ _ stored Hs), Henc.
    by rewrite <- (read_key_secret_of _ _ _ stored Hsec).
  - revert Hread. unfold read_key, secret_of in *.
    destruct (keys m !! provider) as [pk|]; simpl in *; [|done]. by rewrite Hsec.
Qed.

Lemma storeKeys_spec provider ks : forall w w',
  NoDup (config.Name <$> ks) ->
  aligned (store w) ->
  storeKeys provider ks w = (Ok tt, w') ->
  aligned (store w') /\
  encryptor (store w') = encryptor (store w) /\
  (forall k, k ∈ ks -> fresh_entry (store w') provider k) /\
  (forall p' k', (p' <> provider \/ k' ∉ config.Name <$> ks) ->
     same_entries (store w) (store w') p' k').
Proof.
  induction ks as [|k rest IH]; intros w w' Hnd Hal Hrun.
  - injection Hrun as <-. split; [done|]. split; [done|]. split.
    + by intros k ?%elem_of_nil.
    + by intros p' k' _.
  - simpl in Hrun. apply bind_Ok_inv in Hrun as ([] & w1 & Hstore & Hrest).
    apply wrapping_Ok_inv in Hstore.
    rewrite fmap_cons in Hnd. apply NoDup_cons in Hnd as [Hfresh Hnd].
    destruct (StoreKey_effect _ _ _ _ _ Hal Hstore) as
      (Hal1 & Henc1 & Hread & Hhealth & Husage & Hframe1).
    destruct (IH w1 w' Hnd Hal1 Hrest) as (Hal' & Henc' & Hdone & Hframe).
    split; [done|]. split; [congruence|]. split.
    + intros k0 Hin. apply elem_of_cons in Hin as [-> | Hin]; [|by apply Hdone].
      apply (fresh_entry_frame (store w1)); [done | | done].
      apply Hframe. by right.
    + intros p' k' Hout.
      assert (Hne : (p', k') <> (provider, config.Name k)).
      { intros [= -> ->]. destruct Hout as [? | Hout]; [done|].
        apply Hout. rewrite fmap_cons. by left. }
      destruct (Hframe1 p' k' Hne) as (Hs1 & Hu1 & Hh1).
      destruct (Hframe p' k') as (Hs & Hu & Hh).
      { destruct Hout as [? | Hout]; [by left | right].
        intros Hin. apply Hout. rewrite fmap_cons. by right. }
      unfold same_entries. by rewrite Hs, Hu, Hh.
Qed.

Lemma same_entries_trans m1 m2 m3 p' k' :
  same_entries m1 m2 p' k' -> same_entries m2 m3 p' k' -> same_entries m1 m3 p' k'.
Proof. intros (Hs & Hu & Hh) (Hs' & Hu' & Hh'). unfold same_entries. by rewrite Hs', Hu', Hh'. Qed.

Lemma storeProviders_spec ps : forall w w',
  NoDup ps.*1 ->
  (forall p pc, (p, pc) ∈ ps -> NoDup (config.Name <$> config.APIKeys pc)) ->
  aligned (store w) ->
  storeProviders ps w = (Ok tt, w') ->
  aligned (store w') /\
  encryptor (store w') = encryptor (store w) /\
  (forall p pc k, (p, pc) ∈ ps -> k ∈ config.APIKeys pc -> fresh_entry (store w') p k) /\
  (forall p' k',
     (forall pc, (p', pc) ∈ ps -> k' ∉ config.Name <$> config.APIKeys pc) ->
     same_entries (store w) (store w') p' k').
Proof.
  induction ps as [|[p pc] rest IH]; intros w w' Hnd Hnames Hal Hrun.
  - injection Hrun as <-. split; [done|]. split; [done|]. split.
    + by intros p pc k ?%elem_of_nil.
    + by intros p' k' _.
  - simpl in Hrun. apply bind_Ok_inv in Hrun as ([] & w1 & Hkeys & Hrest).
    rewrite fmap_cons in Hnd. apply NoDup_cons in Hnd as [Hfresh Hnd]. simpl in Hfresh.
    assert (Hpc : NoDup (config.Name <$> config.APIKeys pc)).
    { apply (Hnames p). by left. }
    destruct (storeKeys_spec _ _ _ _ Hpc Hal Hkeys) as (Hal1 & Henc1 & Hdone1 & Hframe1).
    destruct (IH w1 w' Hnd) as (Hal' & Henc' & Hdone & Hframe); [|done|done|].
    { intros p0 pc0 Hin. apply (Hnames p0). by right. }
    split; [done|]. split; [congruence|]. split.
    + intros p0 pc0 k Hin Hk. apply elem_of_cons in Hin as [[= -> ->] | Hin].
      * apply (fresh_entry_frame (store w1)); [done| |by apply Hdone1].
        apply Hframe. intros pc' Hin. exfalso. apply Hfresh.
        apply list_elem_of_fmap. by exists (p, pc').
      * by apply (Hdone p0 pc0).
    + intros p' k' Hout. apply (same_entries_trans _ (store w1)).
      * apply Hframe1. destruct (decide (p' = p)) as [-> | Hne]; [right | by left].
        apply (Hout pc). by left.
      * apply Hframe. intros pc' Hin. apply Hout. by right.
Qed.

Lemma range_elem_of {V} (m : gmap string V) k v :
  (k, v) ∈ range m <-> m !! k = Some v.
Proof. rewrite (range_Permutation V m). apply elem_of_map_to_list. Qed.

(** X16.  The store NewKeyStoreFromConfig builds, when it returns without
    error from a configuration whose credentials have distinct names within
    each provider: every configured credential, enabled or not, reads back
    through GetKey with its configured secret, is healthy and has a zeroed
    usage record; the store holds no other credential; and its three maps
    are keyed alike.  This holds in whatever order the providers are
    visited, with or without encryption. *)
Theorem store_mirrors_config cfg encryptKeys w w' :
  (forall p pc, config.Providers cfg !! p = Some pc ->
     NoDup (config.Name <$> config.APIKeys pc)) ->
  NewKeyStoreFromConfig cfg encryptKeys w = (Ok tt, w') ->
  aligned (store w') /\
  (forall p pc k, config.Providers cfg !! p = Some pc -> k ∈ config.APIKeys pc ->
     outcome (GetKey p (config.Name k)) w' = Ok (config.Key k) /\
     health_of (store w') p (config.Name k) = Some true /\
     exists now, usage_of (store w') p (config.Name k) = Some (zeroUsage now)) /\
  (forall p name, is_Some (secret_of (store w') p name) ->
     exists pc k, config.Providers cfg !! p = Some pc /\ k ∈ config.APIKeys pc /\
                  config.Name k = name).
Proof.
  intros Hnames Hrun. unfold NewKeyStoreFromConfig in Hrun.
  apply bind_Ok_inv in Hrun as ([] & w0 & Hput & Hrun).
  unfold put_store in Hput. injection Hput as <-.
  destruct (storeProviders_spec _ _ _ (range_fst_NoDup _)
              (fun p pc Hin => Hnames p pc (proj1 (range_elem_of _ _ _) Hin))
              (aligned_empty _ : aligned (store (Build_World _ _ _ _ _ _))) Hrun)
    as (Hal & _ & Hdone & Hframe).
  split; [done|]. split.
  - intros p pc k Hp Hk. unfold outcome. rewrite GetKey_run.
    apply (Hdone p pc k); [by apply range_elem_of | done].
  - intros p name Hsome.
    destruct (config.Providers cfg !! p) as [pc|] eqn:Hp.
    + destruct (decide (name ∈ config.Name <$> config.APIKeys pc)) as [Hin | Hout].
      * apply list_elem_of_fmap in Hin as (k & -> & Hk). by exists pc, k.
      * destruct (Hframe p name) as (Hs & _).
        { intros pc' Hin. apply range_elem_of in Hin. congruence. }
        rewrite Hs in Hsome. by destruct Hsome.
    + destruct (Hframe p name) as (Hs & _).
      { intros pc' Hin. apply range_elem_of in Hin. congruence. }
      rewrite Hs in Hsome. by destruct Hsome.
Qed.

Lemma StoreKey_plain provider keyName key w :
  aligned (store w) -> encryptor (store w) = None ->
  exists w', StoreKey provider keyName key w = (Ok tt, w') /\
             aligned (store w') /\ encryptor (store w') = None /\ draws w' = draws w.
Proof.
  intros Hal Henc.
  assert (Hrun : exists w', StoreKey provider keyName key w = (Ok tt, w') /\
                            draws w' = draws w).
  { rewrite StoreKey_unfold.
    unfold bind, get_store, put_store, ret. simpl. rewrite Henc.
    unfold write_entries, bind, get_store, put_store, Now, assign, panic, ensure. simpl.
    destruct (keys (store w) !! provider) as [ki|] eqn:Hk; simpl.
    - destruct (aligned_inner _ _ _ Hal Hk) as (ui & hi & Hu & Hh & _).
      rewrite Hk, Hu, Hh. simpl. by eexists.
    - rewrite !lookup_insert_eq. simpl. by eexists. }
  destruct Hrun as (w' & Hrun & Hdraws). exists w'. split; [done|].
  pose proof (StoreKey_spec provider keyName key w Hal) as (Hal' & _).
  unfold after in Hal'. rewrite Hrun in Hal'. split; [done|]. split; [|done].
  destruct (StoreKey_Ok_inv _ _ _ _ _ Hrun) as (storedKey & w2 & Hwrite & Hst2 & _).
  destruct (write_entries_Ok_inv _ _ _ _ _ Hwrite) as (ki & ui & hi & _ & _ & _ & Hst').
  rewrite Hst'. simpl. rewrite Hst2. unfold ensure.
  by destruct (keys (store w) !! provider).
Qed.

Lemma storeKeys_plain provider ks : forall w,
  aligned (store w) -> encryptor (store w) = None ->
  exists w', storeKeys provider ks w = (Ok tt, w') /\
             aligned (store w') /\ encryptor (store w') = None /\ draws w' = draws w.
Proof.
  induction ks as [|k rest IH]; intros w Hal Henc.
  - by exists w.
  - destruct (StoreKey_plain provider (config.Name k) (config.Key k) w Hal Henc)
      as (w1 & Hrun & Hal1 & Henc1 & Hd1).
    destruct (IH w1 Hal1 Henc1) as (w' & Hrest & Hal' & Henc' & Hd').
    exists w'. split; [|split; [done|split; [done|congruence]]]. simpl.
    unfold bind, wrapping. rewrite Hrun. simpl. done.
Qed.

Lemma storeProviders_plain ps : forall w,
  aligned (store w) -> encryptor (store w) = None ->
  exists w', storeProviders ps w = (Ok tt, w') /\
             encryptor (store w') = None /\ draws w' = draws w.
Proof.
  induction ps as [|[p pc] rest IH]; intros w Hal Henc.
  - by exists w.
  - destruct (storeKeys_plain p (config.APIKeys pc) w Hal Henc)
      as (w1 & Hrun & Hal1 & Henc1 & Hd1).
    destruct (IH w1 Hal1 Henc1) as (w' & Hrest & Henc' & Hd').
    exists w'. split; [|split; [done|congruence]]. simpl. unfold bind. by rewrite Hrun.
Qed.

(** X17.  Without encryption NewKeyStoreFromConfig cannot fail: whatever
    the configuration holds (no provider, providers without credentials,
    repeated names) and in whatever order its providers are visited, it
    returns a store and no error, and draws nothing from the random
    source. *)
Theorem plain_store_never_fails cfg w :
  outcome (NewKeyStoreFromConfig cfg false) w = Ok tt /\
  encryptor (store (after (NewKeyStoreFromConfig cfg false) w)) = None /\
  draws (after (NewKeyStoreFromConfig cfg false) w) = draws w.
Proof.
  unfold outcome, after, NewKeyStoreFromConfig, bind, put_store. simpl.
  match goal with |- context [storeProviders ?ps ?w0] =>
    destruct (storeProviders_plain ps w0) as (w' & -> & Henc & Hd)
  end; [apply aligned_empty | done | done].
Qed.

End Population.

(** ** Statistics and status reports *)

Section Statistics.

Context `{MapRangeLaws}.

Lemma wrap64_idemp z : wrap64 (wrap64 z) = wrap64 z.
Proof.
  unfold wrap64. replace ((z + 2 ^ 63) mod 2 ^ 64 - 2 ^ 63 + 2 ^ 63)
    with ((z + 2 ^ 63) mod 2 ^ 64) by lia.
  by rewrite Z.mod_mod.
Qed.

Lemma wrap64_add_l a b : wrap64 (wrap64 a + b) = wrap64 (a + b).
Proof.
  unfold wrap64. f_equal.
  replace ((a + 2 ^ 63) mod 2 ^ 64 - 2 ^ 63 + b + 2 ^ 63)
    with ((a + 2 ^ 63) mod 2 ^ 64 + b) by lia.
  rewrite Zplus_mod_idemp_l. f_equal. lia.
Qed.

Lemma keyStatisticsLoop_spec provider keyNames : forall stats w,
  exists stats',
    keyStatisticsLoop provider keyNames stats w = (Ok stats', w) /\
    forall k, stats' !! k =
      match (if bool_decide (k ∈ keyNames) then usage_of (store w) provider k else None) with
      | Some u => Some u
      | None => stats !! k
      end.
Proof.
  induction keyNames as [|keyName rest IH]; intros stats w.
  - exists stats. split; [done|]. intros k. by rewrite bool_decide_eq_false_2 by apply not_elem_of_nil.
  - simpl. destruct (usage_of (store w) provider keyName) as [u|] eqn:Hu.
    + rewrite (bind_Ok _ _ _ _ _ (attempt_GetUsage_Some _ _ _ _ Hu)).
      destruct (IH (<[keyName := u]> stats) w) as (stats' & Hrun & Hlook).
      exists stats'. split; [done|]. intros k. rewrite Hlook.
      destruct (decide (k = keyName)) as [-> | Hne].
      * rewrite (bool_decide_eq_true_2 (keyName ∈ keyName :: rest)) by left.
        rewrite Hu, lookup_insert_eq. by destruct (bool_decide (keyName ∈ rest)).
      * rewrite lookup_insert_ne by done.
        assert (Heq : bool_decide (k ∈ keyName :: rest) = bool_decide (k ∈ rest)).
        { apply bool_decide_ext. rewrite elem_of_cons. split; [by intros [?|?] | by right]. }
        by rewrite Heq.
    + destruct (attempt_GetUsage_None _ _ _ Hu) as [e He].
      rewrite (bind_Ok _ _ _ _ _ He).
      destruct (IH stats w) as (stats' & Hrun & Hlook).
      exists stats'. split; [done|]. intros k. rewrite Hlook.
      destruct (decide (k = keyName)) as [-> | Hne].
      * rewrite (bool_decide_eq_true_2 (keyName ∈ keyName :: rest)) by left.
        rewrite Hu. destruct (bool_decide (keyName ∈ rest)); by rewrite ?Hu.
      * assert (Heq : bool_decide (k ∈ keyName :: rest) = bool_decide (k ∈ rest)).
        { apply bool_decide_ext. rewrite elem_of_cons. split; [by intros [?|?] | by right]. }
        by rewrite Heq.
Qed.

Lemma ListKeys_run provider w :
  exists keyNames,
    ListKeys provider w = (Ok keyNames, w) /\
    NoDup keyNames /\
    forall k, k ∈ keyNames <-> is_Some (secret_of (store w) provider k).
Proof.
  unfold ListKeys, bind, get_store, ret, secret_of. simpl.
  destruct (keys (store w) !! provider) as [pk|] eqn:Hk; simpl.
  - exists (range pk).*1. split; [done|]. split; [apply range_fst_NoDup|].
    intros k. apply range_fst_elem_of.
  - exists []. split; [done|]. split; [constructor|].
    intros k. split; [by intros ?%elem_of_nil | by intros []].
Qed.

Lemma GetKeyStatistics_run provider w :
  exists stats,
    GetKeyStatistics provider w = (Ok stats, w) /\
    forall k, stats !! k =
      secret_of (store w) provider k ≫= (fun _ => usage_of (store w) provider k).
Proof.
  destruct (ListKeys_run provider w) as (keyNames & Hlist & _ & Hin).
  destruct (keyStatisticsLoop_spec provider keyNames ∅ w) as (stats & Hrun & Hlook).
  exists stats. split.
  - unfold GetKeyStatistics. by rewrite (bind_Ok _ _ _ _ _ Hlist).
  - intros k. rewrite Hlook, lookup_empty.
    destruct (secret_of (store w) provider k) as [s|] eqn:Hs; simpl.
    + rewrite bool_decide_eq_true_2 by (apply Hin; by rewrite Hs).
      by destruct (usage_of (store w) provider k).
    + rewrite bool_decide_eq_false_2; [done|].
      intros Hk%Hin. rewrite Hs in Hk. by destruct Hk.
Qed.

(** X18.  GetKeyStatistics never fails and never writes.  The map it
    returns holds, for every name under which the store keeps a key and a
    usage record for the provider, that usage record, and nothing else; in
    a store whose maps are keyed alike this is the provider's usage map
    itself, and for a provider the store does not know it is the empty map
    (where GetUsage would fail). *)
Theorem key_statistics_are_the_ledger provider w :
  exists stats,
    GetKeyStatistics provider w = (Ok stats, w) /\
    (forall k, stats !! k =
       secret_of (store w) provider k ≫= (fun _ => usage_of (store w) provider k)) /\
    (aligned (store w) -> stats = default ∅ (usage (store w) !! provider)) /\
    (keys (store w) !! provider = None -> stats = ∅).
Proof.
  destruct (GetKeyStatistics_run provider w) as (stats & Hrun & Hlook).
  exists stats. split; [done|]. split; [done|]. split.
  - intros Hal. apply map_eq. intros k. rewrite Hlook.
    destruct (aligned_entries _ provider k Hal) as [Hsu _].
    fold (usage_of (store w) provider k) in *.
    assert (Hu : default ∅ (usage (store w) !! provider) !! k = usage_of (store w) provider k).
    { unfold usage_of. destruct (usage (store w) !! provider); simpl; [done|apply lookup_empty]. }
    rewrite Hu.
    destruct (secret_of (store w) provider k) as [s|] eqn:Hs; simpl; [done|].
    destruct (usage_of (store w) provider k) eqn:Hu'; [|done].
    assert (Hn : is_Some (None : option string)) by (apply Hsu; by eexists).
    by destruct Hn.
  - intros Hk. apply map_eq. intros k. rewrite Hlook, lookup_empty.
    unfold secret_of. by rewrite Hk.
Qed.

Lemma probe_healthy_in provider keyName w :
  exists r,
    attempt (IsHealthy provider keyName) w = (Ok r, w) /\
    match r with inr healthy => healthy | inl _ => false end =
      healthy_in (store w) provider keyName.
Proof.
  eexists. split; [apply attempt_IsHealthy_run|].
  unfold healthy_in, health_of.
  destruct (health (store w) !! provider) as [ph|]; simpl; [|done].
  destruct (ph !! keyName) as [[|]|]; done.
Qed.

Lemma sum_Permutation {A} (f : A -> Z) (l l' : list A) :
  l ≡ₚ l' -> foldr (fun x acc => f x + acc) 0 l = foldr (fun x acc => f x + acc) 0 l'.
Proof. induction 1; simpl; lia. Qed.

Lemma count_Permutation {A} (P : A -> bool) (l l' : list A) :
  l ≡ₚ l' -> length (List.filter P l) = length (List.filter P l').
Proof.
  induction 1 as [|x l l' _ IH|x y l|l l' l'' _ IH1 _ IH2]; simpl.
  - done.
  - destruct (P x); simpl; by rewrite IH.
  - by destruct (P x), (P y).
  - by rewrite IH1.
Qed.

Lemma count_le {A} (P : A -> bool) (l : list A) :
  (length (List.filter P l) <= length l)%nat.
Proof. induction l as [|x l IH]; simpl; [done|]. destruct (P x); simpl; lia. Qed.

Lemma providerStatisticsLoop_spec provider entries : forall stats w,
  NoDup entries.*1 ->
  HealthyKeys stats = wrap64 (HealthyKeys stats) ->
  TotalTokens stats = wrap64 (TotalTokens stats) ->
  TotalRequests stats = wrap64 (TotalRequests stats) ->
  exists ps,
    providerStatisticsLoop provider entries stats w = (Ok ps, w) /\
    Provider ps = Provider stats /\
    TotalKeys ps = TotalKeys stats /\
    HealthyKeys ps =
      wrap64 (HealthyKeys stats +
              Z.of_nat (length (List.filter
                (fun entry => healthy_in (store w) provider entry.1) entries))) /\
    TotalTokens ps =
      wrap64 (TotalTokens stats + foldr (fun entry acc => TokensUsed entry.2 + acc) 0 entries) /\
    TotalRequests ps =
      wrap64 (TotalRequests stats +
              foldr (fun entry acc => UsageCount entry.2 + acc) 0 entries) /\
    TotalCost ps =
      foldl (fun acc entry => (acc + CostUsed entry.2)%float) (TotalCost stats) entries /\
    (forall k u, (k, u) ∈ entries ->
       PerKeyStats ps !! k =
         Some {| StatName := k; StatHealthy := healthy_in (store w) provider k;
                 StatUsage := u; StatLastUsed := LastUsed u |}) /\
    (forall k, k ∉ entries.*1 -> PerKeyStats ps !! k = PerKeyStats stats !! k).
Proof.
  induction entries as [|[keyName usage] rest IH]; intros stats w Hnd Hh Ht Hr.
  - exists stats. simpl. rewrite !Z.add_0_r.
    split; [done|]. do 6 (split; [done|]). split; [|done].
    by intros k u ?%elem_of_nil.
  - rewrite fmap_cons in Hnd. apply NoDup_cons in Hnd as [Hfresh Hnd]. simpl in Hfresh.
    destruct (probe_healthy_in provider keyName w) as (r & Hprobe & Hflag).
    cbn [providerStatisticsLoop]. rewrite (bind_Ok _ _ _ _ _ Hprobe). rewrite Hflag.
    match goal with |- context [providerStatisticsLoop provider rest ?s w] =>
      destruct (IH s w Hnd) as
        (ps & Hrun & Hp & Hk & Hhealthy & Htokens & Hrequests & Hcost & Hin & Hout)
    end.
    { simpl. destruct (healthy_in (store w) provider keyName);
        [by rewrite wrap64_idemp | done]. }
    { simpl. by rewrite wrap64_idemp. }
    { simpl. by rewrite wrap64_idemp. }
    exists ps. split; [done|]. simpl in *.
    split; [done|]. split; [done|]. split.
    { rewrite Hhealthy. destruct (healthy_in (store w) provider keyName); simpl.
      - rewrite wrap64_add_l. f_equal. lia.
      - done. }
    split. { rewrite Htokens, wrap64_add_l. f_equal. lia. }
    split. { rewrite Hrequests, wrap64_add_l. f_equal. lia. }
    split; [done|]. split.
    + intros k u Hku. apply elem_of_cons in Hku as [[= -> ->] | Hku].
      * rewrite Hout by done. by rewrite lookup_insert_eq.
      * by apply Hin.
    + intros k Hk'. apply not_elem_of_cons in Hk' as [Hne Hk'].
      rewrite Hout by done. by rewrite lookup_insert_ne.
Qed.

(** X19.  GetProviderStatistics never fails and never writes.  Over the
    map [stats] that GetKeyStatistics returns: TotalKeys is its size;
    TotalTokens and TotalRequests are the sums of the records' token and
    request counts and HealthyKeys the number of its names whose health
    flag reads true (all modulo 2^64), whatever the order in which the map
    is visited; HealthyKeys never exceeds TotalKeys; and the per-key
    statistics have one entry per name of [stats], carrying its usage
    record and health (false when the flag cannot be read). *)
Theorem provider_statistics_are_totals provider w stats :
  GetKeyStatistics provider w = (Ok stats, w) ->
  exists ps,
    GetProviderStatistics provider w = (Ok ps, w) /\
    Provider ps = provider /\
    TotalKeys ps = Z.of_nat (size stats) /\
    TotalTokens ps = wrap64 (total TokensUsed stats) /\
    TotalRequests ps = wrap64 (total UsageCount stats) /\
    HealthyKeys ps = wrap64 (Z.of_nat (healthy_count (store w) provider stats)) /\
    (TotalKeys ps <= MaxInt64 -> 0 <= HealthyKeys ps <= TotalKeys ps) /\
    forall k,
      PerKeyStats ps !! k =
        (fun u => {| StatName := k; StatHealthy := healthy_in (store w) provider k;
                     StatUsage := u; StatLastUsed := LastUsed u |}) <$> stats !! k.
Proof.
  intros Hstats. unfold GetProviderStatistics. rewrite (bind_Ok _ _ _ _ _ Hstats).
  match goal with |- context [providerStatisticsLoop provider _ ?s w] =>
    destruct (providerStatisticsLoop_spec provider (range stats) s w)
      as (ps & Hrun & Hp & Hk & Hhealthy & Htokens & Hrequests & _ & Hin & Hout)
  end; [apply range_fst_NoDup | done | done | done |].
  simpl in *. pose proof (range_Permutation _ stats) as Hperm.
  assert (Hcount : HealthyKeys ps = wrap64 (Z.of_nat (healthy_count (store w) provider stats))).
  { rewrite Hhealthy. unfold healthy_count. by rewrite (count_Permutation _ _ _ Hperm). }
  exists ps. split; [done|]. split; [done|]. split; [done|]. split.
  { rewrite Htokens. unfold total.
    by rewrite (sum_Permutation (fun entry => TokensUsed entry.2) _ _ Hperm). }
  split.
  { rewrite Hrequests. unfold total.
    by rewrite (sum_Permutation (fun entry => UsageCount entry.2) _ _ Hperm). }
  split; [done|]. split.
  - intros Hmax. rewrite Hcount, Hk. rewrite Hk in Hmax. unfold MaxInt64 in Hmax.
    assert (Hle : (healthy_count (store w) provider stats <= size stats)%nat).
    { unfold healthy_count. etrans; [apply count_le|]. by rewrite length_map_to_list. }
    rewrite wrap64_small by lia. lia.
  - intros k. destruct (stats !! k) as [u|] eqn:Hu; simpl.
    + apply Hin. by apply range_elem_of.
    + rewrite Hout; [done|]. intros Hk'%range_fst_elem_of. rewrite Hu in Hk'. by destruct Hk'.
Qed.

Lemma latest_spec (l : list (string * Z)) : forall acc,
  acc <= foldl (fun last entry => if After entry.2 last then entry.2 else last) acc l /\
  (forall k t, (k, t) ∈ l ->
     t <= foldl (fun last entry => if After entry.2 last then entry.2 else last) acc l) /\
  (foldl (fun last entry => if After entry.2 last then entry.2 else last) acc l = acc \/
   exists k,
     (k, foldl (fun last entry => if After entry.2 last then entry.2 else last) acc l) ∈ l).
Proof.
  induction l as [|[k0 t0] rest IH]; intros acc.
  - simpl. split; [lia|]. split; [by intros k t ?%elem_of_nil | by left].
  - cbn [foldl snd].
    assert (Hstep : (if After t0 acc then t0 else acc) = Z.max acc t0).
    { unfold After. destruct (Z.ltb_spec acc t0); lia. }
    rewrite Hstep. destruct (IH (Z.max acc t0)) as (Hle & Hall & Hor).
    split; [lia|]. split.
    + intros k t Hin. apply elem_of_cons in Hin as [[= -> ->] | Hin]; [lia|].
      by apply (Hall k).
    + destruct Hor as [Heq | [k Hk]].
      * rewrite Heq. destruct (Z.max_spec acc t0) as [[_ ->] | [_ ->]].
        -- right. exists k0. by left.
        -- by left.
      * right. exists k. by right.
Qed.

(** X20.  GetRotationStatus never writes, and fails only for a provider
    that is not in the configuration.  Its AvailableKeys are the names
    under which the store holds a key for the provider, each once, whether
    or not the credential is enabled or healthy; CurrentIndex is the
    round-robin cursor (0 when none was ever set); LastRotation is the
    latest time stamped for any credential of the provider, in whatever
    order the stamps are visited, and the zero time when none is later. *)
Theorem rotation_status_report provider w :
  match config.Providers (config (rotator w)) !! provider with
  | None => GetRotationStatus provider w = (Err (ErrProviderNotFound provider), w)
  | Some pc =>
    exists status,
      GetRotationStatus provider w = (Ok status, w) /\
      StatusProvider status = provider /\
      StatusStrategy status = config.Strategy (config.Rotation pc) /\
      CurrentIndex status = cursor w provider /\
      NoDup (AvailableKeys status) /\
      (forall k, k ∈ AvailableKeys status <-> is_Some (secret_of (store w) provider k)) /\
      zero_time <= LastRotation status /\
      (forall k t, lastUsed (rotator w) !! provider ≫= (.!! k) = Some t ->
         t <= LastRotation status) /\
      (LastRotation status = zero_time \/
       exists k, lastUsed (rotator w) !! provider ≫= (.!! k) = Some (LastRotation status))
  end.
Proof.
  unfold GetRotationStatus, bind, get_rotator, lift, config.GetProvider. simpl.
  destruct (config.Providers (config (rotator w)) !! provider) as [pc|]; [|done].
  destruct (ListKeys_run provider w) as (keyNames & -> & Hnd & Hin).
  eexists. split; [reflexivity|]. simpl. do 5 (split; [done|]).
  destruct (lastUsed (rotator w) !! provider) as [pl|]; simpl.
  - destruct (latest_spec (range pl) zero_time) as (Hle & Hall & Hor).
    split; [done|]. split.
    + intros k t Hk. apply (Hall k). by apply range_elem_of.
    + destruct Hor as [? | [k Hk]]; [by left|]. right. exists k. by apply range_elem_of.
  - split; [done|]. split; [done|]. by left.
Qed.

Lemma healthStatusKeys_spec provider keyNames : forall status w inner,
  status !! provider = Some inner ->
  exists inner',
    healthStatusKeys provider keyNames status w =
      (Ok (<[provider := inner']> status), w) /\
    forall k, inner' !! k =
      if bool_decide (k ∈ keyNames) then Some (healthy_in (store w) provider k)
      else inner !! k.
Proof.
  induction keyNames as [|keyName rest IH]; intros status w inner Hinner.
  - exists inner. split.
    + simpl. by rewrite insert_id.
    + intros k. by rewrite bool_decide_eq_false_2 by apply not_elem_of_nil.
  - destruct (probe_healthy_in provider keyName w) as (r & Hprobe & Hflag).
    cbn [healthStatusKeys]. rewrite (bind_Ok _ _ _ _ _ Hprobe). rewrite Hflag.
    unfold assign. rewrite Hinner.
    destruct (IH (<[provider := <[keyName := healthy_in (store w) provider keyName]> inner]>
                    status) w
                 (<[keyName := healthy_in (store w) provider keyName]> inner))
      as (inner' & Hrun & Hlook); [by rewrite lookup_insert_eq|].
    exists inner'. split.
    + by rewrite Hrun, insert_insert_eq.
    + intros k. rewrite Hlook.
      destruct (decide (k = keyName)) as [-> | Hne].
      * rewrite (bool_decide_eq_true_2 (keyName ∈ keyName :: rest)) by left.
        rewrite lookup_insert_eq. by destruct (bool_decide (keyName ∈ rest)).
      * rewrite lookup_insert_ne by done.
        assert (Heq : bool_decide (k ∈ keyName :: rest) = bool_decide (k ∈ rest)).
        { apply bool_decide_ext. rewrite elem_of_cons. split; [by intros [?|?] | by right]. }
        by rewrite Heq.
Qed.

Lemma healthStatusProviders_spec providers : forall status w,
  NoDup providers.*1 ->
  exists status',
    healthStatusProviders providers status w = (Ok status', w) /\
    (forall p keyNames, (p, keyNames) ∈ providers ->
       exists inner, status' !! p = Some inner /\
         forall k, inner !! k =
           if bool_decide (k ∈ keyNames) then Some (healthy_in (store w) p k) else None) /\
    (forall p, p ∉ providers.*1 -> status' !! p = status !! p).
Proof.
  induction providers as [|[p0 names0] rest IH]; intros status w Hnd.
  - exists status. split; [done|]. split; [|done]. by intros p keyNames ?%elem_of_nil.
  - rewrite fmap_cons in Hnd. apply NoDup_cons in Hnd as [Hfresh Hnd]. simpl in Hfresh.
    destruct (healthStatusKeys_spec p0 names0 (<[p0 := ∅]> status) w ∅)
      as (inner0 & Hkeys & Hlook0); [by rewrite lookup_insert_eq|].
    rewrite insert_insert_eq in Hkeys.
    destruct (IH (<[p0 := inner0]> status) w Hnd) as (status' & Hrun & Hin & Hout).
    exists status'. split.
    + cbn [healthStatusProviders]. by rewrite (bind_Ok _ _ _ _ _ Hkeys).
    + split.
      * intros p keyNames Hp. apply elem_of_cons in Hp as [[= -> ->] | Hp].
        -- exists inner0. split.
           ++ rewrite Hout by done. by rewrite lookup_insert_eq.
           ++ intros k. rewrite Hlook0. by rewrite lookup_empty.
        -- by apply Hin.
      * intros p Hp. apply not_elem_of_cons in Hp as [Hne Hp].
        rewrite Hout by done. by rewrite lookup_insert_ne.
Qed.

(** X21.  GetHealthStatus never fails and never writes.  Its report has
    one entry per provider asked about, and under it one flag per name
    asked about: true exactly when the store's health flag for that
    credential reads true.  A credential, or a whole provider, that the
    store does not know is reported unhealthy rather than left out. *)
Theorem health_report provider_names w :
  exists status,
    GetHealthStatus provider_names w = (Ok status, w) /\
    forall p,
      match provider_names !! p with
      | None => status !! p = None
      | Some keyNames =>
        exists inner, status !! p = Some inner /\
          forall k, inner !! k =
            if bool_decide (k ∈ keyNames)
            then Some (bool_decide (health_of (store w) p k = Some true))
            else None
      end.
Proof.
  unfold GetHealthStatus.
  destruct (healthStatusProviders_spec (range provider_names) ∅ w (range_fst_NoDup _))
    as (status & Hrun & Hin & Hout).
  exists status. split; [done|]. intros p.
  destruct (provider_names !! p) as [keyNames|] eqn:Hp.
  - apply Hin. by apply range_elem_of.
  - rewrite Hout; [apply lookup_empty|].
    intros Hp'%range_fst_elem_of. rewrite Hp in Hp'. by destruct Hp'.
Qed.

End Statistics.

(** ** Validating and loading the configuration *)

Section Configuration.

Context `{MapRangeLaws}.

Lemma count_enabled_loop {A} (enabled : A -> bool) (l : list A) acc :
  0 <= acc -> acc + len l <= MaxInt64 ->
  foldl (fun c x => if enabled x then wrap64 (c + 1) else c) acc l =
    acc + len (List.filter enabled l).
Proof.
  revert acc. induction l as [|x l IH]; intros acc Hacc Hmax.
  - unfold len. simpl. lia.
  - rewrite len_cons in Hmax. pose proof (len_nonneg l). simpl.
    unfold MaxInt64 in *. destruct (enabled x).
    + rewrite wrap64_small by lia. rewrite IH by (unfold MaxInt64; lia).
      rewrite len_cons. lia.
    + rewrite IH by (unfold MaxInt64; lia). done.
Qed.

Lemma validateKeys_spec providerName keys : forall i acc,
  match config.validateKeys providerName i keys acc with
  | inr c =>
    (forall k, k ∈ keys -> config.Key k <> "" /\ config.Name k <> "") /\
    c = foldl (fun c k => if config.Enabled k then wrap64 (c + 1) else c) acc keys
  | inl _ => ~ forall k, k ∈ keys -> config.Key k <> "" /\ config.Name k <> ""
  end.
Proof.
  induction keys as [|key rest IH]; intros i acc; simpl.
  - split; [|done]. by intros k ?%elem_of_nil.
  - destruct (String.eqb_spec (config.Key key) "") as [Hk | Hk].
    { intros Hall. destruct (Hall key) as [? _]; [by left | done]. }
    destruct (String.eqb_spec (config.Name key) "") as [Hn | Hn].
    { intros Hall. destruct (Hall key) as [_ ?]; [by left | done]. }
    specialize (IH (i + 1)
      (if config.Enabled key then wrap64 (acc + 1) else acc)).
    destruct (config.validateKeys _ _ rest _) as [err | c].
    + intros Hall. apply IH. intros k Hin. apply Hall. by right.
    + destruct IH as [Hall ->]. split; [|done].
      intros k Hin. apply elem_of_cons in Hin as [-> | Hin]; [done | by apply Hall].
Qed.

Lemma validateModels_spec providerName models : forall i acc,
  match config.validateModels providerName i models acc with
  | inr c =>
    (forall m, m ∈ models -> config.ModelName m <> "") /\
    c = foldl (fun c m => if config.ModelEnabled m then wrap64 (c + 1) else c) acc models
  | inl _ => ~ forall m, m ∈ models -> config.ModelName m <> ""
  end.
Proof.
  induction models as [|model rest IH]; intros i acc; simpl.
  - split; [|done]. by intros m ?%elem_of_nil.
  - destruct (String.eqb_spec (config.ModelName model) "") as [Hn | Hn].
    { intros Hall. apply (Hall model); [by left | done]. }
    specialize (IH (i + 1)
      (if config.ModelEnabled model then wrap64 (acc + 1) else acc)).
    destruct (config.validateModels _ _ rest _) as [err | c].
    + intros Hall. apply IH. intros m Hin. apply Hall. by right.
    + destruct IH as [Hall ->]. split; [|done].
      intros m Hin. apply elem_of_cons in Hin as [-> | Hin]; [done | by apply Hall].
Qed.

Lemma filter_nonempty {A} (P : A -> bool) (l : list A) :
  0 < len (List.filter P l) <-> exists x, x ∈ l /\ P x = true.
Proof.
  split.
  - destruct (List.filter P l) as [|x l'] eqn:Hf; [unfold len; simpl; lia|].
    intros _. exists x.
    assert (Hin : In x (List.filter P l)) by (rewrite Hf; by left).
    apply filter_In in Hin as [Hin HP]. split; [by apply list_elem_of_In | done].
  - intros (x & Hin & HP).
    assert (Hin' : In x (List.filter P l)).
    { apply filter_In. split; [by apply list_elem_of_In | done]. }
    destruct (List.filter P l); [done|]. rewrite len_cons. pose proof (len_nonneg l0). lia.
Qed.

Lemma validateProvider_spec providerName pc models :
  len (config.APIKeys pc) <= MaxInt64 -> len models <= MaxInt64 ->
  config.validateProvider providerName pc models = None <-> well_formed_provider pc models.
Proof.
  intros Hk Hm. unfold config.validateProvider, well_formed_provider.
  fold (len (config.APIKeys pc)). fold (len models).
  pose proof (validateKeys_spec providerName (config.APIKeys pc) 0 0) as Hkeys.
  pose proof (validateModels_spec providerName models 0 0) as Hmodels.
  rewrite (count_enabled_loop config.Enabled) in Hkeys by lia.
  rewrite (count_enabled_loop config.ModelEnabled) in Hmodels by lia.
  pose proof (filter_nonempty config.Enabled (config.APIKeys pc)) as Hek.
  pose proof (filter_nonempty config.ModelEnabled models) as Hem.
  pose proof (len_nonneg (List.filter config.Enabled (config.APIKeys pc))).
  pose proof (len_nonneg (List.filter config.ModelEnabled models)).
  split.
  - destruct (Z.eqb_spec (len (config.APIKeys pc)) 0); [done|].
    destruct (Z.eqb_spec (len models) 0); [done|].
    destruct (config.validateKeys _ _ _ _) as [err | c]; [done|].
    destruct Hkeys as [Hall ->].
    destruct (Z.eqb_spec (0 + len (List.filter config.Enabled (config.APIKeys pc))) 0);
      [done|].
    destruct (config.validateModels _ _ _ _) as [err | c]; [done|].
    destruct Hmodels as [Hallm ->].
    destruct (Z.eqb_spec (0 + len (List.filter config.ModelEnabled models)) 0); [done|].
    intros _. split; [done|]. split; [apply Hek; lia|]. split; [done|]. apply Hem; lia.
  - intros (Hall & Hen & Hallm & Henm).
    apply Hek in Hen. apply Hem in Henm.
    assert (Hlk : 0 < len (config.APIKeys pc)).
    { destruct (config.APIKeys pc); [by unfold len in Hen|].
      rewrite len_cons. pose proof (len_nonneg l). lia. }
    assert (Hlm : 0 < len models).
    { destruct models; [by unfold len in Henm|].
      rewrite len_cons. pose proof (len_nonneg models). lia. }
    destruct (Z.eqb_spec (len (config.APIKeys pc)) 0); [lia|].
    destruct (Z.eqb_spec (len models) 0); [lia|].
    destruct (config.validateKeys _ _ _ _) as [err | c]; [done|].
    destruct Hkeys as [_ ->].
    destruct (Z.eqb_spec (0 + len (List.filter config.Enabled (config.APIKeys pc))) 0);
      [lia|].
    destruct (config.validateModels _ _ _ _) as [err | c]; [done|].
    destruct Hmodels as [_ ->].
    destruct (Z.eqb_spec (0 + len (List.filter config.ModelEnabled models)) 0); [lia|].
    done.
Qed.

Lemma validateProviders_spec Models providers :
  (forall p pc, (p, pc) ∈ providers ->
     len (config.APIKeys pc) <= MaxInt64 /\ len (Models p) <= MaxInt64) ->
  config.validateProviders Models providers = None <->
  forall p pc, (p, pc) ∈ providers -> well_formed_provider pc (Models p).
Proof.
  induction providers as [|[p0 pc0] rest IH]; intros Hfit; simpl.
  - split; [|done]. by intros _ p pc ?%elem_of_nil.
  - destruct (Hfit p0 pc0) as [Hk Hm]; [by left|].
    pose proof (validateProvider_spec p0 pc0 (Models p0) Hk Hm) as Hone.
    destruct (config.validateProvider p0 pc0 (Models p0)) as [err|].
    + split; [done|]. intros Hall.
      assert (Hwf : well_formed_provider pc0 (Models p0)) by (apply Hall; by left).
      apply Hone in Hwf. done.
    + rewrite IH by (intros p pc Hin; apply Hfit; by right). split.
      * intros Hall p pc Hin. apply elem_of_cons in Hin as [[= -> ->] | Hin].
        -- by apply Hone.
        -- by apply Hall.
      * intros Hall p pc Hin. apply Hall. by right.
Qed.

(** When [validateConfig] accepts. *)
Lemma validateConfig_spec Models cfg :
  slices_fit Models cfg ->
  config.validateConfig Models cfg = None <->
  config.Providers cfg <> ∅ /\
  forall p pc, config.Providers cfg !! p = Some pc -> well_formed_provider pc (Models p).
Proof.
  intros Hfit. unfold config.validateConfig.
  destruct (Z.eqb_spec (Z.of_nat (size (config.Providers cfg))) 0) as [Hz | Hnz].
  - split; [done|]. intros [Hne _]. destruct Hne. apply map_size_empty_iff. lia.
  - rewrite validateProviders_spec.
    + split.
      * intros Hall. split.
        -- intros Hempty. rewrite Hempty, map_size_empty in Hnz. done.
        -- intros p pc Hp. apply Hall. by apply range_elem_of.
      * intros [_ Hall] p pc Hp. apply Hall. by apply range_elem_of.
    + intros p pc Hp. apply Hfit. by apply range_elem_of.
Qed.

(** X22.  validateConfig accepts a configuration exactly when it has at
    least one provider and every provider has no credential with an empty
    key or empty name, no model with an empty name, at least one enabled
    credential and at least one enabled model.  The verdict does not
    depend on the order in which the providers are visited (the error
    reported for a rejected configuration may). *)
Theorem validation_verdict Models cfg :
  slices_fit Models cfg ->
  config.validateConfig Models cfg = None <->
  config.Providers cfg <> ∅ /\
  forall p pc, config.Providers cfg !! p = Some pc ->
    (forall k, k ∈ config.APIKeys pc -> config.Key k <> "" /\ config.Name k <> "") /\
    (exists k, k ∈ config.APIKeys pc /\ config.Enabled k = true) /\
    (forall m, m ∈ Models p -> config.ModelName m <> "") /\
    (exists m, m ∈ Models p /\ config.ModelEnabled m = true).
Proof. apply validateConfig_spec. Qed.

Lemma zero_under_limit (x : float) :
  PrimFloat.ltb 0 x && PrimFloat.leb x 0 = false.
Proof.
  rewrite ltb_spec, leb_spec.
  replace (Prim2SF 0) with (S754_zero false) by reflexivity.
  destruct (Prim2SF x) as [s|s| |s m e]; try destruct s; reflexivity.
Qed.

(** X23.  A configuration that validateConfig accepted, with the run-time
    cost fields of its credentials still zero (they are not read from the
    file): the candidates of every provider are its enabled credentials,
    there is at least one, and GetNextKey of a rotator built on that
    configuration never fails with "no enabled keys" for a configured
    provider. *)
Theorem validated_config_has_candidates `{CryptoLib} `{LoopVar} Models cfg p pc w :
  slices_fit Models cfg ->
  config.validateConfig Models cfg = None ->
  config.Providers cfg !! p = Some pc ->
  (forall k, k ∈ config.APIKeys pc -> config.CostUsed k = 0%float) ->
  config.GetEnabledKeys pc = List.filter config.Enabled (config.APIKeys pc) /\
  config.GetEnabledKeys pc <> [] /\
  (config (rotator w) = cfg -> outcome (GetNextKey p) w <> Err (ErrNoEnabledKeys p)).
Proof.
  intros Hfit Hvalid Hp Hfresh.
  apply (validateConfig_spec _ _ Hfit) in Hvalid as [_ Hwf].
  destruct (Hwf p pc Hp) as (Hall & (k & Hk & Hen) & _).
  assert (Heq : config.GetEnabledKeys pc = List.filter config.Enabled (config.APIKeys pc)).
  { unfold config.GetEnabledKeys. apply filter_ext_in. intros a Ha%list_elem_of_In.
    destruct (Hall a Ha) as [Hkey Hname]. unfold config.CanUse, config.IsValid.
    rewrite (Hfresh a Ha), zero_under_limit.
    destruct (String.eqb_spec (config.Key a) ""); [done|].
    destruct (String.eqb_spec (config.Name a) ""); [done|].
    by destruct (config.Enabled a). }
  assert (Hne : config.GetEnabledKeys pc <> []).
  { rewrite Heq. intros Hnil.
    assert (Hin : In k (List.filter config.Enabled (config.APIKeys pc))).
    { apply filter_In. split; [by apply list_elem_of_In | done]. }
    by rewrite Hnil in Hin. }
  split; [done|]. split; [done|].
  intros Hcfg Hout. apply Hne.
  apply (GetNextKey_no_candidates p w pc); [by rewrite Hcfg | done].
Qed.

Lemma loadProviders_spec Getenv providers : forall c,
  NoDup providers.*1 ->
  (forall p pc, (p, pc) ∈ providers ->
     config.loadProviders Getenv providers c !! p =
       Some {| config.APIKeys := List.map (config.loadKey Getenv p) (config.APIKeys pc);
               config.Rotation := config.Rotation pc |}) /\
  (forall p, p ∉ providers.*1 -> config.loadProviders Getenv providers c !! p = c !! p).
Proof.
  induction providers as [|[p0 pc0] rest IH]; intros c Hnd.
  - split; [by intros p pc ?%elem_of_nil | done].
  - rewrite fmap_cons in Hnd. apply NoDup_cons in Hnd as [Hfresh Hnd]. simpl in Hfresh.
    cbn [config.loadProviders].
    match goal with |- context [config.loadProviders Getenv rest ?c'] =>
      destruct (IH c' Hnd) as [Hin Hout] end.
    split.
    + intros p pc Hp. apply elem_of_cons in Hp as [[= -> ->] | Hp].
      * rewrite Hout by done. by rewrite lookup_insert_eq.
      * by apply Hin.
    + intros p Hp. apply not_elem_of_cons in Hp as [Hne Hp].
      rewrite Hout by done. by rewrite lookup_insert_ne.
Qed.

Lemma LoadFromEnvironment_lookup Getenv cfg p :
  config.Providers (config.LoadFromEnvironment Getenv cfg) !! p =
    (fun pc => {| config.APIKeys := List.map (config.loadKey Getenv p) (config.APIKeys pc);
                  config.Rotation := config.Rotation pc |}) <$> config.Providers cfg !! p.
Proof.
  unfold config.LoadFromEnvironment. simpl.
  destruct (loadProviders_spec Getenv (range (config.Providers cfg)) (config.Providers cfg)
              (range_fst_NoDup _)) as [Hin Hout].
  destruct (config.Providers cfg !! p) as [pc|] eqn:Hp; simpl.
  - apply Hin. by apply range_elem_of.
  - rewrite Hout; [done|]. intros Hp'%range_fst_elem_of. rewrite Hp in Hp'. by destruct Hp'.
Qed.

Lemma loadKey_fields Getenv p k :
  config.Name (config.loadKey Getenv p k) = config.Name k /\
  config.Enabled (config.loadKey Getenv p k) = config.Enabled k /\
  config.RateLimit (config.loadKey Getenv p k) = config.RateLimit k /\
  config.CostLimit (config.loadKey Getenv p k) = config.CostLimit k /\
  config.CostUsed (config.loadKey Getenv p k) = config.CostUsed k /\
  config.Key (config.loadKey Getenv p k) =
    if String.eqb (Getenv (env_name p (config.Name k))) "" then config.Key k
    else Getenv (env_name p (config.Name k)).
Proof.
  unfold config.loadKey, env_name.
  by destruct (String.eqb (Getenv _) "").
Qed.

Lemma loadKey_idemp Getenv p k :
  config.loadKey Getenv p (config.loadKey Getenv p k) = config.loadKey Getenv p k.
Proof.
  destruct (loadKey_fields Getenv p k) as (Hn & _).
  unfold config.loadKey at 1. rewrite Hn.
  fold (env_name p (config.Name k)).
  destruct (String.eqb (Getenv (env_name p (config.Name k))) "") eqn:Henv; [done|].
  unfold config.loadKey. fold (env_name p (config.Name k)). by rewrite Henv.
Qed.

(** X24.  LoadFromEnvironment touches keys only, and gives the same result
    in whatever order it visits the providers: every provider keeps its
    rotation settings and its credentials, in order, each with its name,
    limits and enabled flag; a credential's key becomes the value of
    GOLLM_<provider>_API_KEY_<name> when that variable is set to a
    non-empty string and stays as configured otherwise.  Loading twice is
    loading once, and a configuration that validateConfig accepts is still
    accepted after loading. *)
Theorem environment_overrides_keys_only Getenv Models cfg :
  (forall p,
     config.Providers (config.LoadFromEnvironment Getenv cfg) !! p =
       (fun pc =>
          {| config.APIKeys := List.map (config.loadKey Getenv p) (config.APIKeys pc);
             config.Rotation := config.Rotation pc |}) <$> config.Providers cfg !! p) /\
  (forall p k,
     config.Name (config.loadKey Getenv p k) = config.Name k /\
     config.Enabled (config.loadKey Getenv p k) = config.Enabled k /\
     config.RateLimit (config.loadKey Getenv p k) = config.RateLimit k /\
     config.CostLimit (config.loadKey Getenv p k) = config.CostLimit k /\
     config.CostUsed (config.loadKey Getenv p k) = config.CostUsed k /\
     config.Key (config.loadKey Getenv p k) =
       if String.eqb (Getenv (env_name p (config.Name k))) "" then config.Key k
       else Getenv (env_name p (config.Name k))) /\
  config.LoadFromEnvironment Getenv (config.LoadFromEnvironment Getenv cfg) =
    config.LoadFromEnvironment Getenv cfg /\
  (slices_fit Models cfg -> config.validateConfig Models cfg = None ->
   config.validateConfig Models (config.LoadFromEnvironment Getenv cfg) = None).
Proof.
  split; [apply LoadFromEnvironment_lookup|]. split; [apply loadKey_fields|]. split.
  - assert (Heq : config.Providers
        (config.LoadFromEnvironment Getenv (config.LoadFromEnvironment Getenv cfg)) =
      config.Providers (config.LoadFromEnvironment Getenv cfg)).
    { apply map_eq. intros p. rewrite !LoadFromEnvironment_lookup.
      destruct (config.Providers cfg !! p) as [pc|]; simpl; [|done].
      f_equal. f_equal. rewrite List.map_map. apply List.map_ext.
      intros k. apply loadKey_idemp. }
    destruct (config.LoadFromEnvironment Getenv (config.LoadFromEnvironment Getenv cfg)),
      (config.LoadFromEnvironment Getenv cfg). simpl in Heq. by rewrite Heq.
  - intros Hfit Hvalid.
    apply (validateConfig_spec _ _ Hfit) in Hvalid as [Hne Hwf].
    apply validateConfig_spec.
    + intros p pc'. rewrite LoadFromEnvironment_lookup.
      destruct (config.Providers cfg !! p) as [pc|] eqn:Hp; simpl; [|done].
      intros [= <-]. simpl. unfold len. rewrite length_map. apply (Hfit p pc Hp).
    + split.
      * intros Hempty. apply Hne. apply map_eq. intros p. rewrite lookup_empty.
        pose proof (LoadFromEnvironment_lookup Getenv cfg p) as Hl.
        rewrite Hempty, lookup_empty in Hl.
        by destruct (config.Providers cfg !! p).
      * intros p pc'. rewrite LoadFromEnvironment_lookup.
        destruct (config.Providers cfg !! p) as [pc|] eqn:Hp; simpl; [|done].
        intros [= <-]. destruct (Hwf p pc Hp) as (Hall & (k & Hk & Hen) & Hm & Hem).
        split; [|split; [|by split]]; simpl.
        -- intros k' Hk'. apply list_elem_of_In, in_map_iff in Hk' as (k0 & <- & Hk0).
           apply list_elem_of_In in Hk0. destruct (Hall k0 Hk0) as [Hkey Hname].
           destruct (loadKey_fields Getenv p k0) as (-> & _ & _ & _ & _ & ->).
           split; [|done].
           by destruct (String.eqb_spec (Getenv (env_name p (config.Name k0))) "").
        -- exists (config.loadKey Getenv p k). split.
           ++ apply list_elem_of_In, in_map. by apply list_elem_of_In.
           ++ by destruct (loadKey_fields Getenv p k) as (_ & -> & _).
Qed.

End Configuration.

(** ** Requests: options, model check and key selection *)

Section Requests.

Import providers.

Variable cfg : config.Config.
Variable Models : string -> list config.ModelConfig.

Lemma GetModelByName_Some models name m :
  config.GetModelByName models name = Some m ->
  m ∈ models /\ config.ModelName m = name /\ config.ModelEnabled m = true.
Proof.
  induction models as [|model rest IH]; simpl; [done|].
  destruct (String.eqb_spec (config.ModelName model) name) as [Hn | Hn]; simpl.
  - destruct (config.ModelEnabled model) eqn:Hen.
    + intros [= <-]. split; [by left | done].
    + intros Hm. destruct (IH Hm) as (? & ? & ?). split; [by right | done].
  - intros Hm. destruct (IH Hm) as (? & ? & ?). split; [by right | done].
Qed.

Lemma GetModelByName_None models name :
  config.GetModelByName models name = None <->
  forall m, m ∈ models -> config.ModelName m = name -> config.ModelEnabled m = false.
Proof.
  induction models as [|model rest IH]; simpl.
  - split; [|done]. by intros _ m ?%elem_of_nil.
  - destruct (String.eqb_spec (config.ModelName model) name) as [Hn | Hn]; simpl.
    + destruct (config.ModelEnabled model) eqn:Hen.
      * split; [done|]. intros Hall. rewrite (Hall model) in Hen; [done | by left | done].
      * rewrite IH. split.
        -- intros Hall m Hin. apply elem_of_cons in Hin as [-> | Hin]; [done | by apply Hall].
        -- intros Hall m Hin. apply Hall. by right.
    + rewrite IH. split.
      * intros Hall m Hin. apply elem_of_cons in Hin as [-> | Hin]; [done | by apply Hall].
      * intros Hall m Hin. apply Hall. by right.
Qed.

Lemma GetModelByName_first_enabled models name :
  config.GetModelByName models name =
    head (List.filter (fun m => String.eqb (config.ModelName m) name)
                      (config.GetEnabledModels models)).
Proof.
  induction models as [|model rest IH]; simpl; [done|].
  unfold config.GetEnabledModels in *. simpl.
  destruct (config.ModelEnabled model); simpl.
  - destruct (String.eqb (config.ModelName model) name); simpl; [done | apply IH].
  - rewrite andb_false_r. apply IH.
Qed.

(** X25.  GetModelByName returns the first of the provider's enabled
    models that bears the name: a disabled model of that name earlier in
    the list does not hide an enabled one further down.  It fails exactly
    when GetEnabledModels holds no model of that name. *)
Theorem model_lookup_is_first_enabled models name :
  config.GetModelByName models name =
    head (List.filter (fun m => String.eqb (config.ModelName m) name)
                      (config.GetEnabledModels models)) /\
  (config.GetModelByName models name = None <->
   forall m, m ∈ config.GetEnabledModels models -> config.ModelName m <> name).
Proof.
  split; [apply GetModelByName_first_enabled|].
  rewrite GetModelByName_None. unfold config.GetEnabledModels. split.
  - intros Hall m Hin%list_elem_of_In. apply filter_In in Hin as [Hin Hen].
    intros Hn. rewrite (Hall m) in Hen; [done | by apply list_elem_of_In | done].
  - intros Hall m Hin Hn. destruct (config.ModelEnabled m) eqn:Hen; [|done].
    destruct (Hall m); [|done]. apply list_elem_of_In, filter_In.
    split; [by apply list_elem_of_In | done].
Qed.

Lemma DefaultOptions_complete provider :
  Model (DefaultOptions provider) <> "" /\
  MaxTokens (DefaultOptions provider) <> 0 /\
  PrimFloat.eqb (Temperature (DefaultOptions provider)) 0 = false.
Proof.
  unfold DefaultOptions.
  destruct (String.eqb provider OpenAI); [by vm_compute|].
  destruct (String.eqb provider Anthropic); [by vm_compute|].
  destruct (String.eqb provider Gemini); by vm_compute.
Qed.

(** The four statements that fill a field left unset. *)
Lemma unsetModel_fields v r :
  Model (unsetModel v r) = (if String.eqb (Model r) "" then v else Model r) /\
  Provider (unsetModel v r) = Provider r /\ MaxTokens (unsetModel v r) = MaxTokens r /\
  Temperature (unsetModel v r) = Temperature r /\ TopP (unsetModel v r) = TopP r /\
  Stop (unsetModel v r) = Stop r /\ Stream (unsetModel v r) = Stream r.
Proof. unfold unsetModel. by destruct (String.eqb (Model r) ""). Qed.

Lemma unsetMaxTokens_fields v r :
  MaxTokens (unsetMaxTokens v r) = (if MaxTokens r =? 0 then v else MaxTokens r) /\
  Provider (unsetMaxTokens v r) = Provider r /\ Model (unsetMaxTokens v r) = Model r /\
  Temperature (unsetMaxTokens v r) = Temperature r /\ TopP (unsetMaxTokens v r) = TopP r /\
  Stop (unsetMaxTokens v r) = Stop r /\ Stream (unsetMaxTokens v r) = Stream r.
Proof. unfold unsetMaxTokens. by destruct (MaxTokens r =? 0). Qed.

Lemma unsetTemperature_fields v r :
  Temperature (unsetTemperature v r) =
    (if PrimFloat.eqb (Temperature r) 0 then v else Temperature r) /\
  Provider (unsetTemperature v r) = Provider r /\ Model (unsetTemperature v r) = Model r /\
  MaxTokens (unsetTemperature v r) = MaxTokens r /\ TopP (unsetTemperature v r) = TopP r /\
  Stop (unsetTemperature v r) = Stop r /\ Stream (unsetTemperature v r) = Stream r.
Proof. unfold unsetTemperature. by destruct (PrimFloat.eqb (Temperature r) 0). Qed.

Lemma unsetTopP_fields v r :
  TopP (unsetTopP v r) = (if PrimFloat.eqb (TopP r) 0 then v else TopP r) /\
  Provider (unsetTopP v r) = Provider r /\ Model (unsetTopP v r) = Model r /\
  MaxTokens (unsetTopP v r) = MaxTokens r /\ Temperature (unsetTopP v r) = Temperature r /\
  Stop (unsetTopP v r) = Stop r /\ Stream (unsetTopP v r) = Stream r.
Proof. unfold unsetTopP. by destruct (PrimFloat.eqb (TopP r) 0). Qed.

(** What [mergeOptions] returns. *)
Lemma mergeOptions_spec (provider : string) opts :
  match config.Providers cfg !! provider with
  | None =>
    mergeOptions cfg Models provider opts =
      Failed (ErrInvalidConfig (ErrProviderNotFound provider))
  | Some _ =>
    exists r,
      mergeOptions cfg Models provider opts = Done r /\
      Provider r = provider /\ Stop r = Stop opts /\ Stream r = Stream opts /\
      Model r <> "" /\ MaxTokens r <> 0 /\ PrimFloat.eqb (Temperature r) 0 = false /\
      (Model opts <> "" -> Model r = Model opts) /\
      (MaxTokens opts <> 0 -> MaxTokens r = MaxTokens opts) /\
      (PrimFloat.eqb (Temperature opts) 0 = false -> Temperature r = Temperature opts) /\
      (PrimFloat.eqb (TopP opts) 0 = false -> TopP r = TopP opts) /\
      (Model opts = "" ->
       match config.GetEnabledModels (Models provider) with
       | first :: _ =>
         config.ModelName first <> "" -> Model r = config.ModelName first
       | [] => Model r = Model (DefaultOptions provider)
       end)
  end.
Proof.
  unfold mergeOptions, config.GetProvider.
  destruct (config.Providers cfg !! provider) as [pc|]; [|done].
  destruct (DefaultOptions_complete provider) as (Hdm & Hdt & Hdf).
  eexists. split; [reflexivity|].
  set (r0 := {| Provider := provider; Model := Model opts; MaxTokens := MaxTokens opts;
                Temperature := Temperature opts; TopP := TopP opts; Stop := Stop opts;
                Stream := Stream opts |}).
  match goal with |- context [unsetModel (Model (DefaultOptions provider)) ?r] =>
    set (r1 := r) end.
  assert (H1 : Provider r1 = provider /\ Stop r1 = Stop opts /\ Stream r1 = Stream opts /\
               Temperature r1 = Temperature opts /\ TopP r1 = TopP opts /\
               (Model opts <> "" -> Model r1 = Model opts) /\
               (MaxTokens opts <> 0 -> MaxTokens r1 = MaxTokens opts) /\
               (Model opts = "" ->
                match config.GetEnabledModels (Models provider) with
                | first :: _ => config.ModelName first <> "" -> Model r1 = config.ModelName first
                | [] => Model r1 = ""
                end)).
  { subst r1. destruct (String.eqb_spec (Model opts) "") as [Hm | Hm]; simpl.
    - destruct (config.GetEnabledModels (Models provider)) as [|first rest]; simpl.
      + do 5 (split; [done|]). split; [done|]. split; [done|]. done.
      + unfold unsetMaxTokens, unsetModel. simpl. rewrite Hm. simpl.
        destruct (MaxTokens opts =? 0) eqn:Ht; simpl;
          (do 5 (split; [done|]); split; [done|]; split;
           [intros Hne; apply Z.eqb_neq in Hne; congruence | done]).
    - rewrite andb_false_r.
      destruct (config.GetModelByName (Models provider) (Model opts)) as [m|]; simpl.
      + unfold unsetMaxTokens, unsetModel. simpl.
        destruct (String.eqb_spec (Model opts) "") as [|_]; [done|]. simpl.
        destruct (MaxTokens opts =? 0) eqn:Ht; simpl;
          (do 5 (split; [done|]); split; [done|]; split;
           [intros Hne; apply Z.eqb_neq in Hne; congruence | done]).
      + do 5 (split; [done|]). split; [done|]. split; [done|]. done. }
  clearbody r1. clear r0.
  destruct H1 as (Hp & Hstop & Hstream & Htemp & Htop & Hmodel & Hmax & Hfirst).
  destruct (unsetModel_fields (Model (DefaultOptions provider)) r1)
    as (Em2 & Ep2 & Et2 & Ef2 & Eq2 & Es2 & Er2).
  set (r2 := unsetModel _ r1) in *. clearbody r2.
  destruct (unsetMaxTokens_fields (MaxTokens (DefaultOptions provider)) r2)
    as (Et3 & Ep3 & Em3 & Ef3 & Eq3 & Es3 & Er3).
  set (r3 := unsetMaxTokens _ r2) in *. clearbody r3.
  destruct (unsetTemperature_fields (Temperature (DefaultOptions provider)) r3)
    as (Ef4 & Ep4 & Em4 & Et4 & Eq4 & Es4 & Er4).
  set (r4 := unsetTemperature _ r3) in *. clearbody r4.
  destruct (unsetTopP_fields (TopP (DefaultOptions provider)) r4)
    as (Eq5 & Ep5 & Em5 & Et5 & Ef5 & Es5 & Er5).
  set (r5 := unsetTopP _ r4) in *. clearbody r5.
  rewrite Ep5, Ep4, Ep3, Ep2, Es5, Es4, Es3, Es2, Er5, Er4, Er3, Er2.
  rewrite Em5, Em4, Em3, Em2, Et5, Et4, Et3, Et2, Ef5, Ef4, Ef3, Ef2.
  rewrite Eq5, Eq4, Eq3, Eq2, Htemp, Htop.
  split; [done|]. split; [done|]. split; [done|].
  split. { by destruct (String.eqb_spec (Model r1) ""). }
  split. { by destruct (Z.eqb_spec (MaxTokens r1) 0). }
  split. { by destruct (PrimFloat.eqb (Temperature opts) 0) eqn:Hz. }
  split. { intros Hne. rewrite (Hmodel Hne). by destruct (String.eqb_spec (Model opts) ""). }
  split. { intros Hne. rewrite (Hmax Hne). by destruct (Z.eqb_spec (MaxTokens opts) 0). }
  split. { by intros ->. }
  split. { by intros ->. }
  intros Hempty. specialize (Hfirst Hempty).
  destruct (config.GetEnabledModels (Models provider)) as [|first rest].
  - rewrite Hfirst. done.
  - intros Hn. rewrite (Hfirst Hn). by destruct (String.eqb_spec (config.ModelName first) "").
Qed.

(** X26.  mergeOptions fails only for a provider that is not configured.
    Otherwise the options it returns are complete: the model is not empty,
    MaxTokens is not zero and the temperature does not compare equal to
    zero.  What the request set wins: a model, a MaxTokens or a temperature
    given in the request is returned as given, Stop and Stream are copied,
    and the provider is the one asked for.  With no model in the request
    the model is the first enabled model of the provider, and the default
    of the provider type when it has none. *)
Theorem merged_options_are_complete (provider : string) opts :
  match config.Providers cfg !! provider with
  | None =>
    mergeOptions cfg Models provider opts =
      Failed (ErrInvalidConfig (ErrProviderNotFound provider))
  | Some _ =>
    exists r,
      mergeOptions cfg Models provider opts = Done r /\
      Provider r = provider /\ Stop r = Stop opts /\ Stream r = Stream opts /\
      Model r <> "" /\ MaxTokens r <> 0 /\ PrimFloat.eqb (Temperature r) 0 = false /\
      (Model opts <> "" -> Model r = Model opts) /\
      (MaxTokens opts <> 0 -> MaxTokens r = MaxTokens opts) /\
      (PrimFloat.eqb (Temperature opts) 0 = false -> Temperature r = Temperature opts) /\
      (PrimFloat.eqb (TopP opts) 0 = false -> TopP r = TopP opts) /\
      (Model opts = "" ->
       match config.GetEnabledModels (Models provider) with
       | first :: _ =>
         config.ModelName first <> "" -> Model r = config.ModelName first
       | [] => Model r = Model (DefaultOptions provider)
       end)
  end.
Proof. apply mergeOptions_spec. Qed.

Context `{CryptoLib} `{LoopVar} `{Transport}.

Lemma Chat_unfold messages opts w :
  Chat cfg Models messages opts w =
    match mergeOptions cfg Models (target opts) opts with
    | Failed err => (Failed err, w)
    | Panicked reason => (Panicked reason, w)
    | Done merged =>
      match validateModel cfg Models (Provider merged) (Model merged) with
      | Failed err => (Failed err, w)
      | Panicked reason => (Panicked reason, w)
      | Done _ =>
        match getNextKey (Provider merged) w with
        | (Failed err, w') => (Failed err, w')
        | (Panicked reason, w') => (Panicked reason, w')
        | (Done key, w') =>
          if String.eqb (Provider merged) OpenAI then callOpenAI messages merged key w'
          else if String.eqb (Provider merged) Anthropic
               then callAnthropic messages merged key w'
          else if String.eqb (Provider merged) Gemini then callGemini messages merged key w'
          else (Failed (ErrUnsupportedProvider (Provider merged)), w')
        end
      end
    end.
Proof.
  unfold Chat, target.
  destruct (String.eqb (Provider opts) "") eqn:Hp; [|done].
  unfold mergeOptions. simpl. done.
Qed.

(** X27.  Chat refuses a request before any key is selected, leaving the
    world untouched (no cursor moves, no credential is stamped as used),
    when the provider is not configured, when the request names a model
    that is not an enabled model of the provider, and when the request
    names no model and the provider has no enabled model, in which case
    the model reported invalid is the default of the provider type.  This
    holds for every transport. *)
Theorem chat_refuses_before_selecting messages opts w :
  match config.Providers cfg !! target opts with
  | None =>
    Chat cfg Models messages opts w =
      (Failed (ErrInvalidConfig (ErrProviderNotFound (target opts))), w)
  | Some _ =>
    (Model opts <> "" ->
     config.GetModelByName (Models (target opts)) (Model opts) = None ->
     Chat cfg Models messages opts w = (Failed (ErrInvalidModel (Model opts)), w)) /\
    (Model opts = "" ->
     config.GetEnabledModels (Models (target opts)) = [] ->
     Chat cfg Models messages opts w =
       (Failed (ErrInvalidModel (Model (DefaultOptions (target opts)))), w))
  end.
Proof.
  rewrite Chat_unfold.
  pose proof (mergeOptions_spec (target opts) opts) as Hmerge.
  destruct (config.Providers cfg !! target opts) as [pc|] eqn:Hpc; [|by rewrite Hmerge].
  destruct Hmerge as (r & -> & Hp & _ & _ & Hne & _ & _ & Hkeep & _ & _ & _ & Hdefault).
  unfold validateModel, config.GetProvider. rewrite Hp, Hpc.
  destruct (String.eqb_spec (Model r) "") as [Hempty | _]; [done|].
  split.
  - intros Hm Hnone. rewrite (Hkeep Hm), Hnone. done.
  - intros Hm Hnone. specialize (Hdefault Hm). rewrite Hnone in Hdefault.
    rewrite Hdefault, GetModelByName_first_enabled, Hnone. done.
Qed.

(** X28.  Once the provider is configured and the merged model is one of
    its enabled models, Chat is GetNextKey followed by the provider's
    call: the transport receives the merged options and the selection
    GetNextKey returned; an error of GetNextKey comes back as a key
    rotation error, a panic unwinds, and the transport is not reached.  A
    configured provider of a type other than the three supported is
    refused only after a key has been selected for it: the rotator has
    stamped that credential as used although no request was made. *)
Theorem chat_selects_then_calls messages opts w merged :
  is_Some (config.Providers cfg !! target opts) ->
  mergeOptions cfg Models (target opts) opts = Done merged ->
  is_Some (config.GetModelByName (Models (target opts)) (Model merged)) ->
  Chat cfg Models messages opts w =
    match GetNextKey (target opts) w with
    | (Ok key, w') =>
      if String.eqb (target opts) OpenAI then callOpenAI messages merged key w'
      else if String.eqb (target opts) Anthropic then callAnthropic messages merged key w'
      else if String.eqb (target opts) Gemini then callGemini messages merged key w'
      else (Failed (ErrUnsupportedProvider (target opts)), w')
    | (Err err, w') => (Failed (ErrKeyRotation err), w')
    | (Panic reason, w') => (Panicked reason, w')
    end /\
  forall key w',
    GetNextKey (target opts) w = (Ok key, w') ->
    is_Some (lastUsed (rotator w') !! target opts ≫= (.!! SelKeyName key)).
Proof.
  intros [pc Hpc] Hmerge [m Hm]. split.
  - rewrite Chat_unfold, Hmerge.
    pose proof (mergeOptions_spec (target opts) opts) as Hspec.
    rewrite Hpc, Hmerge in Hspec.
    destruct Hspec as (r & [= <-] & Hp & _ & _ & Hne & _).
    unfold validateModel, config.GetProvider. rewrite Hp, Hpc, Hm.
    destruct (String.eqb_spec (Model merged) "") as [Hempty | _]; [done|].
    unfold getNextKey.
    by destruct (GetNextKey (target opts) w) as [[key | err | reason] w'].
  - intros key w' Hrun.
    destruct (GetNextKey_Ok_inv _ _ _ _ Hrun) as
      (pc' & held & k & w1 & _ & _ & _ & _ & _ & _ &
       [[_ Hfin] | (_ & _ & _ & _ & k' & w2 & _ & _ & _ & Hfin)]);
      destruct (finish_selection_Ok_inv _ _ _ _ _ _ _ _ Hfin)
        as (_ & _ & <- & _ & _ & _ & _ & _ & Hstamp); done.
Qed.

End Requests.

(** ** The properties on concrete worlds *)

Section Cases.

Import Demo.

Lemma by_key_laws : @MapRangeLaws by_key.
Proof. split. intros V m. reflexivity. Qed.

Lemma loaded_aligned pc clk : aligned (store (loaded pc clk)).
Proof.
  unfold loaded, after, bind.
  pose proof (StoreKey_spec "openai" "A" "sk-a" (world0 pc clk) (aligned_empty "")) as [H1 _].
  unfold after in H1.
  destruct (StoreKey "openai" "A" "sk-a" (world0 pc clk)) as [[[] | e | r] w1]; simpl in *;
    [|done|done].
  by destruct (StoreKey_spec "openai" "B" "sk-b" w1 H1) as [H2 _].
Qed.

Lemma selection_is_enabled_candidate_witness :
  exists sel,
    outcome (GetNextKey "openai") all_healthy = Ok sel /\
    exists pc k held,
      config.Providers (config (rotator all_healthy)) !! "openai" = Some pc /\
      k ∈ config.GetEnabledKeys pc /\ k ∈ config.APIKeys pc /\
      config.Enabled k = true /\
      SelProvider sel = "openai" /\ SelKeyName sel = config.Name k /\
      held ∈ config.GetEnabledKeys pc /\
      SelRateLimit sel = config.RateLimit held /\ SelCostLimit sel = config.CostLimit held /\
      (held = k \/
       per_iteration = false /\ scans (config.Strategy (config.Rotation pc)) = true /\
       last (config.GetEnabledKeys pc) = Some held).
Proof.
  eexists. split; [vm_compute; reflexivity|].
  apply (selection_is_enabled_candidate "openai" all_healthy).
  vm_compute. reflexivity.
Defined.

Lemma selection_is_healthy_witness :
  exists sel,
    outcome (GetNextKey "openai") all_healthy = Ok sel /\
    health_of (store all_healthy) "openai" (SelKeyName sel) = Some true.
Proof.
  eexists. split; [vm_compute; reflexivity|].
  apply (selection_is_healthy "openai" all_healthy two_keys).
  - vm_compute. reflexivity.
  - reflexivity.
  - vm_compute. reflexivity.
Defined.


Lemma unhealthy_without_fallback_witness :
  GetNextKey "openai" A_unhealthy =
    (Err (ErrUnhealthyNoFallback "A"),
     snd (selectRoundRobin "openai" [keyA; keyB] A_unhealthy)).
Proof.
  apply (unhealthy_without_fallback "openai" A_unhealthy two_keys keyA "A").
  - vm_compute. reflexivity.
  - reflexivity.
  - vm_compute. reflexivity.
  - vm_compute. reflexivity.
  - left. reflexivity.
Defined.

Lemma shared_variable_returns_last_witness :
  outcome (@selectCostOptimized shared_variable "openai" [keyA; keyB]) B_used_once
    = Ok (Some keyB, "A") /\
  last [keyA; keyB] = Some keyB /\
  exists b,
    b ∈ [keyA; keyB] /\ "A" = config.Name b /\
    forall u, usage_of (store B_used_once) "openai" (config.Name b) = Some u ->
              within_budget b u = true.
Proof.
  split; [vm_compute; reflexivity|].
  apply (@shared_variable_returns_last shared_variable "openai" [keyA; keyB] B_used_once
           keyB "A").
  - reflexivity.
  - vm_compute. reflexivity.
Defined.

Lemma single_returns_first_witness :
  exists sel,
    outcome (GetNextKey "openai") single_world = Ok sel /\
    SelKeyName sel = "A" /\ SelKey sel = "sk-a" /\
    SelStrategy sel = config.RotationSingle /\
    rotationIdx (rotator (after (GetNextKey "openai") single_world)) =
      rotationIdx (rotator single_world).
Proof.
  apply (single_returns_first "openai" single_world
           (provider config.RotationSingle false false [keyA; keyB]) keyA [keyB] "sk-a").
  - vm_compute. reflexivity.
  - reflexivity.
  - vm_compute. reflexivity.
  - left. reflexivity.
  - vm_compute. reflexivity.
Defined.

Lemma random_in_range_witness :
  exists k w1,
    selectRandom [keyA; keyB] all_healthy = (Ok (Some k, config.Name k), w1) /\
    [keyA; keyB] !! Z.to_nat (rand_src (rotator all_healthy) (rand_pos (rotator all_healthy))
                              mod len [keyA; keyB]) = Some k /\
    rand_pos (rotator w1) = S (rand_pos (rotator all_healthy)) /\
    rotationIdx (rotator w1) = rotationIdx (rotator all_healthy) /\
    store w1 = store all_healthy.
Proof. apply (random_in_range [keyA; keyB] all_healthy). discriminate. Defined.

Lemma stale_cursor_panics_witness :
  outcome (GetNextKey "openai") stale_cursor = Panic index_panic /\
  cursor (after (GetNextKey "openai") stale_cursor) "openai" =
    (cursor stale_cursor "openai" + 1) mod len (config.GetEnabledKeys two_keys) /\
  0 <= cursor (after (GetNextKey "openai") stale_cursor) "openai"
    < len (config.GetEnabledKeys two_keys).
Proof.
  apply (stale_cursor_panics "openai" stale_cursor two_keys).
  - vm_compute. reflexivity.
  - reflexivity.
  - vm_compute. discriminate.
  - vm_compute. split; [discriminate | reflexivity].
Defined.

Lemma store_then_get_witness :
  outcome (GetKey "openai" "A") (after (StoreKey "openai" "A" "sk-a") sealed_world)
    = Ok "sk-a" /\
  forall p' k', (p', k') <> ("openai", "A") ->
    secret_of (store (after (StoreKey "openai" "A" "sk-a") sealed_world)) p' k' =
    secret_of (store sealed_world) p' k'.
Proof.
  apply (@store_then_get toy toy_laws "openai" "A" "sk-a" sealed_world).
  vm_compute. reflexivity.
Defined.

Lemma unknown_credential_witness :
  GetKey "openai" "C" all_healthy = (Err (ErrKeyNotFound "C" "openai"), all_healthy) /\
  UpdateUsage "openai" "C" 10 1%float all_healthy =
    (Err (ErrKeyNotFound "C" "openai"), all_healthy) /\
  store (after (DeleteKey "openai" "C") all_healthy) = store all_healthy.
Proof.
  destruct (unknown_credential "openai" "C" 10 1%float "refused" all_healthy)
    as (Hget & _ & _ & Hupdate & _ & _ & Hdelete).
  - apply loaded_aligned.
  - vm_compute. reflexivity.
  - split; [exact Hget|]. split; [exact Hupdate | exact Hdelete].
Defined.

Lemma delete_removes_only_witness :
  secret_of (store (after (DeleteKey "openai" "A") all_healthy)) "openai" "B" =
    secret_of (store all_healthy) "openai" "B" /\
  outcome (GetKey "openai" "A") (after (DeleteKey "openai" "A") all_healthy) =
    Err (ErrKeyNotFound "A" "openai").
Proof.
  edestruct (delete_removes_only "openai" "A" all_healthy) as [Hothers Hgone].
  - vm_compute. reflexivity.
  - split; [|exact Hgone]. by destruct (Hothers "openai" "B") as (? & _).
Defined.

Lemma update_touches_one_record_witness :
  outcome (UpdateUsage "openai" "A" 100 1%float) all_healthy = Ok tt /\
  keys (store (after (UpdateUsage "openai" "A" 100 1%float) all_healthy)) =
    keys (store all_healthy) /\
  usage_of (store (after (UpdateUsage "openai" "A" 100 1%float) all_healthy)) "openai" "B" =
    usage_of (store all_healthy) "openai" "B".
Proof.
  edestruct (update_touches_one_record "openai" "A" 100 1%float all_healthy)
    as (Hok & _ & Hkeys & _ & _ & Hothers).
  - vm_compute. reflexivity.
  - split; [exact Hok|]. split; [exact Hkeys|]. by apply Hothers.
Defined.

Lemma one_error_undoes_recovery_witness :
  health_of (store (after (SetHealth "openai" "A" true) A_failing)) "openai" "A"
    = Some true /\
  health_of (store (after (RecordError "openai" "A" "timeout")
                          (after (SetHealth "openai" "A" true) A_failing)))
            "openai" "A" = Some false.
Proof.
  eapply (one_error_undoes_recovery "openai" "A" "timeout" A_failing).
  - vm_compute. reflexivity.
  - vm_compute. reflexivity.
  - vm_compute. split; [discriminate | reflexivity].
Defined.

Lemma failed_probe_is_recorded_witness :
  outcome (writeBack "openai" "A" false "invalid key") all_healthy = Ok tt /\
  health_of (store (after (writeBack "openai" "A" false "invalid key") all_healthy))
            "openai" "A" = Some false.
Proof.
  edestruct (failed_probe_is_recorded "openai" "A" "invalid key" all_healthy)
    as (Hok & Hflag & _).
  - vm_compute. reflexivity.
  - vm_compute. reflexivity.
  - split; [exact Hok | exact Hflag].
Defined.

Lemma set_health_creates_orphan_witness :
  outcome (SetHealth "openai" "C" true) all_healthy = Ok tt /\
  outcome (IsHealthy "openai" "C") (after (SetHealth "openai" "C" true) all_healthy)
    = Ok true /\
  outcome (GetKey "openai" "C") (after (SetHealth "openai" "C" true) all_healthy)
    = Err (ErrKeyNotFound "C" "openai") /\
  usage_of (store (after (SetHealth "openai" "C" true) all_healthy)) "openai" "C" = None /\
  ~ aligned (store (after (SetHealth "openai" "C" true) all_healthy)).
Proof.
  apply (set_health_creates_orphan "openai" "C" true all_healthy).
  - apply loaded_aligned.
  - eexists. vm_compute. reflexivity.
  - vm_compute. reflexivity.
Defined.

Lemma list_keys_are_the_stored_names_witness :
  exists keyNames,
    ListKeys "openai" all_healthy = (Ok keyNames, all_healthy) /\
    NoDup keyNames /\
    (forall k, k ∈ keyNames <-> is_Some (secret_of (store all_healthy) "openai" k)) /\
    (keys (store all_healthy) !! "openai" = None -> keyNames = []).
Proof. exact (@list_keys_are_the_stored_names by_key by_key_laws "openai" all_healthy). Defined.

Lemma names_of_two_keys p pc :
  config.Providers (cfg two_keys) !! p = Some pc ->
  NoDup (config.Name <$> config.APIKeys pc).
Proof.
  unfold cfg. simpl. intros Hp. apply lookup_insert_Some in Hp as [[_ <-] | [_ Hp]].
  - apply NoDup_cons. split; [|apply NoDup_singleton].
    intros Hin%list_elem_of_singleton. discriminate.
  - by rewrite lookup_empty in Hp.
Qed.

Lemma store_mirrors_config_witness :
  aligned (store (after (NewKeyStoreFromConfig (cfg two_keys) true) sealed_world)) /\
  outcome (GetKey "openai" "B")
          (after (NewKeyStoreFromConfig (cfg two_keys) true) sealed_world) = Ok "sk-b".
Proof.
  destruct (@store_mirrors_config toy toy_laws by_key by_key_laws (cfg two_keys) true
              sealed_world (after (NewKeyStoreFromConfig (cfg two_keys) true) sealed_world))
    as (Hal & Hkeys & _).
  - apply names_of_two_keys.
  - vm_compute. reflexivity.
  - split; [exact Hal|].
    destruct (Hkeys "openai" two_keys keyB) as (Hget & _).
    + vm_compute. reflexivity.
    + right. left.
    + exact Hget.
Defined.

Lemma key_statistics_are_the_ledger_witness :
  exists stats,
    GetKeyStatistics "openai" used_once = (Ok stats, used_once) /\
    (forall k, stats !! k =
       secret_of (store used_once) "openai" k ≫= (fun _ => usage_of (store used_once) "openai" k)) /\
    (aligned (store used_once) -> stats = default ∅ (usage (store used_once) !! "openai")) /\
    (keys (store used_once) !! "openai" = None -> stats = ∅).
Proof. exact (@key_statistics_are_the_ledger by_key by_key_laws "openai" used_once). Defined.

Lemma provider_statistics_are_totals_witness :
  exists ps,
    GetProviderStatistics "openai" used_once = (Ok ps, used_once) /\
    TotalKeys ps = Z.of_nat (size used_once_stats) /\
    TotalTokens ps = wrap64 (total TokensUsed used_once_stats) /\
    TotalRequests ps = wrap64 (total UsageCount used_once_stats) /\
    HealthyKeys ps = wrap64 (Z.of_nat (healthy_count (store used_once) "openai" used_once_stats)).
Proof.
  destruct (@provider_statistics_are_totals by_key by_key_laws "openai" used_once used_once_stats)
    as (ps & Hrun & _ & Hkeys & Htokens & Hrequests & Hhealthy & _).
  - vm_compute. reflexivity.
  - exists ps. split; [exact Hrun|]. split; [exact Hkeys|]. split; [exact Htokens|].
    split; [exact Hrequests | exact Hhealthy].
Defined.

Lemma rotation_status_report_witness :
  exists status,
    GetRotationStatus "openai" after_selection = (Ok status, after_selection) /\
    CurrentIndex status = cursor after_selection "openai" /\
    (forall k, k ∈ AvailableKeys status <->
               is_Some (secret_of (store after_selection) "openai" k)) /\
    zero_time <= LastRotation status.
Proof.
  pose proof (@rotation_status_report by_key by_key_laws "openai" after_selection) as Hs.
  assert (Hpc : config.Providers (config (rotator after_selection)) !! "openai"
                = Some two_keys) by (vm_compute; reflexivity).
  rewrite Hpc in Hs. destruct Hs as (status & Hrun & _ & _ & Hidx & _ & Hkeys & Hzero & _).
  exists status. split; [exact Hrun|]. split; [exact Hidx|]. split; [exact Hkeys | exact Hzero].
Defined.

Lemma health_report_witness :
  exists status,
    GetHealthStatus asked A_unhealthy = (Ok status, A_unhealthy) /\
    forall p,
      match asked !! p with
      | None => status !! p = None
      | Some keyNames =>
        exists inner, status !! p = Some inner /\
          forall k, inner !! k =
            if bool_decide (k ∈ keyNames)
            then Some (bool_decide (health_of (store A_unhealthy) p k = Some true))
            else None
      end.
Proof. exact (@health_report by_key by_key_laws asked A_unhealthy). Defined.

Lemma two_keys_fit : slices_fit models (cfg two_keys).
Proof.
  intros p pc. unfold cfg. simpl. intros Hp.
  apply lookup_insert_Some in Hp as [[<- <-] | [_ Hp]].
  - vm_compute. split; discriminate.
  - by rewrite lookup_empty in Hp.
Qed.

Lemma validation_verdict_witness :
  config.validateConfig models (cfg two_keys) = None <->
  config.Providers (cfg two_keys) <> ∅ /\
  forall p pc, config.Providers (cfg two_keys) !! p = Some pc ->
    (forall k, k ∈ config.APIKeys pc -> config.Key k <> "" /\ config.Name k <> "") /\
    (exists k, k ∈ config.APIKeys pc /\ config.Enabled k = true) /\
    (forall m, m ∈ models p -> config.ModelName m <> "") /\
    (exists m, m ∈ models p /\ config.ModelEnabled m = true).
Proof.
  apply (@validation_verdict by_key by_key_laws models (cfg two_keys)).
  apply two_keys_fit.
Defined.

Lemma validated_config_has_candidates_witness :
  config.GetEnabledKeys two_keys = List.filter config.Enabled (config.APIKeys two_keys) /\
  config.GetEnabledKeys two_keys <> [] /\
  (config (rotator all_healthy) = cfg two_keys ->
   outcome (GetNextKey "openai") all_healthy <> Err (ErrNoEnabledKeys "openai")).
Proof.
  apply (@validated_config_has_candidates by_key by_key_laws toy own_variable models (cfg two_keys)
           "openai" two_keys all_healthy).
  - apply two_keys_fit.
  - vm_compute. reflexivity.
  - vm_compute. reflexivity.
  - apply two_candidates; reflexivity.
Defined.

Lemma environment_overrides_keys_only_witness :
  config.Key (config.loadKey env "openai" keyA) = "sk-env" /\
  config.Key (config.loadKey env "openai" keyB) = "sk-b" /\
  config.LoadFromEnvironment env (config.LoadFromEnvironment env (cfg two_keys)) =
    config.LoadFromEnvironment env (cfg two_keys) /\
  config.validateConfig models (config.LoadFromEnvironment env (cfg two_keys)) = None.
Proof.
  destruct (@environment_overrides_keys_only by_key by_key_laws env models (cfg two_keys))
    as (_ & Hkey & Htwice & Hvalid).
  split.
  { destruct (Hkey "openai" keyA) as (_ & _ & _ & _ & _ & ->). vm_compute. reflexivity. }
  split.
  { destruct (Hkey "openai" keyB) as (_ & _ & _ & _ & _ & ->). vm_compute. reflexivity. }
  split; [exact Htwice|]. apply Hvalid; [apply two_keys_fit | vm_compute; reflexivity].
Defined.

Lemma chat_selects_then_calls_witness :
  exists merged,
    providers.mergeOptions (cfg two_keys) models (target ask) ask = providers.Done merged /\
    @providers.Chat (cfg two_keys) models toy own_variable offline [] ask all_healthy =
      match GetNextKey (target ask) all_healthy with
      | (Ok key, w') =>
        if String.eqb (target ask) providers.OpenAI
        then @providers.callOpenAI offline [] merged key w'
        else if String.eqb (target ask) providers.Anthropic
             then @providers.callAnthropic offline [] merged key w'
        else if String.eqb (target ask) providers.Gemini
             then @providers.callGemini offline [] merged key w'
        else (providers.Failed (providers.ErrUnsupportedProvider (target ask)), w')
      | (Err err, w') => (providers.Failed (providers.ErrKeyRotation err), w')
      | (Panic reason, w') => (providers.Panicked reason, w')
      end.
Proof.
  eexists. split; [vm_compute; reflexivity|].
  edestruct (@chat_selects_then_calls (cfg two_keys) models toy own_variable offline [] ask
               all_healthy)
    as [Hchat _].
  - eexists. vm_compute. reflexivity.
  - vm_compute. reflexivity.
  - eexists. vm_compute. reflexivity.
  - exact Hchat.
Defined.

End Cases.
